(** * Barnes-Hut t-SNE engine: a shallow embedding and its properties

    The development follows the TypeScript module that implements the
    engine (distance kernels, Gaussian sampler, perplexity calibrator
    [nearest2P], tree annotation, gradient evaluator [costGrad] and the
    optimizer [step] of class [TSNE]).

    Number model.  JavaScript numbers are embedded as real numbers:
    arithmetic is exact, there is no rounding, no overflow and no NaN.
    Counters and array indices ([N], [iter], [numCells], neighbour
    indices) are natural numbers and are injected with [INR] where the
    program uses them in arithmetic.  An array is a list; a read [a[i]]
    is the total lookup [a !!! i], which is faithful for indices inside
    the array (every statement below that depends on a read keeps the
    index inside the array).

    Rounding.  What the real-number model cannot show is the effect of
    rounding.  Module [Doubles] at the end of the definitions embeds the
    optimizer ([costGrad] and [step]) a second time, line by line, in
    IEEE 754 binary64 arithmetic, the arithmetic of JavaScript numbers; it
    is used to evaluate a step on concrete engines. *)

From Stdlib Require Import Reals Lra Lia ZArith String.
From Stdlib Require Floats QArith Qabs Qreals Uint63.
From stdpp Require Import base decidable list.

Open Scope R_scope.

(** ** Numbers, comparisons, outcomes *)

#[global] Instance R_inhabited : Inhabited R := populate 0.
#[global] Instance R_eq_dec : EqDecision R := Req_dec_T.
#[global] Instance Rlt_decision (x y : R) : Decision (x < y) := Rlt_dec x y.
#[global] Instance Rgt_decision (x y : R) : Decision (x > y) := Rgt_dec x y.
#[global] Instance Rle_decision (x y : R) : Decision (x <= y) := Rle_dec x y.
#[global] Instance Rge_decision (x y : R) : Decision (x >= y) := Rge_dec x y.

(** A call either returns a value or throws. *)
Inductive outcome (A : Type) : Type :=
  | Returns (a : A)
  | Throws (msg : string).
Arguments Returns {A} a.
Arguments Throws {A} msg.

#[global] Instance outcome_bind : MBind outcome := fun A B k m =>
  match m with
  | Returns a => k a
  | Throws msg => Throws msg
  end.

(** [for (let i = 0; i < n; ++i) body] as a state transformer. *)
Definition for_ {S : Type} (n : nat) (body : nat -> S -> S) (s : S) : S :=
  foldl (fun s i => body i s) s (seq 0 n).

(** The same loop when the body can throw. *)
Definition forM {S : Type} (n : nat) (body : nat -> S -> outcome S) (s : S)
  : outcome S :=
  foldl (fun m i => s ← m; body i s) (Returns s) (seq 0 n).

(** [a[d] += v] on an array that has slot [d]. *)
Definition add_at (a : list R) (d : nat) (v : R) : list R :=
  <[d := a !!! d + v]> a.

(** [m[i][d] = v] on an array of rows. *)
Definition set_at (m : list (list R)) (i d : nat) (v : R) : list (list R) :=
  <[i := <[d := v]> (m !!! i)]> m.

(** Sum of the first [n] values of [f]. *)
Fixpoint sumn (n : nat) (f : nat -> R) : R :=
  match n with
  | O => 0
  | S n' => sumn n' f + f n'
  end.

(** ** Constants *)

(** Barnes-Hut approximation level. *)
Definition THETA : R := 8 / 10.

Definition MIN_POSSIBLE_PROB : R := 1 / 1000000000.

(** ** Distance kernels *)

(** Square euclidean distance between two vectors; throws on vectors of
    different lengths. *)
Definition dist2 (a b : list R) : outcome R :=
  if decide (length a ≠ length b) then
    Throws "Vectors a and b must be of same length"
  else
    Returns (for_ (length a)
               (fun i result => let diff := a !!! i - b !!! i in
                                result + diff * diff) 0).

(** Square euclidean distance between two 2D points.  It reads the first
    two coordinates of each vector and is meant for vectors that have
    them: on a shorter vector the source reads [undefined] and returns
    NaN, a value that the number model does not have. *)
Definition dist2_2D (a b : list R) : R :=
  let dX := a !!! 0%nat - b !!! 0%nat in
  let dY := a !!! 1%nat - b !!! 1%nat in
  dX * dX + dY * dY.

(** Square euclidean distance between two 3D points, for vectors that
    have three coordinates or more (see [dist2_2D]). *)
Definition dist2_3D (a b : list R) : R :=
  let dX := a !!! 0%nat - b !!! 0%nat in
  let dY := a !!! 1%nat - b !!! 1%nat in
  let dZ := a !!! 2%nat - b !!! 2%nat in
  dX * dX + dY * dY + dZ * dZ.

(** The type of the kernel slot of an engine: the bodies of [dist2_2D] and
    [dist2_3D] contain no [throw], so a call to them always returns. *)
Definition kernel := list R -> list R -> outcome R.

Definition call_dist2_2D : kernel := fun a b => Returns (dist2_2D a b).
Definition call_dist2_3D : kernel := fun a b => Returns (dist2_3D a b).

(** A kernel fails on a pair of vectors. *)
Definition fails (k : kernel) (a b : list R) : Prop :=
  exists msg, k a b = Throws msg.

(** ** Gaussian sampler *)

(** The two variables of the module that memorize the second number of a
    polar draw.  They are declared at the top level of the module, outside
    class [TSNE]: one store shared by all engines. *)
Record Globals := { return_v : bool; v_val : R }.

(** State of the module when it is loaded. *)
Definition module_init : Globals := {| return_v := false; v_val := 0 |}.

(** A generator [rng: () => number]: the sequence of numbers it will
    return and the number of calls made so far. *)
Record RNG := { draws : nat -> R; calls : nat }.

Definition rng_call (rng : RNG) : R * RNG :=
  (draws rng (calls rng), {| draws := draws rng; calls := S (calls rng) |}).

(** [gaussRandom] calls itself after a rejected draw; [stack] bounds the
    depth of these calls, as the call stack does. *)
Fixpoint gaussRandom (stack : nat) (g : Globals) (rng : RNG)
  : outcome (R * Globals * RNG) :=
  if return_v g then
    Returns (v_val g, {| return_v := false; v_val := v_val g |}, rng)
  else
    match stack with
    | O => Throws "Maximum call stack size exceeded"
    | S stack' =>
        let '(x, rng) := rng_call rng in
        let u := 2 * x - 1 in
        let '(y, rng) := rng_call rng in
        let v := 2 * y - 1 in
        let r := u * u + v * v in
        if decide (r = 0 \/ r > 1) then gaussRandom stack' g rng
        else
          let c := sqrt (-2 * ln r / r) in
          Returns (u * c, {| return_v := true; v_val := v * c |}, rng)
    end.

(** Random normal number. *)
Definition randn (stack : nat) (g : Globals) (rng : RNG) (mu std : R)
  : outcome (R * Globals * RNG) :=
  '(x, g, rng) ← gaussRandom stack g rng;
  Returns (mu + x * std, g, rng).

(** Contiguous vector of zeros of size [n]. *)
Definition zeros (n : nat) : list R := replicate n 0.

(** Matrix filled with random numbers drawn from the generator. *)
Definition randnMatrix (stack : nat) (g : Globals) (n d : nat) (rng : RNG)
  : outcome (list R * Globals * RNG) :=
  let nd := (n * d)%nat in
  let x := zeros nd in
  forM nd (fun i '(x, g, rng) =>
             '(v, g, rng) ← randn stack g rng 0 (1 / 10000);
             Returns (<[i := v]> x, g, rng))
       (x, g, rng).

(** Matrix filled with the provided value. *)
Definition arrayofs (n d : nat) (val : R) : list (list R) :=
  for_ n (fun _ x => x ++ [if decide (d = 3%nat) then [val; val; val]
                           else [val; val]]) [].

(** ** Perplexity calibrator *)

Record Neighbor := { index : nat; dist : R }.

#[global] Instance Neighbor_inhabited : Inhabited Neighbor :=
  populate {| index := 0; dist := 0 |}.

(** [a[k] = v] on an ordinary array: a write past the end extends it. *)
Definition js_write (a : list R) (k : nat) (v : R) : list R :=
  if decide (k < length a)%nat then <[k := v]> a
  else a ++ replicate (k - length a) 0 ++ [v].

(** One entry of the kernel row, as computed in a trial of row [i]. *)
Definition rawProb (i : nat) (beta : R) (neighbor : Neighbor) : R :=
  let pij := if decide (i = index neighbor) then 0
             else exp (- dist neighbor * beta) in
  Rmax pij MIN_POSSIBLE_PROB.

(** First loop of a trial: kernel row with precision [beta] and its sum. *)
Definition kernelRow (i : nat) (beta : R) (neighbors : list Neighbor)
    (pRow : list R) : list R * R :=
  for_ (length neighbors)
    (fun k '(pRow, psum) =>
       let neighbor := neighbors !!! k in
       let pij := rawProb i beta neighbor in
       (js_write pRow k pij, psum + pij))
    (pRow, 0).

(** Second loop of a trial: normalize the row and compute its entropy. *)
Definition entropyRow (pRow : list R) (psum : R) : list R * R :=
  for_ (length pRow)
    (fun k '(pRow, Hhere) =>
       let pRow := <[k := pRow !!! k / psum]> pRow in
       let pij := pRow !!! k in
       (pRow, if decide (pij > 1 / 10000000) then Hhere - pij * ln pij
              else Hhere))
    (pRow, 0).

(** The binary search over the precision.  [rem] is [maxTries - numTries];
    an infinite bound is [None]. *)
Fixpoint searchBeta (rem : nat) (i : nat) (neighbors : list Neighbor)
    (Htarget tol beta : R) (betaMin betaMax : option R) (pRow : list R)
  : list R :=
  match rem with
  | O => pRow
  | S rem' =>
      let '(pRow, psum) := kernelRow i beta neighbors pRow in
      let '(pRow, Hhere) := entropyRow pRow psum in
      let '(beta', betaMin', betaMax') :=
        if decide (Hhere > Htarget) then
          (match betaMax with
           | None => beta * 2
           | Some bmax => (beta + bmax) / 2
           end, Some beta, betaMax)
        else
          (match betaMin with
           | None => beta / 2
           | Some bmin => (beta + bmin) / 2
           end, betaMin, Some beta) in
      if decide (rem' = 0%nat \/ Rabs (Hhere - Htarget) < tol) then pRow
      else searchBeta rem' i neighbors Htarget tol beta' betaMin' betaMax' pRow
  end.

(** Copy of the final row into [P] at row [i]; [neighbors[k].index] throws
    when the row has no [k]-th neighbour. *)
Definition copyRow (N i : nat) (neighbors : list Neighbor) (pRow P : list R)
  : outcome (list R) :=
  forM (length pRow)
    (fun k P =>
       let pij := pRow !!! k in
       match neighbors !! k with
       | None => Throws "TypeError: cannot read properties of undefined"
       | Some neighbor => Returns (<[(i * N + index neighbor)%nat := pij]> P)
       end)
    P.

(** The loop over the examples: the matrix before symmetrization.  [pRow]
    is one array for all the rows, created with [K] empty slots.  A trial
    writes the slots of the neighbours of the row before it reads them;
    when a row has fewer neighbours than [pRow] has slots the slots left
    over (empty, or written for an earlier row) are read, and [copyRow]
    then throws, so that what they hold (here 0 for an empty slot) never
    reaches a matrix that is returned. *)
Definition calibrateRows (nearest : list (list Neighbor)) (Htarget tol : R)
    (K : nat) : outcome (list R * list R) :=
  let N := length nearest in
  forM N (fun i '(P, pRow) =>
            let neighbors := nearest !!! i in
            let pRow := searchBeta 50 i neighbors Htarget tol 1 None None pRow in
            P ← copyRow N i neighbors pRow P;
            Returns (P, pRow))
       (zeros (N * N), replicate K 0).

(** [for (let j = lo; j < hi; ++j) body]. *)
Definition for_range {S : Type} (lo hi : nat) (body : nat -> S -> S) (s : S)
  : S :=
  foldl (fun s j => body j s) s (seq lo (hi - lo)).

(** Symmetrize [P] and normalize it to sum to 1 over all [ij]. *)
Definition symmetrize (N : nat) (P : list R) : list R :=
  let N2 := (N * 2)%nat in
  for_ N (fun i =>
    for_range (i + 1) N (fun j P =>
      let i_j := (i * N + j)%nat in
      let j_i := (j * N + i)%nat in
      let value := (P !!! i_j + P !!! j_i) / INR N2 in
      <[j_i := value]> (<[i_j := value]> P))) P.

(** Computes (p_{i|j} + p_{j|i})/(2n). *)
Definition nearest2P (nearest : list (list Neighbor)) (perplexity tol : R)
  : outcome (list R) :=
  let N := length nearest in
  let Htarget := ln perplexity in
  match nearest !! 0%nat with
  | None => Throws "TypeError: cannot read properties of undefined"
  | Some row0 =>
      let K := length row0 in
      '(P, _) ← calibrateRows nearest Htarget tol K;
      Returns (symmetrize N P)
  end.

(** ** Helpers of the optimizer *)

Definition sign (x : R) : Z :=
  if decide (x > 0) then 1%Z else if decide (x < 0) then (-1)%Z else 0%Z.

(** The force kernels, for a force and points that have the 2 (3)
    coordinates they read: a missing coordinate is [undefined] in the
    source and makes the force NaN. *)
Definition computeForce_2d (force : list R) (mult : R) (pointA pointB : list R)
  : list R :=
  let force := add_at force 0 (mult * (pointA !!! 0%nat - pointB !!! 0%nat)) in
  add_at force 1 (mult * (pointA !!! 1%nat - pointB !!! 1%nat)).

Definition computeForce_3d (force : list R) (mult : R) (pointA pointB : list R)
  : list R :=
  let force := add_at force 0 (mult * (pointA !!! 0%nat - pointB !!! 0%nat)) in
  let force := add_at force 1 (mult * (pointA !!! 1%nat - pointB !!! 1%nat)) in
  add_at force 2 (mult * (pointA !!! 2%nat - pointB !!! 2%nat)).

(** ** Space-partitioning tree *)

(** A node of the tree with the fields the engine adds to it
    ([AugmSPNode = SPNode & {numCells, yCell, rCell}]).  [children] is
    [None] for a leaf ([children == null]) and otherwise an array of
    slots, each a child or null.  [low] and [high] are the corners of the
    node's cell, which the tree hands to a visitor.  Before annotation the
    three added fields hold no information (they are never read then). *)
#[warnings="-register-all"]
Inductive AugmSPNode : Type :=
  mkNode (point : list R) (low high : list R)
         (children : option (list (option AugmSPNode)))
         (numCells : nat) (yCell : list R) (rCell : R).

Definition point (n : AugmSPNode) : list R :=
  match n with mkNode p _ _ _ _ _ _ => p end.
Definition low (n : AugmSPNode) : list R :=
  match n with mkNode _ l _ _ _ _ _ => l end.
Definition high (n : AugmSPNode) : list R :=
  match n with mkNode _ _ h _ _ _ _ => h end.
Definition children (n : AugmSPNode) : option (list (option AugmSPNode)) :=
  match n with mkNode _ _ _ c _ _ _ => c end.
Definition numCells (n : AugmSPNode) : nat :=
  match n with mkNode _ _ _ _ m _ _ => m end.
Definition yCell (n : AugmSPNode) : list R :=
  match n with mkNode _ _ _ _ _ y _ => y end.
Definition rCell (n : AugmSPNode) : R :=
  match n with mkNode _ _ _ _ _ _ r => r end.

(** [node.children == null] *)
Definition is_leaf (n : AugmSPNode) : bool :=
  match children n with None => true | Some _ => false end.

(** The non-null children of a node. *)
Definition kids (n : AugmSPNode) : list AugmSPNode :=
  match children n with
  | None => []
  | Some cs => omap (fun c => c) cs
  end.

(** A loop over the slots of a node that skips the null ones
    ([if (child == null) continue]). *)
Definition overChildren {A S : Type} (f : A -> S -> S)
  : list (option A) -> S -> S :=
  fix loop (cs : list (option A)) (s : S) : S :=
    match cs with
    | [] => s
    | None :: cs' => loop cs' s
    | Some c :: cs' => loop cs' (f c s)
    end.

(** Number of nodes of a tree. *)
Fixpoint nodes (n : AugmSPNode) : nat :=
  match n with
  | mkNode _ _ _ cs _ _ _ =>
      match cs with
      | None => 1%nat
      | Some cs => S (overChildren (fun c k => (k + nodes c)%nat) cs 0%nat)
      end
  end.

(** [for (d < dim) a[d] += b[d]] *)
Definition vadd (dim : nat) (a b : list R) : list R :=
  for_ dim (fun d a => add_at a d (b !!! d)) a.

(** The loop of [annotateTree] over the slots of a node: it annotates
    the non-null children in place and accumulates their counts and
    coordinate sums. *)
Definition annotateChildren
    (annotate : AugmSPNode -> AugmSPNode * (nat * list R)) (dim : nat)
  : list (option AugmSPNode) -> nat -> list R ->
    list (option AugmSPNode) * nat * list R :=
  fix loop (cs : list (option AugmSPNode)) (numCells : nat) (yCell : list R) :=
    match cs with
    | [] => ([], numCells, yCell)
    | None :: cs' =>
        let '(cs', numCells, yCell) := loop cs' numCells yCell in
        (None :: cs', numCells, yCell)
    | Some child :: cs' =>
        let '(child, result) := annotate child in
        let numCells := (numCells + fst result)%nat in
        let yCell := vadd dim yCell (snd result) in
        let '(cs', numCells, yCell) := loop cs' numCells yCell in
        (Some child :: cs', numCells, yCell)
    end.

(** Bottom-up annotation: stores [numCells] and [yCell] in every node and
    returns what the node tells its parent, the count and the running
    (not yet divided) coordinate sum. *)
Fixpoint annotateTree (dim : nat) (node : AugmSPNode)
  : AugmSPNode * (nat * list R) :=
  match node with
  | mkNode pt lo hi cs _ _ r =>
      let numCells := 1%nat in
      match cs with
      | None =>
          (* Update the current node and tell the parent. *)
          (mkNode pt lo hi None numCells pt r, (numCells, pt))
      | Some cs =>
          (* node.point is a 2 or 3-dim number[], so slice() makes a copy. *)
          let yCell := pt in
          let '(cs, numCells, yCell) :=
            annotateChildren (annotateTree dim) dim cs numCells yCell in
          (* Update the node and tell the parent. *)
          (mkNode pt lo hi (Some cs) numCells
                  (map (fun v => v / INR numCells) yCell) r,
           (numCells, yCell))
      end
  end.

(** Modelled from the spec: the second annotation pass is a visit of the
    whole tree (absent [SPTree.visit], with the cell corners) whose visitor
    records [rCell = high[0] - low[0]] in each node and never accepts. *)
Fixpoint annotateExtent (node : AugmSPNode) : AugmSPNode :=
  match node with
  | mkNode pt lo hi cs m y _ =>
      mkNode pt lo hi
        (match cs with
         | None => None
         | Some cs =>
             Some (map (fun c => match c with
                                 | None => None
                                 | Some c => Some (annotateExtent c)
                                 end) cs)
         end)
        m y (hi !!! 0%nat - lo !!! 0%nat)
  end.

(** Modelled from the spec: the depth-first visitor of the absent
    [SPTree.visit].  The accessor inspects a node; when it returns [true]
    (accept) the traversal does not descend into the node's children,
    otherwise it visits the non-null children in slot order. *)
Fixpoint visit {S : Type} (accessor : AugmSPNode -> S -> S * bool)
    (node : AugmSPNode) (s : S) : S :=
  let '(s, skipChildren) := accessor node s in
  match node with
  | mkNode _ _ _ cs _ _ _ =>
      match cs with
      | None => s
      | Some cs =>
          if skipChildren then s
          else overChildren (visit accessor) cs s
      end
  end.

#[global] Instance AugmSPNode_inhabited : Inhabited AugmSPNode :=
  populate (mkNode [] [] [] None 0 [] 0).

(** ** The engine *)

Record TSNEOptions := {
  opt_dim : nat;                   (* How many dimensions. *)
  opt_perplexity : option R;       (* Roughly how many neighbors each point influences. *)
  opt_epsilon : option R;          (* Learning rate. *)
  opt_rng : option RNG             (* A random number generator. *)
}.

(** [x || dflt] on an optional number: [undefined] and [0] are falsy. *)
Definition or_default (x : option R) (dflt : R) : R :=
  match x with
  | Some v => if decide (v = 0) then dflt else v
  | None => dflt
  end.

Module TSNE.

Record t := mk {
  perplexity : R;
  epsilon : R;
  rng : RNG;                       (* Random generator *)
  iter : nat;
  Y : list R;
  N : nat;
  P : list R;
  gains : list (list R);
  ystep : list (list R);
  nearest : list (list Neighbor);
  dim : nat;
  dist2 : list R -> list R -> R;
  computeForce : list R -> R -> list R -> list R -> list R
}.

Section Engine.

(** [new SPTree(points).root]: the tree built over the current points.
    The construction is not part of the engine module. *)
Variable SPTree_root : list (list R) -> AugmSPNode.

(** [Math.random], the generator of the platform. *)
Variable Math_random : RNG.

(** The fields that are not assigned by the constructor are empty
    until [initDataDist] sets them. *)
Definition constructor (opt : option TSNEOptions) : outcome t :=
  let opt := match opt with
             | Some o => o
             | None => {| opt_dim := 2; opt_perplexity := None;
                          opt_epsilon := None; opt_rng := None |}
             end in
  let e d2 cf :=
    {| perplexity := or_default (opt_perplexity opt) 30;
       epsilon := or_default (opt_epsilon opt) 10;
       rng := match opt_rng opt with Some r => r | None => Math_random end;
       iter := 0; Y := []; N := 0; P := []; gains := []; ystep := [];
       nearest := []; dim := opt_dim opt;
       dist2 := d2; computeForce := cf |} in
  if decide (opt_dim opt = 2%nat) then
    Returns (e dist2_2D computeForce_2d)
  else if decide (opt_dim opt = 3%nat) then
    Returns (e dist2_3D computeForce_3d)
  else Throws "Only 2D and 3D is supported".

(** (Re)initializes the solution to random. *)
Definition initSolution (stack : nat) (g : Globals) (e : t)
  : outcome (Globals * t) :=
  '(y, g, r) ← randnMatrix stack g (N e) (dim e) (rng e);
  Returns (g, {| perplexity := perplexity e; epsilon := epsilon e;
                 rng := r; iter := 0; Y := y; N := N e; P := P e;
                 gains := arrayofs (N e) (dim e) 1;
                 ystep := arrayofs (N e) (dim e) 0;
                 nearest := nearest e; dim := dim e;
                 dist2 := dist2 e; computeForce := computeForce e |}).

(** Creates matrix [P] from the neighbour table and draws a solution. *)
Definition initDataDist (stack : nat) (g : Globals) (e : t)
    (knn : list (list Neighbor)) : outcome (Globals * t) :=
  let n := length knn in
  p ← nearest2P knn (perplexity e) (1 / 10000);
  initSolution stack g
    {| perplexity := perplexity e; epsilon := epsilon e; rng := rng e;
       iter := iter e; Y := Y e; N := n; P := p;
       gains := gains e; ystep := ystep e; nearest := knn; dim := dim e;
       dist2 := dist2 e; computeForce := computeForce e |}.

(** Pointer to the current solution. *)
Definition getSolution (e : t) : list R := Y e.

(** [this.dim === 3 ? [0, 0, 0] : [0, 0]] *)
Definition zeroVector (e : t) : list R :=
  if decide (dim e = 3%nat) then [0; 0; 0] else [0; 0].

(** Trick that helps with local optima: [this.iter < 100 ? 4 : 1]. *)
Definition alpha (e : t) : R := if decide (iter e < 100)%nat then 4 else 1.

(** Momentum of the step direction: [this.iter < 250 ? 0.5 : 0.8]. *)
Definition momval (e : t) : R :=
  if decide (iter e < 250)%nat then 5 / 10 else 8 / 10.

(** The rows of [Y] as points, the data for the tree. *)
Definition pointsOf (e : t) (Y : list R) : list (list R) :=
  for_ (N e) (fun i points =>
    let iTimesD := (i * dim e)%nat in
    points ++ [for_ (dim e) (fun d row => row ++ [Y !!! (iTimesD + d)%nat]) []])
    [].

(** Positive forces for the [i]-th node.  [points[j]] is a point of the
    engine when the neighbour index [j] is below [N]; for an index outside
    the table the source hands [undefined] to the kernel, which throws a
    type error, so the function stands for the source on tables in range
    only ([tableInRange] below). *)
Definition attract (e : t) (points : list (list R)) (i : nat) : list R :=
  let pointI := points !!! i in
  let neighbors := nearest e !!! i in
  for_ (length neighbors) (fun k Fpos =>
    let j := index (neighbors !!! k) in
    let pij := P e !!! (i * N e + j)%nat in
    let pointJ := points !!! j in
    let squaredDistItoJ := dist2 e pointI pointJ in
    let premult := pij / (1 + squaredDistItoJ) in
    computeForce e Fpos premult pointI pointJ) (zeroVector e).

(** The visitor of the negative forces for the point [pointI]; its state
    is the pair of the normalizer [Z] and the force [FnegZ]. *)
Definition repulse (e : t) (pointI : list R) (node : AugmSPNode)
    (s : R * list R) : (R * list R) * bool :=
  let '(Z, FnegZ) := s in
  let squaredDistToCell := dist2 e pointI (yCell node) in
  (* Squared distance from point i to cell. *)
  if is_leaf node ||
     (bool_decide (squaredDistToCell > 0) &&
      bool_decide (rCell node / sqrt squaredDistToCell < THETA)) then
    let qijZ := 1 / (1 + squaredDistToCell) in
    let dZ := INR (numCells node) * qijZ in
    let Z := Z + dZ in
    let dZ := dZ * qijZ in
    ((Z, computeForce e FnegZ dZ pointI (yCell node)), true)
  else
    (* Cell is too close to approximate. *)
    let squaredDistToPoint := dist2 e pointI (point node) in
    let qijZ := 1 / (1 + squaredDistToPoint) in
    let Z := Z + qijZ in
    let qijZ := qijZ * qijZ in
    ((Z, computeForce e FnegZ qijZ pointI (point node)), false).

(** The annotated tree over the current points. *)
Definition treeOf (e : t) (points : list (list R)) : AugmSPNode :=
  let root := SPTree_root points in
  let root := fst (annotateTree (dim e) root) in
  annotateExtent root.

(** Normalizer and forces of all points: the loop over [i]. *)
Definition forcesOf (e : t) (points : list (list R)) (root : AugmSPNode)
  : R * list (list R * list R) :=
  for_ (N e) (fun i '(Z, forces) =>
    let pointI := points !!! i in
    let Fpos := attract e points i in
    let '(Z, FnegZ) := visit (repulse e pointI) root (Z, zeroVector e) in
    (Z, forces ++ [(Fpos, FnegZ)])) (0, []).

(** Cost gradient, given an arrangement. *)
Definition costGrad (e : t) (Y : list R) : list (list R) :=
  let points := pointsOf e Y in
  let root := treeOf e points in
  let '(Z, forces) := forcesOf e points root in
  (* Normalize the negative forces and compute the gradient. *)
  let A := 4 * alpha e in
  let B := 4 / Z in
  for_ (N e) (fun i grad =>
    let '(FPos, FNegZ) := forces !!! i in
    grad ++ [for_ (dim e) (fun d gsum =>
               gsum ++ [A * FPos !!! d - B * FNegZ !!! d]) []]) [].

(** Gain update of one coordinate, with its clamp. *)
Definition newgain (gid sid gainid : R) : R :=
  let newgain := if decide (sign gid = sign sid) then gainid * (8 / 10)
                 else gainid + 2 / 10 in
  if decide (newgain < 1 / 100) then 1 / 100 else newgain.

(** [this.iter += 1] *)
Definition tick (e : t) : t :=
  {| perplexity := perplexity e; epsilon := epsilon e; rng := rng e;
     iter := iter e + 1; Y := Y e; N := N e; P := P e; gains := gains e;
     ystep := ystep e; nearest := nearest e; dim := dim e;
     dist2 := dist2 e; computeForce := computeForce e |}.

(** State of the gradient step: gains, step memory, solution, mean. *)
Definition descent : Type :=
  list (list R) * list (list R) * list R * list R.

(** Body of the gradient step for coordinate [d] of point [i].  The sums
    are exact here; [Doubles.stepCoord] is the same body with rounding. *)
Definition stepCoord (e : t) (grad : list (list R)) (i d : nat)
    (s : descent) : descent :=
  let '(gains, ystep, Y, ymean) := s in
  let gid := (grad !!! i) !!! d in
  let sid := (ystep !!! i) !!! d in
  let gainid := (gains !!! i) !!! d in
  (* compute gain update *)
  let newgain := newgain gid sid gainid in
  let gains := set_at gains i d newgain in
  (* compute momentum step direction *)
  let momval := momval e in
  let newsid := momval * sid - epsilon e * newgain * ((grad !!! i) !!! d) in
  let ystep := set_at ystep i d newsid in
  (* step! *)
  let i_d := (i * dim e + d)%nat in
  let Y := add_at Y i_d newsid in
  let ymean := add_at ymean d (Y !!! i_d) in
  (gains, ystep, Y, ymean).

(** Reprojection of [Y] to zero mean (exact here; [Doubles.center] is
    the same loop with rounding). *)
Definition center (e : t) (ymean Y : list R) : list R :=
  for_ (N e) (fun i =>
    for_ (dim e) (fun d Y =>
      let i_d := (i * dim e + d)%nat in
      <[i_d := Y !!! i_d - ymean !!! d / INR (N e)]> Y)) Y.

(** A single step of optimization. *)
Definition step (e : t) : t :=
  let e := tick e in
  let grad := costGrad e (Y e) in      (* evaluate gradient *)
  (* perform gradient step *)
  let ymean := zeroVector e in
  let '(gains', ystep', Y', ymean) :=
    for_ (N e) (fun i => for_ (dim e) (fun d => stepCoord e grad i d))
         (gains e, ystep e, Y e, ymean) in
  (* reproject Y to be zero mean *)
  let Y' := center e ymean Y' in
  {| perplexity := perplexity e; epsilon := epsilon e; rng := rng e;
     iter := iter e; Y := Y'; N := N e; P := P e; gains := gains';
     ystep := ystep'; nearest := nearest e; dim := dim e;
     dist2 := dist2 e; computeForce := computeForce e |}.

(** [k] steps in a row. *)
Fixpoint steps (k : nat) (e : t) : t :=
  match k with
  | O => e
  | S k' => steps k' (step e)
  end.

End Engine.

End TSNE.

(** ** Vocabulary of the statements *)

(** Shape of an array of [n] rows of [d] numbers. *)
Definition shaped (n d : nat) (m : list (list R)) : Prop :=
  length m = n /\ forall i, (i < n)%nat -> length (m !!! i) = d.

(** An engine whose solution arrays have the shape [initDataDist] gives
    them: [N] points in 2 or 3 dimensions. *)
Definition initialized (e : TSNE.t) : Prop :=
  (TSNE.dim e = 2%nat \/ TSNE.dim e = 3%nat) /\
  length (TSNE.Y e) = (TSNE.N e * TSNE.dim e)%nat /\
  shaped (TSNE.N e) (TSNE.dim e) (TSNE.gains e) /\
  shaped (TSNE.N e) (TSNE.dim e) (TSNE.ystep e).

(** Mean of column [d] of the row-major matrix [Y] with [n] rows. *)
Definition columnMean (n dim : nat) (Y : list R) (d : nat) : R :=
  sumn n (fun i => Y !!! (i * dim + d)%nat) / INR n.

(** Values of one coordinate after the gradient step that starts from the
    gains [G], the step memory [S] and the solution [Y]. *)
Definition gainAfter (grad G S : list (list R)) (i d : nat) : R :=
  TSNE.newgain ((grad !!! i) !!! d) ((S !!! i) !!! d) ((G !!! i) !!! d).

Definition stepAfter (e : TSNE.t) (grad G S : list (list R)) (i d : nat) : R :=
  TSNE.momval e * ((S !!! i) !!! d)
  - TSNE.epsilon e * gainAfter grad G S i d * ((grad !!! i) !!! d).

Definition solutionAfter (e : TSNE.t) (grad G S : list (list R)) (Y : list R)
    (i d : nat) : R :=
  Y !!! (i * TSNE.dim e + d)%nat + stepAfter e grad G S i d.

(** Coordinate [(i', d')] has been handled when the loops stand at
    [(i, d)]. *)
Definition reached (i d i' d' : nat) : Prop :=
  (i' < i)%nat \/ (i' = i /\ (d' < d)%nat).

(** Invariant of the two loops of the gradient step. *)
Definition descentInv (e : TSNE.t) (grad G0 S0 : list (list R))
    (Y0 M0 : list R) (i d : nat) (s : TSNE.descent) : Prop :=
  let '(G, St, Y, M) := s in
  let n := TSNE.N e in
  let dim := TSNE.dim e in
  shaped n dim G /\ shaped n dim St /\
  length Y = (n * dim)%nat /\ length M = dim /\
  (forall i' d', (i' < n)%nat -> (d' < dim)%nat ->
     (G !!! i') !!! d' =
       (if decide (reached i d i' d') then gainAfter grad G0 S0 i' d'
        else (G0 !!! i') !!! d') /\
     (St !!! i') !!! d' =
       (if decide (reached i d i' d') then stepAfter e grad G0 S0 i' d'
        else (S0 !!! i') !!! d') /\
     Y !!! (i' * dim + d')%nat =
       (if decide (reached i d i' d') then solutionAfter e grad G0 S0 Y0 i' d'
        else Y0 !!! (i' * dim + d')%nat)) /\
  (forall d', (d' < dim)%nat ->
     M !!! d' = M0 !!! d'
                + sumn i (fun i' => solutionAfter e grad G0 S0 Y0 i' d')
                + (if decide (d' < d)%nat
                   then solutionAfter e grad G0 S0 Y0 i d' else 0)).

(** Invariant of the two loops of the reprojection. *)
Definition centerInv (e : TSNE.t) (ymean Y0 : list R) (i d : nat)
    (Y : list R) : Prop :=
  let n := TSNE.N e in
  let dim := TSNE.dim e in
  length Y = (n * dim)%nat /\
  forall i' d', (i' < n)%nat -> (d' < dim)%nat ->
    Y !!! (i' * dim + d')%nat =
      if decide (reached i d i' d')
      then Y0 !!! (i' * dim + d')%nat - ymean !!! d' / INR n
      else Y0 !!! (i' * dim + d')%nat.

(** The schedule as it would be if the momentum and the exaggeration of a
    step were chosen from the value of the counter before the step. *)
Definition scheduleByPreStepCounter (e : TSNE.t) : Prop :=
  TSNE.momval (TSNE.tick e)
    = (if decide (TSNE.iter e < 250)%nat then 5 / 10 else 8 / 10) /\
  TSNE.alpha (TSNE.tick e)
    = (if decide (TSNE.iter e < 100)%nat then 4 else 1).

(** Every kernel makes the length check. *)
Definition checksLengths (k : kernel) : Prop :=
  forall a b, length a ≠ length b -> fails k a b.

(** ** Sample inputs *)

(** A tree builder that makes a single leaf of the first point. *)
Definition leafTree (points : list (list R)) : AugmSPNode :=
  mkNode (points !!! 0%nat) [] [] None 0 [] 0.

(** A generator that always returns 0. *)
Definition zeroRng : RNG := {| draws := fun _ => 0; calls := 0 |}.

(** A one-point engine in two dimensions whose counter stands at [t]. *)
Definition engineAt (t : nat) : TSNE.t :=
  {| TSNE.perplexity := 30; TSNE.epsilon := 10; TSNE.rng := zeroRng;
     TSNE.iter := t; TSNE.Y := [0; 0]; TSNE.N := 1; TSNE.P := [0];
     TSNE.gains := [[1; 1]]; TSNE.ystep := [[0; 0]];
     TSNE.nearest := [[]]; TSNE.dim := 2;
     TSNE.dist2 := dist2_2D; TSNE.computeForce := computeForce_2d |}.

(** A property of every node of a tree. *)
Fixpoint everyNode (Q : AugmSPNode -> Prop) (n : AugmSPNode) : Prop :=
  Q n /\
  match n with
  | mkNode _ _ _ cs _ _ _ =>
      match cs with
      | None => True
      | Some cs => overChildren (fun c rest => everyNode Q c /\ rest) cs True
      end
  end.

(** Sum of [numCells] over the non-null children of a node. *)
Definition childCells (n : AugmSPNode) : nat :=
  foldr (fun c acc => (numCells c + acc)%nat) 0%nat (kids n).

(** What the annotation pass stores in a node: a leaf counts 1 and has its
    point as centroid; a node with children counts itself and its
    children. *)
Definition annotated (n : AugmSPNode) : Prop :=
  if is_leaf n then numCells n = 1%nat /\ yCell n = point n
  else numCells n = (1 + childCells n)%nat.

(** The annotation in which a node with children counts its children
    only. *)
Definition annotatedChildrenOnly (n : AugmSPNode) : Prop :=
  if is_leaf n then numCells n = 1%nat /\ yCell n = point n
  else numCells n = childCells n.

(** A tree of two points: a root that keeps the first point and has the
    second one as its only child, in the second of four slots. *)
Definition twoPointTree : AugmSPNode :=
  mkNode [0; 0] [0; 0] [1; 1]
    (Some [None; Some (mkNode [1; 1] [1 / 2; 1 / 2] [1; 1] None 0 [] 0);
           None; None])
    0 [] 0.

(** The engine kernels are the ones the constructor binds. *)
Definition bound (e : TSNE.t) : Prop :=
  (TSNE.dim e = 2%nat /\ TSNE.dist2 e = dist2_2D /\
   TSNE.computeForce e = computeForce_2d) \/
  (TSNE.dim e = 3%nat /\ TSNE.dist2 e = dist2_3D /\
   TSNE.computeForce e = computeForce_3d).

(** Squared euclidean distance over the first [dim] coordinates. *)
Definition sqdist (dim : nat) (a b : list R) : R :=
  sumn dim (fun d => (a !!! d - b !!! d) * (a !!! d - b !!! d)).

(** Sum of the kernel row of row [i] with precision [beta]. *)
Definition rowSum (i : nat) (beta : R) (neighbors : list Neighbor) : R :=
  sumn (length neighbors) (fun k => rawProb i beta (neighbors !!! k)).

(** [pRow] is the kernel row of row [i] for some precision, divided by its
    sum. *)
Definition normalizedRow (i : nat) (neighbors : list Neighbor)
    (pRow : list R) : Prop :=
  length pRow = length neighbors /\
  exists beta, forall k, (k < length neighbors)%nat ->
    pRow !!! k = rawProb i beta (neighbors !!! k) / rowSum i beta neighbors.

(** The unordered pair [{a, b}] has been symmetrized when the loops of
    [symmetrize] stand at [(i, j)]. *)
Definition symTouched (i j a b : nat) : Prop :=
  (Nat.min a b < Nat.max a b)%nat /\ reached i j (Nat.min a b) (Nat.max a b).

(** Invariant of the two loops of [symmetrize]. *)
Definition symInv (N : nat) (P0 : list R) (i j : nat) (P : list R) : Prop :=
  length P = length P0 /\
  forall a b, (a < N)%nat -> (b < N)%nat ->
    P !!! (a * N + b)%nat =
      if decide (symTouched i j a b)
      then (P0 !!! (Nat.min a b * N + Nat.max a b)%nat
            + P0 !!! (Nat.max a b * N + Nat.min a b)%nat) / INR (N * 2)
      else P0 !!! (a * N + b)%nat.

(** The conditions of a valid neighbour table: at least one row, the same
    number [K >= 1] of neighbours in every row, every index below [N]. *)
Definition validKnn (nearest : list (list Neighbor)) (K : nat) : Prop :=
  let N := length nearest in
  (1 <= N)%nat /\ (1 <= K)%nat /\
  forall i, (i < N)%nat ->
    length (nearest !!! i) = K /\
    forall k, (k < K)%nat -> (index ((nearest !!! i) !!! k) < N)%nat.

(** No row lists its own point and no row lists a point twice. *)
Definition properKnn (nearest : list (list Neighbor)) (K : nat) : Prop :=
  forall i, (i < length nearest)%nat ->
    (forall k, (k < K)%nat -> index ((nearest !!! i) !!! k) ≠ i) /\
    (forall k k', (k < K)%nat -> (k' < K)%nat ->
       index ((nearest !!! i) !!! k) = index ((nearest !!! i) !!! k') -> k = k').

(** Sum of all the entries of an [N] x [N] matrix. *)
Definition totalMass (N : nat) (P : list R) : R :=
  sumn N (fun i => sumn N (fun j => P !!! (i * N + j)%nat)).

(** Invariant of the copy of a row into [P]. *)
Definition copyInv (N i : nat) (neighbors : list Neighbor) (pRow P0 : list R)
    (k : nat) (P : list R) : Prop :=
  length P = length P0 /\
  (forall a b, (a < N)%nat -> (b < N)%nat -> a ≠ i ->
     P !!! (a * N + b)%nat = P0 !!! (a * N + b)%nat) /\
  (forall b, (b < N)%nat ->
     (forall k', (k' < k)%nat -> index (neighbors !!! k') ≠ b) ->
     P !!! (i * N + b)%nat = P0 !!! (i * N + b)%nat) /\
  sumn N (fun b => P !!! (i * N + b)%nat)
  = sumn N (fun b => P0 !!! (i * N + b)%nat) + sumn k (fun k' => pRow !!! k').

(** Invariant of the loop over the rows of the table. *)
Definition rowsInv (N K : nat) (i : nat) (s : list R * list R) : Prop :=
  let '(P, pRow) := s in
  length P = (N * N)%nat /\ length pRow = K /\
  forall a, (a < N)%nat ->
    if decide (a < i)%nat
    then sumn N (fun b => P !!! (a * N + b)%nat) = 1 /\
         P !!! (a * N + a)%nat = 0
    else forall b, (b < N)%nat -> P !!! (a * N + b)%nat = 0.

(** A table in which each of two points lists the other one twice. *)
Definition twiceListed : list (list Neighbor) :=
  [[{| index := 1; dist := 0 |}; {| index := 1; dist := 0 |}];
   [{| index := 0; dist := 0 |}; {| index := 0; dist := 0 |}]].

(** A table of one point whose only neighbour is the point itself. *)
Definition selfListed : list (list Neighbor) :=
  [[{| index := 0; dist := 0 |}]].

(** A table of two points, each the only neighbour of the other. *)
Definition mutualKnn : list (list Neighbor) :=
  [[{| index := 1; dist := 1 |}]; [{| index := 0; dist := 1 |}]].

(** The embedding of an engine that is constructed with the options
    [opt], fed the table [knn] while the module variables hold [g], and
    stepped [k] times. *)
Definition embeddingAfter (SP : list (list R) -> AugmSPNode) (MR : RNG)
    (stack k : nat) (g : Globals) (opt : option TSNEOptions)
    (knn : list (list Neighbor)) : outcome (list R) :=
  e ← TSNE.constructor MR opt;
  '(_, e) ← TSNE.initDataDist stack g e knn;
  Returns (TSNE.getSolution (TSNE.steps SP k e)).

(** The module variables after an engine has been constructed and fed. *)
Definition globalsAfter (MR : RNG) (stack : nat) (g : Globals)
    (opt : option TSNEOptions) (knn : list (list Neighbor))
  : outcome Globals :=
  e ← TSNE.constructor MR opt;
  '(g, _) ← TSNE.initDataDist stack g e knn;
  Returns g.

(** A generator that always returns [x]. *)
Definition constRng (x : R) : RNG := {| draws := fun _ => x; calls := 0 |}.

(** Options of the two engines that are compared. *)
Definition twinOptions : option TSNEOptions :=
  Some {| opt_dim := 2; opt_perplexity := None; opt_epsilon := None;
          opt_rng := Some (constRng (1 / 4)) |}.

(** Options of another engine, in three dimensions. *)
Definition otherOptions : option TSNEOptions :=
  Some {| opt_dim := 3; opt_perplexity := None; opt_epsilon := None;
          opt_rng := Some (constRng (3 / 4)) |}.

(** The factor of a polar draw with [u = v = 1/2] or [u = v = -1/2]. *)
Definition polarFactor : R := sqrt (-2 * ln (1 / 2) / (1 / 2)).

(** The module variables after the other engine has drawn its three
    numbers: the second number of its second draw is still cached. *)
Definition leftByOther : Globals :=
  {| return_v := true; v_val := 1 / 2 * polarFactor |}.

(** Two states of the loop of [randnMatrix] that agree on the matrix and
    on the generator, with module variables that are equal or both have
    an empty cache. *)
Definition sameDraws (s1 s2 : list R * Globals * RNG) : Prop :=
  let '(x1, g1, r1) := s1 in
  let '(x2, g2, r2) := s2 in
  x1 = x2 /\ r1 = r2 /\
  (g1 = g2 \/ (return_v g1 = false /\ return_v g2 = false)).

(** Two outcomes that throw the same error or return related values. *)
Definition related {A : Type} (rel : A -> A -> Prop) (o1 o2 : outcome A)
  : Prop :=
  match o1, o2 with
  | Returns a1, Returns a2 => rel a1 a2
  | Throws m1, Throws m2 => m1 = m2
  | _, _ => False
  end.

(** The engine that the constructor returns for [dim] dimensions and the
    generator [rng], with the default perplexity and learning rate. *)
Definition freshEngine (dim : nat) (rng : RNG)
    (d2 : list R -> list R -> R)
    (cf : list R -> R -> list R -> list R -> list R) : TSNE.t :=
  {| TSNE.perplexity := 30; TSNE.epsilon := 10; TSNE.rng := rng;
     TSNE.iter := 0; TSNE.Y := []; TSNE.N := 0; TSNE.P := [];
     TSNE.gains := []; TSNE.ystep := []; TSNE.nearest := [];
     TSNE.dim := dim; TSNE.dist2 := d2; TSNE.computeForce := cf |}.

(** ** Further vocabulary *)

(** The options the constructor works with: [opt || {dim: 2}]. *)
Definition optionsOrDefault (opt : option TSNEOptions) : TSNEOptions :=
  match opt with
  | Some o => o
  | None => {| opt_dim := 2; opt_perplexity := None; opt_epsilon := None;
               opt_rng := None |}
  end.

(** The [k]-th pair of numbers that a generator will return, mapped to
    [-1, 1), and its squared radius. *)
Definition pairU (rng : RNG) (k : nat) : R :=
  2 * draws rng (calls rng + 2 * k)%nat - 1.
Definition pairV (rng : RNG) (k : nat) : R :=
  2 * draws rng (calls rng + 2 * k + 1)%nat - 1.
Definition pairR (rng : RNG) (k : nat) : R :=
  pairU rng k * pairU rng k + pairV rng k * pairV rng k.

(** The polar method rejects the [k]-th pair. *)
Definition rejected (rng : RNG) (k : nat) : Prop :=
  pairR rng k = 0 \/ pairR rng k > 1.

(** The generator after [n] more calls. *)
Definition advance (rng : RNG) (n : nat) : RNG :=
  {| draws := draws rng; calls := (calls rng + n)%nat |}.

(** Row [row] of a neighbour table lists the point [j]. *)
Definition listed (row : list Neighbor) (j : nat) : Prop :=
  exists k, (k < length row)%nat /\ index (row !!! k) = j.

(** Sum of coordinate [d] of the points kept in the nodes of a tree. *)
Fixpoint coordSum (d : nat) (n : AugmSPNode) : R :=
  match n with
  | mkNode pt _ _ cs _ _ _ =>
      match cs with
      | None => pt !!! d
      | Some cs => overChildren (fun c acc => acc + coordSum d c) cs (pt !!! d)
      end
  end.

(** Every node of the tree keeps a point of [dim] coordinates. *)
Definition pointsHave (dim : nat) (n : AugmSPNode) : Prop :=
  everyNode (fun n => length (point n) = dim) n.

(** The centroid stored in a node: coordinate sum over the node count. *)
Definition hasCentroid (dim : nat) (n : AugmSPNode) : Prop :=
  length (yCell n) = dim /\
  forall d, (d < dim)%nat -> yCell n !!! d = coordSum d n / INR (nodes n).

(** Invariant of the copy of a row into [P], for any row: the other rows
    and the entries of points that the row has not listed so far are
    kept. *)
Definition copyKeeps (N i : nat) (neighbors : list Neighbor) (P0 : list R)
    (k : nat) (P : list R) : Prop :=
  length P = length P0 /\
  (forall a b, (a < N)%nat -> (b < N)%nat -> a <> i ->
     P !!! (a * N + b)%nat = P0 !!! (a * N + b)%nat) /\
  (forall b, (b < N)%nat ->
     (forall k', (k' < k)%nat -> (k' < length neighbors)%nat ->
                 index (neighbors !!! k') <> b) ->
     P !!! (i * N + b)%nat = P0 !!! (i * N + b)%nat).

(** Invariant of the loop over the rows for a valid table: entries are
    between 0 and 1, and an entry is 0 when its row has not been handled
    or does not list its column. *)
Definition supportInv (nearest : list (list Neighbor)) (K i : nat)
    (s : list R * list R) : Prop :=
  let '(P, pRow) := s in
  let N := length nearest in
  length P = (N * N)%nat /\ length pRow = K /\
  Forall (fun p => 0 <= p <= 1) P /\
  forall a b, (a < N)%nat -> (b < N)%nat ->
    (i <= a)%nat \/ ~ listed (nearest !!! a) b ->
    P !!! (a * N + b)%nat = 0.

(** A table of three points with two neighbours each. *)
Definition triangleKnn : list (list Neighbor) :=
  [[{| index := 1; dist := 1 |}; {| index := 2; dist := 2 |}];
   [{| index := 0; dist := 1 |}; {| index := 2; dist := 1 |}];
   [{| index := 1; dist := 1 |}; {| index := 0; dist := 2 |}]].

(** A table whose second row is shorter than the first. *)
Definition raggedKnn : list (list Neighbor) :=
  [[{| index := 1; dist := 1 |}; {| index := 1; dist := 2 |}];
   [{| index := 0; dist := 1 |}]].

(** A generator whose first pair is rejected (radius 2) and whose second
    pair is accepted (radius 1/2). *)
Definition secondPairRng : RNG :=
  {| draws := fun n => if decide (n < 2)%nat then 0 else 3 / 4; calls := 0 |}.

(** A two-point engine in two dimensions, each point the neighbour of
    the other. *)
Definition pairEngine : TSNE.t :=
  {| TSNE.perplexity := 30; TSNE.epsilon := 10; TSNE.rng := zeroRng;
     TSNE.iter := 0; TSNE.Y := [1; 0; -1; 0]; TSNE.N := 2;
     TSNE.P := [0; 1 / 2; 1 / 2; 0];
     TSNE.gains := [[1; 1]; [1; 1]]; TSNE.ystep := [[0; 0]; [0; 0]];
     TSNE.nearest := mutualKnn; TSNE.dim := 2;
     TSNE.dist2 := dist2_2D; TSNE.computeForce := computeForce_2d |}.

(** A table of two points whose indices point outside the table. *)
Definition strayKnn : list (list Neighbor) :=
  [[{| index := 7; dist := 1 |}]; [{| index := 2; dist := 1 |}]].

(** The neighbour table and [P] are as [initDataDist] leaves them for a
    table that lists only points of the table: one row for each point,
    every index below [N], and [N * N] entries in [P].  Then [costGrad]
    reads [points[j]] and [P[i * N + j]] inside the arrays. *)
Definition tableInRange (e : TSNE.t) : Prop :=
  length (TSNE.nearest e) = TSNE.N e /\
  length (TSNE.P e) = (TSNE.N e * TSNE.N e)%nat /\
  forall i k, (i < TSNE.N e)%nat ->
    (k < length (TSNE.nearest e !!! i))%nat ->
    (index ((TSNE.nearest e !!! i) !!! k) < TSNE.N e)%nat.

(** A table of three points, each of which lists the two others at the
    same distance. *)
Definition equilateralKnn : list (list Neighbor) :=
  [[{| index := 1; dist := 1 |}; {| index := 2; dist := 1 |}];
   [{| index := 0; dist := 1 |}; {| index := 2; dist := 1 |}];
   [{| index := 0; dist := 1 |}; {| index := 1; dist := 1 |}]].

(** ** The optimizer in double precision *)

Module Doubles.

Import PrimFloat.
Local Open Scope float_scope.

(** A read outside a numeric array is [undefined], which arithmetic
    turns into NaN. *)
#[global] Instance float_inhabited : Inhabited float := populate nan.

(** A counter ([N], [N * 2]) used as a number. *)
Definition ofNat (n : nat) : float := of_uint63 (Uint63.of_Z (Z.of_nat n)).

(** [a[d] += v] *)
Definition add_at (a : list float) (d : nat) (v : float) : list float :=
  <[d := a !!! d + v]> a.

(** [m[i][d] = v] *)
Definition set_at (m : list (list float)) (i d : nat) (v : float)
  : list (list float) :=
  <[i := <[d := v]> (m !!! i)]> m.

(** Barnes-Hut approximation level. *)
#[warnings="-inexact-float"]
Definition THETA : float := 0.8.

Definition dist2_2D (a b : list float) : float :=
  let dX := a !!! 0%nat - b !!! 0%nat in
  let dY := a !!! 1%nat - b !!! 1%nat in
  dX * dX + dY * dY.

Definition dist2_3D (a b : list float) : float :=
  let dX := a !!! 0%nat - b !!! 0%nat in
  let dY := a !!! 1%nat - b !!! 1%nat in
  let dZ := a !!! 2%nat - b !!! 2%nat in
  dX * dX + dY * dY + dZ * dZ.

Definition sign (x : float) : Z :=
  if 0 <? x then 1%Z else if x <? 0 then (-1)%Z else 0%Z.

Definition computeForce_2d (force : list float) (mult : float)
    (pointA pointB : list float) : list float :=
  let force := add_at force 0 (mult * (pointA !!! 0%nat - pointB !!! 0%nat)) in
  add_at force 1 (mult * (pointA !!! 1%nat - pointB !!! 1%nat)).

Definition computeForce_3d (force : list float) (mult : float)
    (pointA pointB : list float) : list float :=
  let force := add_at force 0 (mult * (pointA !!! 0%nat - pointB !!! 0%nat)) in
  let force := add_at force 1 (mult * (pointA !!! 1%nat - pointB !!! 1%nat)) in
  add_at force 2 (mult * (pointA !!! 2%nat - pointB !!! 2%nat)).

(** A node of the tree, as [AugmSPNode] above; the count [numCells] is a
    number like the others. *)
#[warnings="-register-all"]
Inductive AugmSPNode : Type :=
  mkNode (point : list float) (low high : list float)
         (children : option (list (option AugmSPNode)))
         (numCells : float) (yCell : list float) (rCell : float).

Definition point (n : AugmSPNode) : list float :=
  match n with mkNode p _ _ _ _ _ _ => p end.
Definition children (n : AugmSPNode) : option (list (option AugmSPNode)) :=
  match n with mkNode _ _ _ c _ _ _ => c end.
Definition numCells (n : AugmSPNode) : float :=
  match n with mkNode _ _ _ _ m _ _ => m end.
Definition yCell (n : AugmSPNode) : list float :=
  match n with mkNode _ _ _ _ _ y _ => y end.
Definition rCell (n : AugmSPNode) : float :=
  match n with mkNode _ _ _ _ _ _ r => r end.

(** [node.children == null] *)
Definition is_leaf (n : AugmSPNode) : bool :=
  match children n with None => true | Some _ => false end.

(** [for (d < dim) a[d] += b[d]] *)
Definition vadd (dim : nat) (a b : list float) : list float :=
  for_ dim (fun d a => add_at a d (b !!! d)) a.

Definition annotateChildren
    (annotate : AugmSPNode -> AugmSPNode * (float * list float)) (dim : nat)
  : list (option AugmSPNode) -> float -> list float ->
    list (option AugmSPNode) * float * list float :=
  fix loop (cs : list (option AugmSPNode)) (numCells : float)
      (yCell : list float) :=
    match cs with
    | [] => ([], numCells, yCell)
    | None :: cs' =>
        let '(cs', numCells, yCell) := loop cs' numCells yCell in
        (None :: cs', numCells, yCell)
    | Some child :: cs' =>
        let '(child, result) := annotate child in
        let numCells := numCells + fst result in
        let yCell := vadd dim yCell (snd result) in
        let '(cs', numCells, yCell) := loop cs' numCells yCell in
        (Some child :: cs', numCells, yCell)
    end.

Fixpoint annotateTree (dim : nat) (node : AugmSPNode)
  : AugmSPNode * (float * list float) :=
  match node with
  | mkNode pt lo hi cs _ _ r =>
      let numCells := 1 in
      match cs with
      | None =>
          (mkNode pt lo hi None numCells pt r, (numCells, pt))
      | Some cs =>
          let yCell := pt in
          let '(cs, numCells, yCell) :=
            annotateChildren (annotateTree dim) dim cs numCells yCell in
          (mkNode pt lo hi (Some cs) numCells
                  (map (fun v => v / numCells) yCell) r,
           (numCells, yCell))
      end
  end.

(** Modelled from the spec: the second annotation pass, as
    [annotateExtent] above. *)
Fixpoint annotateExtent (node : AugmSPNode) : AugmSPNode :=
  match node with
  | mkNode pt lo hi cs m y _ =>
      mkNode pt lo hi
        (match cs with
         | None => None
         | Some cs =>
             Some (map (fun c => match c with
                                 | None => None
                                 | Some c => Some (annotateExtent c)
                                 end) cs)
         end)
        m y (hi !!! 0%nat - lo !!! 0%nat)
  end.

(** Modelled from the spec: the depth-first visitor, as [visit] above. *)
Fixpoint visit {S : Type} (accessor : AugmSPNode -> S -> S * bool)
    (node : AugmSPNode) (s : S) : S :=
  let '(s, skipChildren) := accessor node s in
  match node with
  | mkNode _ _ _ cs _ _ _ =>
      match cs with
      | None => s
      | Some cs =>
          if skipChildren then s
          else overChildren (visit accessor) cs s
      end
  end.

(** The fields of an engine that [step] and [costGrad] read or write. *)
Record t := mk {
  epsilon : float;
  iter : nat;
  Y : list float;
  N : nat;
  P : list float;
  gains : list (list float);
  ystep : list (list float);
  nearest : list (list Neighbor);
  dim : nat;
  dist2 : list float -> list float -> float;
  computeForce : list float -> float -> list float -> list float -> list float
}.

Section Engine.

(** [new SPTree(points).root] *)
Variable SPTree_root : list (list float) -> AugmSPNode.

Definition zeroVector (e : t) : list float :=
  if decide (dim e = 3%nat) then [0; 0; 0] else [0; 0].

Definition alpha (e : t) : float := if decide (iter e < 100)%nat then 4 else 1.

#[warnings="-inexact-float"]
Definition momval (e : t) : float :=
  if decide (iter e < 250)%nat then 0.5 else 0.8.

Definition pointsOf (e : t) (Y : list float) : list (list float) :=
  for_ (N e) (fun i points =>
    let iTimesD := (i * dim e)%nat in
    points ++ [for_ (dim e) (fun d row => row ++ [Y !!! (iTimesD + d)%nat]) []])
    [].

(** Positive forces for the [i]-th node; [points[j]] is read inside the
    array on the engines this module is evaluated on. *)
Definition attract (e : t) (points : list (list float)) (i : nat)
  : list float :=
  let pointI := points !!! i in
  let neighbors := nearest e !!! i in
  for_ (length neighbors) (fun k Fpos =>
    let j := index (neighbors !!! k) in
    let pij := P e !!! (i * N e + j)%nat in
    let pointJ := points !!! j in
    let squaredDistItoJ := dist2 e pointI pointJ in
    let premult := pij / (1 + squaredDistItoJ) in
    computeForce e Fpos premult pointI pointJ) (zeroVector e).

Definition repulse (e : t) (pointI : list float) (node : AugmSPNode)
    (s : float * list float) : (float * list float) * bool :=
  let '(Z, FnegZ) := s in
  let squaredDistToCell := dist2 e pointI (yCell node) in
  if is_leaf node ||
     ((0 <? squaredDistToCell) &&
      (rCell node / sqrt squaredDistToCell <? THETA)) then
    let qijZ := 1 / (1 + squaredDistToCell) in
    let dZ := numCells node * qijZ in
    let Z := Z + dZ in
    let dZ := dZ * qijZ in
    ((Z, computeForce e FnegZ dZ pointI (yCell node)), true)
  else
    let squaredDistToPoint := dist2 e pointI (point node) in
    let qijZ := 1 / (1 + squaredDistToPoint) in
    let Z := Z + qijZ in
    let qijZ := qijZ * qijZ in
    ((Z, computeForce e FnegZ qijZ pointI (point node)), false).

Definition treeOf (e : t) (points : list (list float)) : AugmSPNode :=
  let root := SPTree_root points in
  let root := fst (annotateTree (dim e) root) in
  annotateExtent root.

Definition forcesOf (e : t) (points : list (list float)) (root : AugmSPNode)
  : float * list (list float * list float) :=
  for_ (N e) (fun i '(Z, forces) =>
    let pointI := points !!! i in
    let Fpos := attract e points i in
    let '(Z, FnegZ) := visit (repulse e pointI) root (Z, zeroVector e) in
    (Z, forces ++ [(Fpos, FnegZ)])) (0, []).

Definition costGrad (e : t) (Y : list float) : list (list float) :=
  let points := pointsOf e Y in
  let root := treeOf e points in
  let '(Z, forces) := forcesOf e points root in
  let A := 4 * alpha e in
  let B := 4 / Z in
  for_ (N e) (fun i grad =>
    let '(FPos, FNegZ) := forces !!! i in
    grad ++ [for_ (dim e) (fun d gsum =>
               gsum ++ [A * FPos !!! d - B * FNegZ !!! d]) []]) [].

#[warnings="-inexact-float"]
Definition newgain (gid sid gainid : float) : float :=
  let newgain := if decide (sign gid = sign sid) then gainid * 0.8
                 else gainid + 0.2 in
  if newgain <? 0.01 then 0.01 else newgain.

Definition tick (e : t) : t :=
  {| epsilon := epsilon e; iter := iter e + 1; Y := Y e; N := N e; P := P e;
     gains := gains e; ystep := ystep e; nearest := nearest e; dim := dim e;
     dist2 := dist2 e; computeForce := computeForce e |}.

Definition descent : Type :=
  list (list float) * list (list float) * list float * list float.

Definition stepCoord (e : t) (grad : list (list float)) (i d : nat)
    (s : descent) : descent :=
  let '(gains, ystep, Y, ymean) := s in
  let gid := (grad !!! i) !!! d in
  let sid := (ystep !!! i) !!! d in
  let gainid := (gains !!! i) !!! d in
  let newgain := newgain gid sid gainid in
  let gains := set_at gains i d newgain in
  let momval := momval e in
  let newsid := momval * sid - epsilon e * newgain * ((grad !!! i) !!! d) in
  let ystep := set_at ystep i d newsid in
  let i_d := (i * dim e + d)%nat in
  let Y := add_at Y i_d newsid in
  let ymean := add_at ymean d (Y !!! i_d) in
  (gains, ystep, Y, ymean).

Definition center (e : t) (ymean Y : list float) : list float :=
  for_ (N e) (fun i =>
    for_ (dim e) (fun d Y =>
      let i_d := (i * dim e + d)%nat in
      <[i_d := Y !!! i_d - ymean !!! d / ofNat (N e)]> Y)) Y.

(** A single step of optimization, in doubles. *)
Definition step (e : t) : t :=
  let e := tick e in
  let grad := costGrad e (Y e) in
  let ymean := zeroVector e in
  let '(gains', ystep', Y', ymean) :=
    for_ (N e) (fun i => for_ (dim e) (fun d => stepCoord e grad i d))
         (gains e, ystep e, Y e, ymean) in
  let Y' := center e ymean Y' in
  {| epsilon := epsilon e; iter := iter e; Y := Y'; N := N e; P := P e;
     gains := gains'; ystep := ystep'; nearest := nearest e; dim := dim e;
     dist2 := dist2 e; computeForce := computeForce e |}.

End Engine.

(** The rational number that a finite double stands for (0 for an
    infinity or NaN, which are not numbers). *)
Definition exact (x : float) : QArith_base.Q :=
  match FloatOps.Prim2SF x with
  | SpecFloat.S754_finite s m e =>
      QArith_base.Qmult
        (QArith_base.inject_Z (if s then Z.neg m else Z.pos m))
        (QArith_base.Qpower (QArith_base.inject_Z 2) e)
  | _ => QArith_base.inject_Z 0
  end.

(** The same number as a real. *)
Definition value (x : float) : R := Q2R (exact x).

(** Mean of column [d] of the row-major matrix [Y] with [n] rows, without
    rounding. *)
Definition columnMean (n dim : nat) (Y : list float) (d : nat)
  : QArith_base.Q :=
  QArith_base.Qdiv
    (for_ n (fun i sum =>
               QArith_base.Qplus sum (exact (Y !!! (i * dim + d)%nat)))
          (QArith_base.inject_Z 0))
    (QArith_base.inject_Z (Z.of_nat n)).

(** Modelled from the spec: the tree over three points of which the
    second lies in the lower and the third in the upper quadrant of the
    bounding box: the root keeps the first point and covers the bounding
    box, the two other points are leaves in the first and the last of its
    four slots. *)
Definition threePointTree (points : list (list float)) : AugmSPNode :=
  let p0 := points !!! 0%nat in
  let p1 := points !!! 1%nat in
  let p2 := points !!! 2%nat in
  let lowest x y := if x <? y then x else y in
  let highest x y := if x <? y then y else x in
  let lo := map (fun d => lowest (p0 !!! d) (lowest (p1 !!! d) (p2 !!! d)))
                [0%nat; 1%nat] in
  let hi := map (fun d => highest (p0 !!! d) (highest (p1 !!! d) (p2 !!! d)))
                [0%nat; 1%nat] in
  let mid := map (fun d => lo !!! d + (hi !!! d - lo !!! d) / 2)
                 [0%nat; 1%nat] in
  mkNode p0 lo hi
    (Some [Some (mkNode p1 lo mid None 0 [] 0); None; None;
           Some (mkNode p2 mid hi None 0 [] 0)])
    0 [] 0.

(** The engine that [initDataDist] leaves for the options
    [{dim: 2, epsilon: 1e12}] and the table [equilateralKnn]: every row
    of the calibrator is [0.5, 0.5] (two equal kernel values divided by
    their sum), so every entry of [P] off the diagonal is
    [(0.5 + 0.5) / 6] (one sixth in exact arithmetic); the gains are 1
    and the step memory is 0.  The solution is one that [randnMatrix] can
    draw, of the order of 1e-4. *)
#[warnings="-inexact-float"]
Definition threePointEngine : t :=
  let p := (0.5 + 0.5) / 6 in
  {| epsilon := 1e12; iter := 0;
     Y := [0.00005; 0.00002; -0.00012; -0.00003; 0.00009; 0.00007];
     N := 3; P := [0; p; p; p; 0; p; p; p; 0];
     gains := [[1; 1]; [1; 1]; [1; 1]];
     ystep := [[0; 0]; [0; 0]; [0; 0]];
     nearest := equilateralKnn; dim := 2;
     dist2 := dist2_2D; computeForce := computeForce_2d |}.

End Doubles.

(** The attractive force on coordinate [d] of point [i] in the solution
    [Y], as a sum over the neighbours [j] of [i]:
    [P[i, j] / (1 + |y_i - y_j|^2) * (y_i[d] - y_j[d])]. *)
Definition attraction (e : TSNE.t) (Y : list R) (i d : nat) : R :=
  let y a c := Y !!! (a * TSNE.dim e + c)%nat in
  let row := TSNE.nearest e !!! i in
  sumn (length row) (fun k =>
    let j := index (row !!! k) in
    TSNE.P e !!! (i * TSNE.N e + j)%nat
    / (1 + sumn (TSNE.dim e) (fun c => (y i c - y j c) * (y i c - y j c)))
    * (y i d - y j d)).

(** * Properties *)

(** ** Loops *)

Lemma for_0 {S : Type} (body : nat -> S -> S) (s : S) : for_ 0 body s = s.
Proof. reflexivity. Qed.

Lemma for_S {S : Type} (n : nat) (body : nat -> S -> S) (s : S) :
  for_ (Datatypes.S n) body s = body n (for_ n body s).
Proof.
  unfold for_. rewrite seq_S, foldl_app. reflexivity.
Qed.

Lemma for_range_empty {S : Type} (lo hi : nat) (body : nat -> S -> S) (s : S) :
  (hi <= lo)%nat -> for_range lo hi body s = s.
Proof.
  intros H. unfold for_range. replace (hi - lo)%nat with 0%nat by lia.
  reflexivity.
Qed.

Lemma for_range_S {S : Type} (lo hi : nat) (body : nat -> S -> S) (s : S) :
  (lo <= hi)%nat ->
  for_range lo (Datatypes.S hi) body s = body hi (for_range lo hi body s).
Proof.
  intros H. unfold for_range.
  replace (Datatypes.S hi - lo)%nat with (Datatypes.S (hi - lo)) by lia.
  rewrite seq_S, foldl_app. simpl. replace (lo + (hi - lo))%nat with hi by lia.
  reflexivity.
Qed.

Lemma forM_0 {S : Type} (body : nat -> S -> outcome S) (s : S) :
  forM 0 body s = Returns s.
Proof. reflexivity. Qed.

Lemma forM_S {S : Type} (n : nat) (body : nat -> S -> outcome S) (s : S) :
  forM (Datatypes.S n) body s = (s' ← forM n body s; body n s').
Proof.
  unfold forM. rewrite seq_S, foldl_app. reflexivity.
Qed.

(** An invariant of a loop holds when it returns. *)
Lemma for_invariant {S : Type} (I : nat -> S -> Prop) (n : nat)
    (body : nat -> S -> S) (s : S) :
  I 0%nat s ->
  (forall i s, (i < n)%nat -> I i s -> I (Datatypes.S i) (body i s)) ->
  I n (for_ n body s).
Proof.
  intros H0 Hstep. induction n as [|n IH].
  - exact H0.
  - rewrite for_S. apply Hstep; [lia|]. apply IH.
    intros i s' Hi. apply Hstep. lia.
Qed.

Lemma for_ext {S : Type} (n : nat) (body body' : nat -> S -> S) (s : S) :
  (forall i s, (i < n)%nat -> body i s = body' i s) ->
  for_ n body s = for_ n body' s.
Proof.
  intros H. induction n as [|n IH]; [reflexivity|].
  rewrite !for_S, IH by (intros; apply H; lia). apply H. lia.
Qed.

(** ** Arrays *)

Lemma add_at_length (a : list R) d v : length (add_at a d v) = length a.
Proof. unfold add_at. apply length_insert. Qed.

Lemma add_at_lookup (a : list R) d d' v :
  (d < length a)%nat ->
  add_at a d v !!! d' = if decide (d' = d) then a !!! d + v else a !!! d'.
Proof.
  intros Hd. unfold add_at. destruct (decide (d' = d)) as [->|Hne].
  - rewrite list_lookup_total_insert_eq by lia. reflexivity.
  - rewrite list_lookup_total_insert_ne by congruence. reflexivity.
Qed.

Lemma insert_lookup_R (a : list R) d d' v :
  (d < length a)%nat ->
  <[d := v]> a !!! d' = if decide (d' = d) then v else a !!! d'.
Proof.
  intros Hd. destruct (decide (d' = d)) as [->|Hne].
  - rewrite list_lookup_total_insert_eq by lia. reflexivity.
  - rewrite list_lookup_total_insert_ne by congruence. reflexivity.
Qed.

Lemma set_at_shaped n d (m : list (list R)) i k v :
  shaped n d m -> shaped n d (set_at m i k v).
Proof.
  intros [Hn Hrows]. unfold set_at. split.
  - rewrite length_insert. exact Hn.
  - intros j Hj. destruct (decide (j = i)) as [->|Hne].
    + rewrite list_lookup_total_insert_eq by lia.
      rewrite length_insert. auto.
    + rewrite list_lookup_total_insert_ne by congruence. auto.
Qed.

Lemma set_at_lookup n d (m : list (list R)) i k v i' k' :
  shaped n d m -> (i < n)%nat -> (k < d)%nat ->
  (set_at m i k v !!! i') !!! k' =
  if decide (i' = i /\ k' = k) then v else (m !!! i') !!! k'.
Proof.
  intros [Hn Hrows] Hi Hk. unfold set_at.
  destruct (decide (i' = i)) as [->|Hne].
  - rewrite list_lookup_total_insert_eq by lia.
    rewrite insert_lookup_R by (rewrite Hrows; lia).
    destruct (decide (k' = k)), (decide (i = i /\ k' = k)); tauto || reflexivity.
  - rewrite list_lookup_total_insert_ne by congruence.
    destruct (decide (i' = i /\ k' = k)); tauto || reflexivity.
Qed.

(** Row-major indices of distinct coordinates are distinct. *)
Lemma flat_index_inj (dim i d i' d' : nat) :
  (d < dim)%nat -> (d' < dim)%nat ->
  (i' * dim + d' = i * dim + d)%nat <-> i' = i /\ d' = d.
Proof.
  intros Hd Hd'. split; [|intros [-> ->]; reflexivity].
  intros H. assert (i' = i) by nia. subst. split; [reflexivity|lia].
Qed.

Lemma flat_index_lt (n dim i d : nat) :
  (i < n)%nat -> (d < dim)%nat -> (i * dim + d < n * dim)%nat.
Proof. nia. Qed.

(** ** Sums *)

Lemma sumn_ext n f g :
  (forall i, (i < n)%nat -> f i = g i) -> sumn n f = sumn n g.
Proof.
  induction n as [|n IH]; intros H; simpl; [reflexivity|].
  rewrite IH by (intros; apply H; lia). rewrite H by lia. reflexivity.
Qed.

Lemma sumn_plus n f g : sumn n (fun i => f i + g i) = sumn n f + sumn n g.
Proof. induction n as [|n IH]; simpl; [lra|rewrite IH; lra]. Qed.

Lemma sumn_minus n f g : sumn n (fun i => f i - g i) = sumn n f - sumn n g.
Proof. induction n as [|n IH]; simpl; [lra|rewrite IH; lra]. Qed.

Lemma sumn_const n c : sumn n (fun _ => c) = INR n * c.
Proof.
  induction n as [|n IH]; [simpl; lra|].
  rewrite S_INR. simpl. rewrite IH. lra.
Qed.

Lemma sumn_scale n c f : sumn n (fun i => f i * c) = sumn n f * c.
Proof. induction n as [|n IH]; simpl; [lra|rewrite IH; lra]. Qed.

Lemma sumn_zero n f : (forall i, (i < n)%nat -> f i = 0) -> sumn n f = 0.
Proof.
  intros H. rewrite (sumn_ext n f (fun _ => 0)) by exact H.
  rewrite sumn_const. lra.
Qed.

(** ** The gradient step *)

Section GradientStep.
Variables (e : TSNE.t) (grad G0 S0 : list (list R)) (Y0 M0 : list R).
Hypothesis HG : shaped (TSNE.N e) (TSNE.dim e) G0.
Hypothesis HS : shaped (TSNE.N e) (TSNE.dim e) S0.
Hypothesis HY : length Y0 = (TSNE.N e * TSNE.dim e)%nat.
Hypothesis HM : length M0 = TSNE.dim e.

Lemma descentInv_start : descentInv e grad G0 S0 Y0 M0 0 0 (G0, S0, Y0, M0).
Proof.
  unfold descentInv. repeat split; try assumption; try apply HG; try apply HS.
  - destruct (decide (reached 0 0 i' d')) as [[?|[? ?]]|]; [lia|lia|reflexivity].
  - destruct (decide (reached 0 0 i' d')) as [[?|[? ?]]|]; [lia|lia|reflexivity].
  - destruct (decide (reached 0 0 i' d')) as [[?|[? ?]]|]; [lia|lia|reflexivity].
  - intros d' Hd'. simpl. destruct (decide (d' < 0)%nat); [lia|lra].
Qed.

Lemma descentInv_coord i d s :
  (i < TSNE.N e)%nat -> (d < TSNE.dim e)%nat ->
  descentInv e grad G0 S0 Y0 M0 i d s ->
  descentInv e grad G0 S0 Y0 M0 i (Datatypes.S d) (TSNE.stepCoord e grad i d s).
Proof.
  intros Hi Hd. destruct s as [[[G St] Y] M].
  intros (HG' & HS' & HY' & HM' & Hval & Hmean).
  destruct (Hval i d Hi Hd) as (HGid & HSid & HYid).
  assert (Hnot : ~ reached i d i d) by (unfold reached; lia).
  destruct (decide (reached i d i d)) as [?|_]; [tauto|].
  unfold TSNE.stepCoord. cbv zeta.
  rewrite HGid, HSid.
  fold (gainAfter grad G0 S0 i d). fold (stepAfter e grad G0 S0 i d).
  assert (Hflat : (i * TSNE.dim e + d < length Y)%nat)
    by (rewrite HY'; apply flat_index_lt; assumption).
  unfold descentInv.
  split; [apply set_at_shaped; assumption|].
  split; [apply set_at_shaped; assumption|].
  split; [rewrite add_at_length; assumption|].
  split; [rewrite add_at_length; assumption|].
  split.
  - intros i' d' Hi' Hd'.
    destruct (Hval i' d' Hi' Hd') as (HG1 & HS1 & HY1).
    rewrite (set_at_lookup (TSNE.N e) (TSNE.dim e) G i d _ i' d') by assumption.
    rewrite (set_at_lookup (TSNE.N e) (TSNE.dim e) St i d _ i' d') by assumption.
    rewrite add_at_lookup by assumption.
    destruct (decide (i' = i /\ d' = d)) as [[-> ->]|Hne].
    + destruct (decide (reached i (Datatypes.S d) i d)) as [_|Hn];
        [|exfalso; apply Hn; unfold reached; lia].
      destruct (decide ((i * TSNE.dim e + d)%nat = (i * TSNE.dim e + d)%nat));
        [|congruence].
      rewrite HYid. repeat split; reflexivity.
    + destruct (decide ((i' * TSNE.dim e + d')%nat = (i * TSNE.dim e + d)%nat))
        as [Heq|_].
      { apply flat_index_inj in Heq; [tauto|assumption|assumption]. }
      rewrite HG1, HS1, HY1.
      destruct (decide (reached i d i' d')) as [Hr|Hr];
        destruct (decide (reached i (Datatypes.S d) i' d')) as [Hr'|Hr'];
        try (repeat split; reflexivity);
        exfalso; unfold reached in *; lia.
  - intros d' Hd'. rewrite add_at_lookup by lia.
    rewrite (Hmean d' Hd').
    destruct (decide (d' = d)) as [->|Hne].
    + rewrite add_at_lookup by assumption.
      destruct (decide ((i * TSNE.dim e + d)%nat = (i * TSNE.dim e + d)%nat));
        [|congruence].
      rewrite (Hmean d Hd), HYid.
      destruct (decide (d < d)%nat); [lia|].
      destruct (decide (d < Datatypes.S d)%nat); [|lia].
      unfold solutionAfter. lra.
    + destruct (decide (d' < d)%nat), (decide (d' < Datatypes.S d)%nat);
        try lia; reflexivity.
Qed.

Lemma descentInv_row_end i s :
  descentInv e grad G0 S0 Y0 M0 i (TSNE.dim e) s ->
  descentInv e grad G0 S0 Y0 M0 (Datatypes.S i) 0 s.
Proof.
  destruct s as [[[G St] Y] M].
  intros (HG' & HS' & HY' & HM' & Hval & Hmean).
  unfold descentInv. repeat split; try assumption;
    try apply HG'; try apply HS'.
  - destruct (Hval i' d' H H0) as (-> & _ & _).
    destruct (decide (reached i (TSNE.dim e) i' d')),
      (decide (reached (Datatypes.S i) 0 i' d'));
      try reflexivity; exfalso; unfold reached in *; lia.
  - destruct (Hval i' d' H H0) as (_ & -> & _).
    destruct (decide (reached i (TSNE.dim e) i' d')),
      (decide (reached (Datatypes.S i) 0 i' d'));
      try reflexivity; exfalso; unfold reached in *; lia.
  - destruct (Hval i' d' H H0) as (_ & _ & ->).
    destruct (decide (reached i (TSNE.dim e) i' d')),
      (decide (reached (Datatypes.S i) 0 i' d'));
      try reflexivity; exfalso; unfold reached in *; lia.
  - intros d' Hd'. rewrite (Hmean d' Hd'). simpl.
    destruct (decide (d' < TSNE.dim e)%nat); [|lia].
    destruct (decide (d' < 0)%nat); [lia|]. lra.
Qed.

Lemma descentInv_row i s :
  (i < TSNE.N e)%nat ->
  descentInv e grad G0 S0 Y0 M0 i 0 s ->
  descentInv e grad G0 S0 Y0 M0 (Datatypes.S i) 0
    (for_ (TSNE.dim e) (fun d => TSNE.stepCoord e grad i d) s).
Proof.
  intros Hi Hs. apply descentInv_row_end.
  apply (for_invariant (fun d s => descentInv e grad G0 S0 Y0 M0 i d s)).
  - exact Hs.
  - intros d s' Hd Hs'. apply descentInv_coord; assumption.
Qed.

Lemma descentInv_end :
  descentInv e grad G0 S0 Y0 M0 (TSNE.N e) 0
    (for_ (TSNE.N e)
         (fun i => for_ (TSNE.dim e) (fun d => TSNE.stepCoord e grad i d))
         (G0, S0, Y0, M0)).
Proof.
  apply (for_invariant (fun i s => descentInv e grad G0 S0 Y0 M0 i 0 s)).
  - apply descentInv_start.
  - intros i s Hi Hs. apply descentInv_row; assumption.
Qed.
End GradientStep.

Section Center.
Variables (e : TSNE.t) (ymean Y0 : list R).
Hypothesis HY : length Y0 = (TSNE.N e * TSNE.dim e)%nat.

Lemma centerInv_coord i d Y :
  (i < TSNE.N e)%nat -> (d < TSNE.dim e)%nat ->
  centerInv e ymean Y0 i d Y ->
  centerInv e ymean Y0 i (S d)
    (<[(i * TSNE.dim e + d)%nat :=
         Y !!! (i * TSNE.dim e + d)%nat - ymean !!! d / INR (TSNE.N e)]> Y).
Proof.
  intros Hi Hd [Hlen Hval]. split; [rewrite length_insert; exact Hlen|].
  intros i' d' Hi' Hd'.
  rewrite insert_lookup_R by (rewrite Hlen; apply flat_index_lt; assumption).
  destruct (decide ((i' * TSNE.dim e + d')%nat = (i * TSNE.dim e + d)%nat))
    as [Heq|Hne].
  - apply flat_index_inj in Heq; [|assumption|assumption].
    destruct Heq as [-> ->]. rewrite (Hval i d Hi Hd).
    destruct (decide (reached i d i d)) as [Hr|_];
      [exfalso; unfold reached in Hr; lia|].
    destruct (decide (reached i (S d) i d)) as [_|Hr];
      [reflexivity|exfalso; apply Hr; unfold reached; lia].
  - rewrite (Hval i' d' Hi' Hd').
    assert (Hx : ~ (i' = i /\ d' = d)) by (intros [-> ->]; congruence).
    destruct (decide (reached i d i' d')), (decide (reached i (S d) i' d'));
      try reflexivity; exfalso; unfold reached in *; lia.
Qed.

Lemma centerInv_end :
  centerInv e ymean Y0 (TSNE.N e) 0 (TSNE.center e ymean Y0).
Proof.
  unfold TSNE.center.
  apply (for_invariant (fun i Y => centerInv e ymean Y0 i 0 Y)).
  - split; [exact HY|]. intros i' d' _ _.
    destruct (decide (reached 0 0 i' d')) as [Hr|_];
      [exfalso; unfold reached in Hr; lia|reflexivity].
  - intros i Y Hi HInv.
    assert (Hrow : centerInv e ymean Y0 i (TSNE.dim e)
              (for_ (TSNE.dim e)
                 (fun d Y => <[(i * TSNE.dim e + d)%nat :=
                    Y !!! (i * TSNE.dim e + d)%nat
                    - ymean !!! d / INR (TSNE.N e)]> Y) Y)).
    { apply (for_invariant (fun d Y => centerInv e ymean Y0 i d Y)).
      - exact HInv.
      - intros d Y' Hd HY'. apply centerInv_coord; assumption. }
    destruct Hrow as [Hlen Hval]. split; [exact Hlen|].
    intros i' d' Hi' Hd'. rewrite (Hval i' d' Hi' Hd').
    destruct (decide (reached i (TSNE.dim e) i' d')),
      (decide (reached (S i) 0 i' d'));
      try reflexivity; exfalso; unfold reached in *; lia.
Qed.
End Center.

(** ** What a step does to an initialized engine *)

Section Step.
Variable SPTree_root : list (list R) -> AugmSPNode.

Lemma zeroVector_length e :
  (TSNE.dim e = 2%nat \/ TSNE.dim e = 3%nat) ->
  length (TSNE.zeroVector e) = TSNE.dim e.
Proof.
  unfold TSNE.zeroVector. intros [H|H]; rewrite H; reflexivity.
Qed.

Lemma zeroVector_lookup e d : TSNE.zeroVector e !!! d = 0.
Proof.
  unfold TSNE.zeroVector. destruct (decide (TSNE.dim e = 3%nat));
    destruct d as [|[|[|d]]]; reflexivity.
Qed.

(** The values stored by a step, coordinate by coordinate. *)
Lemma step_coordinates e :
  initialized e ->
  let e' := TSNE.tick e in
  let grad := TSNE.costGrad SPTree_root e' (TSNE.Y e) in
  let after := TSNE.step SPTree_root e in
  initialized after /\
  TSNE.N after = TSNE.N e /\ TSNE.dim after = TSNE.dim e /\
  TSNE.iter after = S (TSNE.iter e) /\
  forall i d, (i < TSNE.N e)%nat -> (d < TSNE.dim e)%nat ->
    (TSNE.gains after !!! i) !!! d
      = gainAfter grad (TSNE.gains e) (TSNE.ystep e) i d /\
    (TSNE.ystep after !!! i) !!! d
      = stepAfter e' grad (TSNE.gains e) (TSNE.ystep e) i d /\
    TSNE.Y after !!! (i * TSNE.dim e + d)%nat
      = solutionAfter e' grad (TSNE.gains e) (TSNE.ystep e) (TSNE.Y e) i d
        - sumn (TSNE.N e)
            (fun i' => solutionAfter e' grad (TSNE.gains e) (TSNE.ystep e)
                         (TSNE.Y e) i' d) / INR (TSNE.N e).
Proof.
  intros (Hdim & HY & HG & HS). intros e' grad after.
  pose proof (descentInv_end e' grad (TSNE.gains e) (TSNE.ystep e)
                (TSNE.Y e) (TSNE.zeroVector e') HG HS HY
                (zeroVector_length e' Hdim)) as Hloop.
  subst after. unfold TSNE.step. fold e'. fold grad.
  change (TSNE.gains e') with (TSNE.gains e).
  change (TSNE.ystep e') with (TSNE.ystep e).
  change (TSNE.Y e') with (TSNE.Y e).
  destruct (for_ (TSNE.N e') _ _) as [[[G' S'] Y'] M'] eqn:Hrun.
  change (TSNE.N e') with (TSNE.N e) in *.
  change (TSNE.dim e') with (TSNE.dim e) in *.
  destruct Hloop as (HG' & HS' & HY' & HM' & Hval & Hmean).
  pose proof (centerInv_end e' M' Y' HY') as [Hclen Hcval].
  change (TSNE.N e') with (TSNE.N e) in *.
  change (TSNE.dim e') with (TSNE.dim e) in *.
  cbn [TSNE.N TSNE.dim TSNE.iter TSNE.gains TSNE.ystep TSNE.Y].
  split; [repeat split; solve [assumption | apply HG' | apply HS']|].
  split; [reflexivity|]. split; [reflexivity|].
  split; [simpl; lia|].
  intros i d Hi Hd.
  destruct (Hval i d Hi Hd) as (HGv & HSv & HYv).
  assert (Hr : reached (TSNE.N e) 0 i d) by (unfold reached; lia).
  destruct (decide (reached (TSNE.N e) 0 i d)) as [_|?]; [|tauto].
  split; [exact HGv|]. split; [exact HSv|].
  rewrite (Hcval i d Hi Hd).
  destruct (decide (reached (TSNE.N e) 0 i d)) as [_|?]; [|tauto].
  rewrite HYv, (Hmean d Hd), zeroVector_lookup.
  destruct (decide (d < 0)%nat); [lia|].
  f_equal. f_equal. lra.
Qed.
End Step.

Lemma for_snoc {A : Type} (n : nat) (f : nat -> A) :
  for_ n (fun i acc => acc ++ [f i]) [] = map f (seq 0 n).
Proof.
  induction n as [|n IH]; [reflexivity|].
  rewrite for_S, IH, seq_S, map_app. reflexivity.
Qed.

Lemma map_seq_lookup_total {A : Type} `{Inhabited A} (n i : nat) (f : nat -> A) :
  (i < n)%nat -> map f (seq 0 n) !!! i = f i.
Proof.
  intros Hi. apply list_lookup_total_correct.
  rewrite list_lookup_fmap, lookup_seq_lt by lia. reflexivity.
Qed.

Lemma steps_S k SP e :
  TSNE.steps SP (S k) e = TSNE.step SP (TSNE.steps SP k e).
Proof.
  revert e. induction k as [|k IH]; intros e; [reflexivity|].
  change (TSNE.steps SP (S (S k)) e) with (TSNE.steps SP (S k) (TSNE.step SP e)).
  rewrite IH. reflexivity.
Qed.

Lemma steps_initialized k SP e :
  initialized e ->
  initialized (TSNE.steps SP k e) /\
  TSNE.N (TSNE.steps SP k e) = TSNE.N e /\
  TSNE.dim (TSNE.steps SP k e) = TSNE.dim e /\
  TSNE.iter (TSNE.steps SP k e) = (TSNE.iter e + k)%nat.
Proof.
  intros He. induction k as [|k IH].
  - simpl. split; [exact He|]. repeat split; lia.
  - rewrite steps_S. destruct IH as (Hi & HN & Hd & Ht).
    destruct (step_coordinates SP _ Hi) as (Hi' & HN' & Hd' & Ht' & _).
    split; [exact Hi'|]. repeat split; lia.
Qed.

Lemma engineAt_initialized t : initialized (engineAt t).
Proof.
  unfold initialized, shaped. simpl.
  split; [left; reflexivity|]. split; [reflexivity|].
  split; (split; [reflexivity|intros [|i] Hi; [reflexivity|lia]]).
Qed.

(** ** The column means *)

Lemma value_undefined : Doubles.value inhabitant = 0.
Proof.
  unfold Doubles.value.
  change (Doubles.exact inhabitant) with (QArith_base.inject_Z 0).
  unfold Q2R. simpl. lra.
Qed.

Lemma value_lookup (Y : list PrimFloat.float) (k : nat) :
  map Doubles.value Y !!! k = Doubles.value (Y !!! k).
Proof.
  destruct (decide (k < length Y)%nat) as [Hk|Hk].
  - apply list_lookup_total_correct. rewrite list_lookup_fmap.
    destruct (lookup_lt_is_Some_2 Y k Hk) as [x Hx].
    rewrite Hx. simpl. rewrite (list_lookup_total_correct _ _ _ Hx). reflexivity.
  - rewrite !list_lookup_total_alt, list_lookup_fmap.
    rewrite (lookup_ge_None_2 Y k) by lia. simpl.
    symmetry. apply value_undefined.
Qed.

Lemma Q2R_inject_nat (n : nat) :
  Q2R (QArith_base.inject_Z (Z.of_nat n)) = INR n.
Proof. unfold Q2R. simpl. rewrite INR_IZR_INZ. lra. Qed.

(** The mean of the stored doubles as a real number is the rational
    mean, which can be evaluated. *)
Lemma columnMean_exact (n dim : nat) (Y : list PrimFloat.float) (d : nat) :
  (1 <= n)%nat ->
  columnMean n dim (map Doubles.value Y) d = Q2R (Doubles.columnMean n dim Y d).
Proof.
  intros Hn. unfold columnMean, Doubles.columnMean.
  rewrite Qreals.Q2R_div.
  2:{ intros H0. apply Qreals.Qeq_eqR in H0. rewrite Q2R_inject_nat in H0.
      unfold Q2R in H0. simpl in H0.
      assert (0 < INR n) by (apply lt_0_INR; lia). lra. }
  rewrite Q2R_inject_nat. f_equal.
  clear Hn. induction n as [|n IH].
  - simpl. unfold Q2R. simpl. lra.
  - rewrite for_S, Qreals.Q2R_plus, <- IH. simpl. rewrite value_lookup. reflexivity.
Qed.

(** C1 (as stated, refuted).  In double precision a step does not leave
    the column means within 1e-9 of 0.  One step of the three-point
    engine with learning rate 1e12 stores six finite numbers in [Y], five
    of the order of 1e8 to 1e9 and one of the order of 1; their column
    means, taken without rounding, are about -1.99e-8 and -1.79e-8. *)
Lemma step_mean_in_doubles :
  let after := Doubles.step Doubles.threePointTree Doubles.threePointEngine in
  (1 <= Doubles.N Doubles.threePointEngine)%nat /\
  Doubles.N after = 3%nat /\ Doubles.dim after = 2%nat /\
  length (Doubles.Y after) = 6%nat /\
  forallb PrimFloat.is_finite (Doubles.Y after) = true /\
  1 / 1000000000 < Rabs (columnMean 3 2 (map Doubles.value (Doubles.Y after)) 0) /\
  1 / 1000000000 < Rabs (columnMean 3 2 (map Doubles.value (Doubles.Y after)) 1).
Proof.
  intros after.
  assert (Hbelow : forall q : QArith_base.Q,
            QArith_base.Qlt q (QArith_base.Qmake (-1) 100000000) ->
            1 / 1000000000 < Rabs (Q2R q)).
  { intros q Hq. apply Qreals.Qlt_Rlt in Hq.
    assert (Hc : Q2R (QArith_base.Qmake (-1) 100000000) = - (1 / 100000000)).
    { unfold Q2R. simpl. lra. }
    rewrite Hc in Hq. rewrite Rabs_left by lra. lra. }
  split; [simpl; lia|].
  split; [vm_compute; reflexivity|]. split; [vm_compute; reflexivity|].
  split; [vm_compute; reflexivity|]. split; [vm_compute; reflexivity|].
  split; (rewrite columnMean_exact by lia; apply Hbelow;
          vm_compute; reflexivity).
Qed.

(** C1 (amended).  In exact arithmetic, after every step of an
    initialized engine with at least one point the mean of every column of
    the embedding [Y] is 0: every entry of [Y] is its moved value (the old
    entry plus the step taken) minus the column mean that the update pass
    accumulated. *)
Theorem step_zero_mean (SP : list (list R) -> AugmSPNode) (e : TSNE.t)
    (k d : nat) :
  initialized e -> (1 <= TSNE.N e)%nat -> (d < TSNE.dim e)%nat ->
  let before := TSNE.steps SP k e in
  let after := TSNE.step SP before in
  let grad := TSNE.costGrad SP (TSNE.tick before) (TSNE.Y before) in
  let moved i := solutionAfter (TSNE.tick before) grad (TSNE.gains before)
                   (TSNE.ystep before) (TSNE.Y before) i d in
  columnMean (TSNE.N e) (TSNE.dim e) (TSNE.Y after) d = 0 /\
  forall i, (i < TSNE.N e)%nat ->
    TSNE.Y after !!! (i * TSNE.dim e + d)%nat
      = moved i - sumn (TSNE.N e) moved / INR (TSNE.N e).
Proof.
  intros He HN Hd before after grad moved.
  destruct (steps_initialized k SP e He) as (Hb & HbN & Hbd & _).
  destruct (step_coordinates SP before Hb) as (_ & _ & _ & _ & Hval).
  fold before in HbN, Hbd. rewrite HbN, Hbd in Hval.
  assert (HY : forall i, (i < TSNE.N e)%nat ->
            TSNE.Y after !!! (i * TSNE.dim e + d)%nat
            = moved i - sumn (TSNE.N e) moved / INR (TSNE.N e)).
  { intros i Hi. destruct (Hval i d Hi Hd) as (_ & _ & HYv). exact HYv. }
  split; [|exact HY].
  unfold columnMean.
  rewrite (sumn_ext _ _ (fun i => moved i
                           - sumn (TSNE.N e) moved / INR (TSNE.N e))) by exact HY.
  rewrite sumn_minus, sumn_const.
  assert (HNR : INR (TSNE.N e) <> 0) by (apply not_0_INR; lia).
  field. exact HNR.
Qed.

Lemma step_zero_mean_witness :
  initialized (engineAt 0) /\ (1 <= TSNE.N (engineAt 0))%nat /\
  columnMean 1 2 (TSNE.Y (TSNE.step leafTree (engineAt 0))) 0 = 0.
Proof.
  split; [apply engineAt_initialized|]. split; [simpl; lia|].
  apply (step_zero_mean leafTree (engineAt 0) 0 0).
  - apply engineAt_initialized.
  - simpl. lia.
  - simpl. lia.
Defined.

(** ** Schedules *)

Lemma step_iter SP e : TSNE.iter (TSNE.step SP e) = S (TSNE.iter e).
Proof.
  unfold TSNE.step. destruct (for_ _ _ _) as [[[G' S'] Y'] M'].
  simpl. lia.
Qed.

Lemma initSolution_iter stack g e g' e' :
  TSNE.initSolution stack g e = Returns (g', e') -> TSNE.iter e' = 0%nat.
Proof.
  unfold TSNE.initSolution.
  destruct (randnMatrix _ _ _ _ _) as [[[y g1] r]|msg]; simpl; [|discriminate].
  intros [= <- <-]. reflexivity.
Qed.

(** The gradient is [4 alpha Fpos - (4 / Z) FnegZ], coordinate by
    coordinate. *)
Lemma costGrad_lookup SP e Y i d :
  (i < TSNE.N e)%nat -> (d < TSNE.dim e)%nat ->
  let points := TSNE.pointsOf e Y in
  let run := TSNE.forcesOf e points (TSNE.treeOf SP e points) in
  (TSNE.costGrad SP e Y !!! i) !!! d
  = 4 * TSNE.alpha e * (fst (snd run !!! i)) !!! d
    - 4 / fst run * (snd (snd run !!! i)) !!! d.
Proof.
  intros Hi Hd points run. unfold TSNE.costGrad.
  fold points. fold run. destruct run as [Z forces] eqn:Hrun. simpl fst. simpl snd.
  rewrite (for_ext _ _
             (fun i acc => acc ++ [let '(FPos, FNegZ) := forces !!! i in
                       for_ (TSNE.dim e) (fun d gsum =>
                         gsum ++ [4 * TSNE.alpha e * FPos !!! d
                                  - 4 / Z * FNegZ !!! d]) []]))
    by (intros k acc _; destruct (forces !!! k); reflexivity).
  rewrite (for_snoc (TSNE.N e)
             (fun i => let '(FPos, FNegZ) := forces !!! i in
                       for_ (TSNE.dim e) (fun d gsum =>
                         gsum ++ [4 * TSNE.alpha e * FPos !!! d
                                  - 4 / Z * FNegZ !!! d]) [])).
  rewrite map_seq_lookup_total by exact Hi.
  destruct (forces !!! i) as [FPos FNegZ]. simpl fst. simpl snd.
  rewrite (for_snoc (TSNE.dim e)
             (fun d => 4 * TSNE.alpha e * FPos !!! d - 4 / Z * FNegZ !!! d)).
  rewrite map_seq_lookup_total by exact Hd. reflexivity.
Qed.

(** C3 (as stated, refuted).  A step that starts with the counter at 249
    runs with the counter already at 250: its momentum is 0.8, not the 0.5
    that the value 249 would select. *)
Lemma schedule_by_prestep_counter_fails :
  TSNE.iter (engineAt 249) = 249%nat /\
  TSNE.momval (TSNE.tick (engineAt 249)) = 8 / 10 /\
  ~ scheduleByPreStepCounter (engineAt 249).
Proof.
  split; [reflexivity|]. split.
  - unfold TSNE.momval. simpl. destruct (decide (249 + 1 < 250)%nat); [lia|reflexivity].
  - unfold scheduleByPreStepCounter, TSNE.momval. simpl. intros [H _].
    destruct (decide (249 + 1 < 250)%nat); [lia|].
    destruct (decide (249 < 250)%nat); [|lia]. lra.
Qed.

(** C3 (amended).  The counter is 0 after construction and after
    [initSolution], and a step adds exactly 1 to it.  The increment comes
    first: a step that starts with the counter at [t] evaluates the
    gradient and the update with the counter at [t + 1], so its momentum
    is 0.5 if [t + 1 < 250] and 0.8 otherwise and its attractive
    multiplier is 4 if [t + 1 < 100] and 1 otherwise. *)
Theorem step_schedule (SP : list (list R) -> AugmSPNode) (e : TSNE.t) :
  let t := TSNE.iter e in
  let e' := TSNE.tick e in
  let grad := TSNE.costGrad SP e' (TSNE.Y e) in
  let points := TSNE.pointsOf e' (TSNE.Y e) in
  let run := TSNE.forcesOf e' points (TSNE.treeOf SP e' points) in
  (forall MR opt e0, TSNE.constructor MR opt = Returns e0 ->
                     TSNE.iter e0 = 0%nat) /\
  (forall stack g g1 e1, TSNE.initSolution stack g e = Returns (g1, e1) ->
                         TSNE.iter e1 = 0%nat) /\
  TSNE.iter (TSNE.step SP e) = S t /\
  TSNE.momval e' = (if decide (S t < 250)%nat then 5 / 10 else 8 / 10) /\
  TSNE.alpha e' = (if decide (S t < 100)%nat then 4 else 1) /\
  (initialized e ->
   forall i d, (i < TSNE.N e)%nat -> (d < TSNE.dim e)%nat ->
     (TSNE.ystep (TSNE.step SP e) !!! i) !!! d
     = TSNE.momval e' * (TSNE.ystep e !!! i) !!! d
       - TSNE.epsilon e * (TSNE.gains (TSNE.step SP e) !!! i) !!! d
         * (grad !!! i) !!! d /\
     (grad !!! i) !!! d
     = 4 * TSNE.alpha e' * (fst (snd run !!! i)) !!! d
       - 4 / fst run * (snd (snd run !!! i)) !!! d).
Proof.
  intros t e' grad points run.
  split.
  { intros MR opt e0. unfold TSNE.constructor.
    repeat case_decide; intros [= <-]; reflexivity. }
  split.
  { intros stack g g1 e1. apply initSolution_iter. }
  split; [apply step_iter|].
  split.
  { unfold TSNE.momval, e', t. simpl.
    replace (TSNE.iter e + 1)%nat with (S (TSNE.iter e)) by lia. reflexivity. }
  split.
  { unfold TSNE.alpha, e', t. simpl.
    replace (TSNE.iter e + 1)%nat with (S (TSNE.iter e)) by lia. reflexivity. }
  intros He i d Hi Hd.
  destruct (step_coordinates SP e He) as (_ & _ & _ & _ & Hval).
  destruct (Hval i d Hi Hd) as (HG & HS & _).
  split.
  - rewrite HS, HG. reflexivity.
  - apply (costGrad_lookup SP e' (TSNE.Y e) i d); assumption.
Qed.

Lemma step_schedule_witness :
  initialized (engineAt 249) /\
  (TSNE.ystep (TSNE.step leafTree (engineAt 249)) !!! 0%nat) !!! 0%nat
  = TSNE.momval (TSNE.tick (engineAt 249)) * (TSNE.ystep (engineAt 249) !!! 0%nat) !!! 0%nat
    - TSNE.epsilon (engineAt 249)
      * (TSNE.gains (TSNE.step leafTree (engineAt 249)) !!! 0%nat) !!! 0%nat
      * (TSNE.costGrad leafTree (TSNE.tick (engineAt 249))
           (TSNE.Y (engineAt 249)) !!! 0%nat) !!! 0%nat.
Proof.
  split; [apply engineAt_initialized|].
  destruct (step_schedule leafTree (engineAt 249)) as (_ & _ & _ & _ & _ & H).
  apply (H (engineAt_initialized 249) 0%nat 0%nat); simpl; lia.
Defined.

(** ** Gains *)

Lemma newgain_floor gid sid gainid :
  TSNE.newgain gid sid gainid
  = Rmax (if decide (sign gid = sign sid) then gainid * (8 / 10)
          else gainid + 2 / 10) (1 / 100) /\
  1 / 100 <= TSNE.newgain gid sid gainid.
Proof.
  unfold TSNE.newgain.
  set (g := if decide (sign gid = sign sid) then _ else _).
  destruct (decide (g < 1 / 100)) as [Hlt|Hge].
  - split; [|lra]. rewrite Rmax_right by lra. reflexivity.
  - split; [|lra]. rewrite Rmax_left by lra. reflexivity.
Qed.

(** What [sign(gid) === sign(sid)] tests. *)
Lemma sign_agree (x y : R) :
  sign x = sign y <->
  (x > 0 /\ y > 0) \/ (x < 0 /\ y < 0) \/ (x = 0 /\ y = 0).
Proof.
  unfold sign.
  destruct (decide (x > 0)) as [Hx|Hx]; destruct (decide (y > 0)) as [Hy|Hy];
    try (destruct (decide (x < 0)) as [Hx'|Hx']);
    try (destruct (decide (y < 0)) as [Hy'|Hy']);
    split; intros H; try discriminate H; try reflexivity; try lra;
    try (destruct H as [[? ?]|[[? ?]|[? ?]]]; lra).
Qed.

Lemma pairEngine_initialized : initialized pairEngine.
Proof.
  unfold initialized, shaped. simpl.
  split; [left; reflexivity|]. split; [reflexivity|].
  split; (split; [reflexivity|intros [|[|i]] Hi; [reflexivity|reflexivity|lia]]).
Qed.

(** The first coordinate of the gradient of the first point of the
    two-point engine, for the tree that is a single leaf. *)
Lemma pairEngine_gradient :
  (TSNE.costGrad leafTree (TSNE.tick pairEngine) (TSNE.Y pairEngine) !!! 0%nat)
    !!! 0%nat = 16 / 5.
Proof.
  unfold TSNE.costGrad, TSNE.forcesOf, TSNE.treeOf, TSNE.pointsOf, TSNE.attract,
    leafTree, pairEngine, TSNE.tick, TSNE.alpha, TSNE.zeroVector, for_.
  simpl.
  unfold TSNE.repulse. simpl.
  unfold dist2_2D, computeForce_2d, add_at. simpl.
  destruct (decide (0 + 1 < 100)%nat) as [_|H]; [|lia].
  field.
Qed.

(** C4. A step stores in every gain the value [gain * 0.8] when the
    gradient and the previous step of the coordinate have the same sign
    (both above 0, both below 0, or both 0) and [gain + 0.2] otherwise,
    floored at 0.01; so every entry of the gains array is at least 0.01
    after every step. *)
Theorem step_gains (SP : list (list R) -> AugmSPNode) (e : TSNE.t) :
  initialized e ->
  let grad := TSNE.costGrad SP (TSNE.tick e) (TSNE.Y e) in
  let after := TSNE.step SP e in
  (forall i d, (i < TSNE.N e)%nat -> (d < TSNE.dim e)%nat ->
     let gid := (grad !!! i) !!! d in
     let sid := (TSNE.ystep e !!! i) !!! d in
     let gainid := (TSNE.gains e !!! i) !!! d in
     let agree :=
       (gid > 0 /\ sid > 0) \/ (gid < 0 /\ sid < 0) \/ (gid = 0 /\ sid = 0) in
     (agree ->
      (TSNE.gains after !!! i) !!! d = Rmax (gainid * (8 / 10)) (1 / 100)) /\
     (~ agree ->
      (TSNE.gains after !!! i) !!! d = Rmax (gainid + 2 / 10) (1 / 100))) /\
  Forall (Forall (fun gain => 1 / 100 <= gain)) (TSNE.gains after) /\
  forall k, Forall (Forall (fun gain => 1 / 100 <= gain))
              (TSNE.gains (TSNE.steps SP (S k) e)).
Proof.
  intros He grad after.
  assert (Hone : forall e0, initialized e0 ->
            Forall (Forall (fun gain => 1 / 100 <= gain))
                   (TSNE.gains (TSNE.step SP e0))).
  { intros e0 He0.
    destruct (step_coordinates SP e0 He0) as (Hi' & HN' & Hd' & _ & Hval).
    destruct Hi' as (_ & _ & [HGn HGrows] & _).
    rewrite HN', Hd' in *.
    apply Forall_lookup_2. intros i row Hrow.
    assert (Hi : (i < TSNE.N e0)%nat)
      by (rewrite <- HGn; eapply lookup_lt_Some; exact Hrow).
    apply Forall_lookup_2. intros d x Hx.
    pose proof (list_lookup_total_correct _ _ _ Hrow) as Hrow'.
    assert (Hd : (d < TSNE.dim e0)%nat).
    { rewrite <- (HGrows i Hi), Hrow'. eapply lookup_lt_Some; exact Hx. }
    pose proof (list_lookup_total_correct _ _ _ Hx) as Hx'.
    destruct (Hval i d Hi Hd) as (HG & _ & _).
    rewrite Hrow', Hx' in HG. rewrite HG. unfold gainAfter.
    apply newgain_floor. }
  split.
  - intros i d Hi Hd gid sid gainid agree.
    destruct (step_coordinates SP e He) as (_ & _ & _ & _ & Hval).
    destruct (Hval i d Hi Hd) as (HG & _ & _).
    fold grad in HG. fold after in HG. rewrite HG. unfold gainAfter.
    fold gid. fold sid. fold gainid.
    destruct (newgain_floor gid sid gainid) as [Hnew _]. rewrite Hnew.
    pose proof (sign_agree gid sid) as Hsign. fold agree in Hsign.
    destruct (decide (sign gid = sign sid)) as [Heq|Hne]; split; intros Hag;
      try reflexivity; tauto.
  - split; [apply Hone; exact He|].
    intros k. rewrite steps_S. apply Hone.
    apply steps_initialized. exact He.
Qed.

Lemma step_gains_witness :
  initialized pairEngine /\
  (TSNE.gains (TSNE.step leafTree pairEngine) !!! 0%nat) !!! 0%nat
  = Rmax (1 + 2 / 10) (1 / 100).
Proof.
  split; [apply pairEngine_initialized|].
  destruct (step_gains leafTree pairEngine pairEngine_initialized)
    as (Hstored & _).
  destruct (Hstored 0%nat 0%nat) as (_ & Hdiffer); [simpl; lia|simpl; lia|].
  apply Hdiffer. rewrite pairEngine_gradient. simpl. lra.
Defined.

(** ** Trees *)

Lemma overChildren_foldl {A S : Type} (f : A -> S -> S) cs s :
  overChildren f cs s = foldl (fun s c => f c s) s (omap (fun c => c) cs).
Proof.
  revert s. induction cs as [|[c|] cs IH]; intros s; simpl; auto.
Qed.

(** Induction on a tree through the non-null children of its nodes. *)
Lemma node_induction (Q : AugmSPNode -> Prop) :
  (forall n, Forall Q (kids n) -> Q n) -> forall n, Q n.
Proof.
  intros Hstep. fix IH 1. intros [pt lo hi cs m y r].
  apply Hstep. unfold kids. simpl. destruct cs as [cs|]; [|constructor].
  induction cs as [|[c|] cs IHcs]; simpl.
  - constructor.
  - constructor; [apply IH|exact IHcs].
  - exact IHcs.
Qed.

Lemma nodes_kids n :
  nodes n = S (foldr (fun c acc => (nodes c + acc)%nat) 0%nat (kids n)).
Proof.
  destruct n as [pt lo hi [cs|] m y r]; [|reflexivity].
  unfold kids. simpl. f_equal. rewrite overChildren_foldl.
  generalize (omap (fun c => c) cs). intros l.
  assert (H : forall k, foldl (fun s c => (s + nodes c)%nat) k l
                        = (k + foldr (fun c acc => (nodes c + acc)%nat) 0%nat l)%nat).
  { induction l as [|c l IHl]; intros k; simpl; [lia|]. rewrite IHl. lia. }
  rewrite H. lia.
Qed.

Lemma everyNode_kids Q n :
  everyNode Q n <-> Q n /\ Forall (everyNode Q) (kids n).
Proof.
  destruct n as [pt lo hi [cs|] m y r]; simpl.
  - unfold kids. simpl. rewrite overChildren_foldl.
    generalize (omap (fun c => c) cs). intros l.
    assert (H : forall T : Prop,
              foldl (fun (s : Prop) c => everyNode Q c /\ s) T l
              <-> T /\ Forall (everyNode Q) l).
    { induction l as [|c l IHl]; intros T; simpl.
      - split; [intros; split; [assumption|constructor]|tauto].
      - rewrite IHl, Forall_cons. tauto. }
    rewrite H. tauto.
  - unfold kids. simpl. split; [intros; split; [tauto|constructor]|tauto].
Qed.

Lemma visit_kids {S : Type} (accessor : AugmSPNode -> S -> S * bool) n s :
  visit accessor n s
  = let '(s', skipChildren) := accessor n s in
    if is_leaf n || skipChildren then s'
    else foldl (fun s c => visit accessor c s) s' (kids n).
Proof.
  destruct n as [pt lo hi [cs|] m y r]; simpl.
  - destruct (accessor _ s) as [s' [|]]; [reflexivity|].
    unfold kids, is_leaf. simpl. apply overChildren_foldl.
  - destruct (accessor _ s) as [s' skip]. reflexivity.
Qed.

(** The loop over the slots annotates each child and adds up what the
    children return. *)
Lemma annotateChildren_kids dim cs m y :
  let '(cs', m', y') := annotateChildren (annotateTree dim) dim cs m y in
  omap (fun c => c) cs'
  = map (fun c => fst (annotateTree dim c)) (omap (fun c => c) cs) /\
  m' = (m + foldr (fun c acc => (fst (snd (annotateTree dim c)) + acc)%nat)
                  0%nat (omap (fun c => c) cs))%nat.
Proof.
  revert m y. induction cs as [|[c|] cs IH]; intros m y; simpl.
  - split; [reflexivity|lia].
  - destruct (annotateTree dim c) as [c' [mc yc]] eqn:Hc. simpl.
    specialize (IH (m + mc)%nat (vadd dim y yc)).
    destruct (annotateChildren _ _ cs _ _) as [[cs' m'] y'].
    destruct IH as [IH1 IH2]. simpl.
    change (list_omap (option AugmSPNode) AugmSPNode)
      with (@omap list _ (option AugmSPNode) AugmSPNode).
    rewrite IH1. split; [reflexivity|lia].
  - specialize (IH m y).
    destruct (annotateChildren _ _ cs _ _) as [[cs' m'] y'].
    exact IH.
Qed.

Lemma annotateTree_leaf dim pt lo hi m y r :
  annotateTree dim (mkNode pt lo hi None m y r)
  = (mkNode pt lo hi None 1 pt r, (1%nat, pt)).
Proof. reflexivity. Qed.

Lemma foldr_plus_ext {A : Type} (f g : A -> nat) (l : list A) :
  Forall (fun c => f c = g c) l ->
  foldr (fun c acc => (f c + acc)%nat) 0%nat l
  = foldr (fun c acc => (g c + acc)%nat) 0%nat l.
Proof.
  induction 1 as [|c l Hc _ IHl]; simpl; [reflexivity|].
  rewrite Hc, IHl. reflexivity.
Qed.

Lemma foldr_plus_map {A B : Type} (h : A -> B) (f : B -> nat) (l : list A) :
  foldr (fun c acc => (f c + acc)%nat) 0%nat (map h l)
  = foldr (fun c acc => (f (h c) + acc)%nat) 0%nat l.
Proof. induction l as [|c l IHl]; simpl; [reflexivity|]. rewrite IHl. reflexivity. Qed.

(** What the annotation pass does to a tree. *)
Lemma annotateTree_counts dim n :
  let n' := fst (annotateTree dim n) in
  numCells n' = fst (snd (annotateTree dim n)) /\
  numCells n' = nodes n /\
  is_leaf n' = is_leaf n /\ point n' = point n /\
  everyNode annotated n'.
Proof.
  induction n as [n IH] using node_induction.
  destruct n as [pt lo hi [cs|] m y r].
  - unfold kids in IH. simpl in IH. cbn zeta.
    rewrite nodes_kids. unfold kids at 1. simpl children.
    cbn [annotateTree].
    pose proof (annotateChildren_kids dim cs 1%nat pt) as Hloop.
    destruct (annotateChildren _ _ cs _ _) as [[cs' m'] y'].
    destruct Hloop as [Hk Hm]. cbn [fst snd numCells is_leaf children point].
    assert (Hsum : foldr (fun c acc => (fst (snd (annotateTree dim c)) + acc)%nat)
                         0%nat (omap (fun c => c) cs)
                   = foldr (fun c acc => (nodes c + acc)%nat) 0%nat
                           (omap (fun c => c) cs)).
    { apply foldr_plus_ext. eapply Forall_impl; [exact IH|].
      intros c (H1 & H2 & _). simpl. rewrite <- H1, H2. reflexivity. }
    split; [reflexivity|]. split; [lia|]. split; [reflexivity|].
    split; [reflexivity|].
    apply everyNode_kids. split.
    + unfold annotated, childCells, kids. cbn [is_leaf children numCells].
      rewrite Hk, Hm. f_equal. rewrite foldr_plus_map.
      apply foldr_plus_ext. eapply Forall_impl; [exact IH|].
      intros c (H1 & _). simpl. rewrite <- H1. reflexivity.
    + unfold kids. cbn [children]. rewrite Hk.
      apply Forall_fmap. eapply Forall_impl; [exact IH|].
      intros c Hc. simpl. apply Hc.
  - cbn zeta. rewrite annotateTree_leaf. cbn [fst snd numCells is_leaf children point nodes].
    repeat split; try reflexivity.
Qed.

Lemma annotateExtent_fields n :
  numCells (annotateExtent n) = numCells n /\
  yCell (annotateExtent n) = yCell n /\
  point (annotateExtent n) = point n /\
  is_leaf (annotateExtent n) = is_leaf n /\
  kids (annotateExtent n) = map annotateExtent (kids n) /\
  rCell (annotateExtent n) = high n !!! 0%nat - low n !!! 0%nat.
Proof.
  destruct n as [pt lo hi [cs|] m y r]; simpl; repeat split; try reflexivity.
  unfold kids. simpl. induction cs as [|[c|] cs IH]; simpl; auto.
  f_equal. exact IH.
Qed.

Lemma annotateExtent_annotated n :
  everyNode annotated n -> everyNode annotated (annotateExtent n).
Proof.
  induction n as [n IH] using node_induction. intros Hn.
  apply everyNode_kids in Hn. destruct Hn as [Hn Hkids].
  destruct (annotateExtent_fields n) as (Hm & Hy & Hp & Hl & Hk & _).
  apply everyNode_kids. split.
  - unfold annotated, childCells in Hn |- *. rewrite Hl, Hm, Hy, Hp, Hk.
    destruct (is_leaf n); [exact Hn|]. rewrite Hn. f_equal.
    rewrite foldr_plus_map. apply foldr_plus_ext.
    apply Forall_forall. intros c _.
    destruct (annotateExtent_fields c) as [Hc _]. symmetry. exact Hc.
  - rewrite Hk. apply Forall_fmap.
    apply Forall_forall. intros c Hc. simpl.
    rewrite Forall_forall in IH, Hkids.
    apply IH; [exact Hc|]. apply Hkids. exact Hc.
Qed.

Lemma pointsOf_length e Y : length (TSNE.pointsOf e Y) = TSNE.N e.
Proof.
  unfold TSNE.pointsOf.
  rewrite (for_snoc (TSNE.N e)
             (fun i => for_ (TSNE.dim e)
                         (fun d row => row ++ [Y !!! (i * TSNE.dim e + d)%nat]) [])).
  rewrite length_map, length_seq. reflexivity.
Qed.

(** C8 (as stated, refuted).  In the annotated tree of two points the
    root counts 2 although its only child counts 1: a node with children
    also counts the point it keeps. *)
Lemma annotation_counts_own_point :
  let root := fst (annotateTree 2 twoPointTree) in
  numCells root = 2%nat /\ childCells root = 1%nat /\
  ~ everyNode annotatedChildrenOnly root.
Proof.
  cbn zeta. split; [reflexivity|]. split; [reflexivity|].
  intros H. apply everyNode_kids in H. destruct H as [H _].
  unfold annotatedChildrenOnly in H. simpl in H. discriminate H.
Qed.

(** C8 (amended).  After the annotation pass every leaf has
    [numCells = 1] and [yCell] equal to its point, every node with
    children has [numCells] equal to 1 plus the sum of [numCells] over its
    non-null children, and the root's [numCells] is the number of nodes of
    the tree, which is [N] when the tree has one node for each embedded
    point. *)
Theorem annotateTree_numCells (dim : nat) (t : AugmSPNode) :
  let root := fst (annotateTree dim t) in
  everyNode annotated root /\
  numCells root = nodes t /\
  forall SP e Y,
    let tree := TSNE.treeOf SP e (TSNE.pointsOf e Y) in
    everyNode annotated tree /\
    (nodes (SP (TSNE.pointsOf e Y)) = length (TSNE.pointsOf e Y) ->
     numCells tree = TSNE.N e).
Proof.
  cbn zeta. destruct (annotateTree_counts dim t) as (_ & Hn & _ & _ & Ha).
  split; [exact Ha|]. split; [exact Hn|].
  intros SP e Y. unfold TSNE.treeOf.
  destruct (annotateTree_counts (TSNE.dim e) (SP (TSNE.pointsOf e Y)))
    as (_ & Hn' & _ & _ & Ha').
  split; [apply annotateExtent_annotated; exact Ha'|].
  intros Hnodes.
  destruct (annotateExtent_fields
              (fst (annotateTree (TSNE.dim e) (SP (TSNE.pointsOf e Y)))))
    as (Hm & _).
  rewrite Hm, Hn', Hnodes. apply pointsOf_length.
Qed.

Lemma annotateTree_numCells_witness :
  nodes (leafTree (TSNE.pointsOf (engineAt 0) [0; 0]))
  = length (TSNE.pointsOf (engineAt 0) [0; 0]) /\
  numCells (TSNE.treeOf leafTree (engineAt 0)
              (TSNE.pointsOf (engineAt 0) [0; 0])) = 1%nat.
Proof.
  split; [reflexivity|].
  destruct (annotateTree_numCells 2 twoPointTree) as (_ & _ & H).
  apply (H leafTree (engineAt 0) [0; 0]). reflexivity.
Defined.

(** ** The bound kernels *)

Lemma engineAt_bound t : bound (engineAt t).
Proof. left. repeat split; reflexivity. Qed.

Lemma bound_dist2 e a b : bound e -> TSNE.dist2 e a b = sqdist (TSNE.dim e) a b.
Proof.
  intros [(Hd & Hk & _)|(Hd & Hk & _)]; rewrite Hd, Hk;
    unfold dist2_2D, dist2_3D, sqdist; simpl; lra.
Qed.

Lemma bound_computeForce e F mult a b :
  bound e -> length F = TSNE.dim e ->
  length (TSNE.computeForce e F mult a b) = TSNE.dim e /\
  forall d, (d < TSNE.dim e)%nat ->
    TSNE.computeForce e F mult a b !!! d = F !!! d + mult * (a !!! d - b !!! d).
Proof.
  intros [(Hd & _ & Hk)|(Hd & _ & Hk)] HF; rewrite Hd, Hk in *;
    unfold computeForce_2d, computeForce_3d.
  - split; [rewrite !add_at_length; exact HF|].
    intros d Hlt. rewrite !add_at_lookup by (rewrite ?add_at_length; lia).
    destruct d as [|[|d]]; [reflexivity|reflexivity|lia].
  - split; [rewrite !add_at_length; exact HF|].
    intros d Hlt. rewrite !add_at_lookup by (rewrite ?add_at_length; lia).
    destruct d as [|[|[|d]]]; [reflexivity|reflexivity|reflexivity|lia].
Qed.

(** C2. In the repulsive pass, a visited node with centroid [c], count
    [m] and extent [r] that is a leaf, or for which [s2 > 0] and
    [r / sqrt s2 < 0.8] where [s2] is the squared distance from the query
    point to [c], adds [m q] to [Z] and [m q^2 (y_i - c)] to the force,
    [q = 1 / (1 + s2)], and the traversal does not descend.  Any other
    node adds the singleton term [1 / (1 + |y_i - node.point|^2)] to [Z]
    and the corresponding force term that uses [node.point], and the
    traversal then visits its children. *)
Theorem repulse_node (e : TSNE.t) (pointI : list R) (node : AugmSPNode)
    (Z : R) (F : list R) :
  bound e -> length F = TSNE.dim e ->
  let c := yCell node in
  let m := INR (numCells node) in
  let r := rCell node in
  let s2 := sqdist (TSNE.dim e) pointI c in
  let accepted := is_leaf node = true \/ (s2 > 0 /\ r / sqrt s2 < 8 / 10) in
  (accepted ->
   let q := 1 / (1 + s2) in
   exists F',
     TSNE.repulse e pointI node (Z, F) = ((Z + m * q, F'), true) /\
     length F' = TSNE.dim e /\
     (forall d, (d < TSNE.dim e)%nat ->
        F' !!! d = F !!! d + m * q * q * (pointI !!! d - c !!! d)) /\
     visit (TSNE.repulse e pointI) node (Z, F) = (Z + m * q, F')) /\
  (~ accepted ->
   let q := 1 / (1 + sqdist (TSNE.dim e) pointI (point node)) in
   exists F',
     TSNE.repulse e pointI node (Z, F) = ((Z + q, F'), false) /\
     length F' = TSNE.dim e /\
     (forall d, (d < TSNE.dim e)%nat ->
        F' !!! d = F !!! d + q * q * (pointI !!! d - point node !!! d)) /\
     visit (TSNE.repulse e pointI) node (Z, F)
     = foldl (fun s child => visit (TSNE.repulse e pointI) child s)
             (Z + q, F') (kids node)).
Proof.
  intros Hb HF c m r s2 accepted.
  assert (Hdec : (is_leaf node ||
                  (bool_decide (TSNE.dist2 e pointI (yCell node) > 0) &&
                   bool_decide (rCell node
                                / sqrt (TSNE.dist2 e pointI (yCell node)) < THETA)))
                 = true <-> accepted).
  { rewrite (bound_dist2 e pointI (yCell node) Hb). fold c s2 r.
    unfold accepted, THETA.
    rewrite orb_true_iff, andb_true_iff, !bool_decide_eq_true. tauto. }
  split.
  - intros Hacc q. apply Hdec in Hacc.
    destruct (bound_computeForce e F (m * q * q) pointI c Hb HF) as [Hlen Hval].
    exists (TSNE.computeForce e F (m * q * q) pointI c).
    assert (Hrep : TSNE.repulse e pointI node (Z, F)
                   = ((Z + m * q, TSNE.computeForce e F (m * q * q) pointI c), true)).
    { unfold TSNE.repulse. rewrite Hacc.
      rewrite (bound_dist2 e pointI (yCell node) Hb). reflexivity. }
    split; [exact Hrep|]. split; [exact Hlen|]. split; [exact Hval|].
    rewrite visit_kids, Hrep. rewrite orb_true_r. reflexivity.
  - intros Hrej q.
    assert (Hfalse : (is_leaf node ||
                  (bool_decide (TSNE.dist2 e pointI (yCell node) > 0) &&
                   bool_decide (rCell node
                                / sqrt (TSNE.dist2 e pointI (yCell node)) < THETA)))
                 = false).
    { apply not_true_is_false. intros H. apply Hrej, Hdec, H. }
    destruct (bound_computeForce e F (q * q) pointI (point node) Hb HF)
      as [Hlen Hval].
    exists (TSNE.computeForce e F (q * q) pointI (point node)).
    assert (Hrep : TSNE.repulse e pointI node (Z, F)
                   = ((Z + q, TSNE.computeForce e F (q * q) pointI (point node)),
                      false)).
    { unfold TSNE.repulse. rewrite Hfalse.
      rewrite (bound_dist2 e pointI (point node) Hb). reflexivity. }
    split; [exact Hrep|]. split; [exact Hlen|]. split; [exact Hval|].
    rewrite visit_kids, Hrep.
    apply orb_false_iff in Hfalse. destruct Hfalse as [Hleaf _].
    rewrite Hleaf. reflexivity.
Qed.

Lemma repulse_node_witness :
  exists F',
    TSNE.repulse (engineAt 0) [0; 0] (mkNode [0; 0] [] [] None 1 [0; 0] 0)
                 (0, [0; 0])
    = ((0 + INR 1 * (1 / (1 + sqdist 2 [0; 0] [0; 0])), F'), true).
Proof.
  destruct (repulse_node (engineAt 0) [0; 0]
              (mkNode [0; 0] [] [] None 1 [0; 0] 0) 0 [0; 0]
              (engineAt_bound 0) eq_refl) as [Hacc _].
  destruct (Hacc (or_introl eq_refl)) as (F' & Hrep & _).
  exists F'. exact Hrep.
Defined.

(** ** Distance kernels *)

Lemma for_sum n f : for_ n (fun i result => result + f i) 0 = sumn n f.
Proof.
  induction n as [|n IH]; [reflexivity|]. rewrite for_S, IH. reflexivity.
Qed.

(** C9 (as stated, refuted).  The kernels bound for 2 and 3 dimensions
    return a number on vectors of unequal length: they read the first 2
    (3) coordinates and make no check. *)
Lemma bound_kernels_make_no_check :
  length [1; 2] ≠ length [1; 2; 3] /\
  call_dist2_2D [1; 2] [1; 2; 3] = Returns 0 /\
  length [1; 2; 3] ≠ length [1; 2; 3; 4] /\
  call_dist2_3D [1; 2; 3] [1; 2; 3; 4] = Returns 0 /\
  ~ (checksLengths dist2 /\ checksLengths call_dist2_2D /\
     checksLengths call_dist2_3D).
Proof.
  assert (H2 : call_dist2_2D [1; 2] [1; 2; 3] = Returns 0).
  { unfold call_dist2_2D, dist2_2D. simpl. f_equal. lra. }
  assert (H3 : call_dist2_3D [1; 2; 3] [1; 2; 3; 4] = Returns 0).
  { unfold call_dist2_3D, dist2_3D. simpl. f_equal. lra. }
  split; [simpl; lia|]. split; [exact H2|].
  split; [simpl; lia|]. split; [exact H3|].
  intros (_ & Hc & _).
  destruct (Hc [1; 2] [1; 2; 3]) as [msg Hmsg]; [simpl; lia|].
  rewrite H2 in Hmsg. discriminate Hmsg.
Qed.

(** C9 (amended).  The generic kernel [dist2] fails with an error
    whenever its two vectors have unequal lengths, and returns the sum of
    the squared differences otherwise.  The kernels that the constructor
    binds, [dist2_2D] for 2 dimensions and [dist2_3D] for 3, make no
    check and never fail: on vectors that have at least 2 (3) coordinates
    each, of equal length or not, they return the sum of the squared
    differences of the first 2 (3) coordinates. *)
Theorem kernel_length_checks (a b : list R) :
  (length a ≠ length b -> fails dist2 a b) /\
  (length a = length b -> dist2 a b = Returns (sqdist (length a) a b)) /\
  ~ fails call_dist2_2D a b /\
  ~ fails call_dist2_3D a b /\
  ((2 <= length a)%nat -> (2 <= length b)%nat ->
   call_dist2_2D a b = Returns (sqdist 2 a b)) /\
  ((3 <= length a)%nat -> (3 <= length b)%nat ->
   call_dist2_3D a b = Returns (sqdist 3 a b)) /\
  forall MR opt e, TSNE.constructor MR opt = Returns e -> bound e.
Proof.
  split.
  { intros Hne. unfold fails, dist2. destruct (decide (length a ≠ length b));
      [eexists; reflexivity|tauto]. }
  split.
  { intros Heq. unfold dist2. destruct (decide (length a ≠ length b)); [tauto|].
    f_equal. unfold sqdist.
    apply (for_sum (length a)
             (fun i => (a !!! i - b !!! i) * (a !!! i - b !!! i))). }
  split.
  { intros [msg Hmsg]. discriminate Hmsg. }
  split.
  { intros [msg Hmsg]. discriminate Hmsg. }
  split.
  { intros _ _. unfold call_dist2_2D, dist2_2D, sqdist. simpl. f_equal. lra. }
  split.
  { intros _ _. unfold call_dist2_3D, dist2_3D, sqdist. simpl. f_equal. lra. }
  intros MR opt e. unfold TSNE.constructor.
  destruct (decide (_ = 2%nat)) as [H2|H2].
  - intros [= <-]. left. repeat split; try reflexivity. exact H2.
  - destruct (decide (_ = 3%nat)) as [H3|H3]; [|discriminate].
    intros [= <-]. right. repeat split; try reflexivity. exact H3.
Qed.

Lemma kernel_length_checks_witness :
  length [1; 2] ≠ length [1; 2; 3] /\ fails dist2 [1; 2] [1; 2; 3] /\
  (2 <= length [1; 2])%nat /\ (2 <= length [1; 2; 3])%nat /\
  call_dist2_2D [1; 2] [1; 2; 3] = Returns (sqdist 2 [1; 2] [1; 2; 3]).
Proof.
  destruct (kernel_length_checks [1; 2] [1; 2; 3])
    as (Hfails & _ & _ & _ & H2D & _).
  split; [simpl; lia|]. split; [apply Hfails; simpl; lia|].
  split; [simpl; lia|]. split; [simpl; lia|].
  apply H2D; simpl; lia.
Defined.

(** ** Kernel row of the calibrator *)

Lemma MIN_POSSIBLE_PROB_pos : 0 < MIN_POSSIBLE_PROB.
Proof. unfold MIN_POSSIBLE_PROB. lra. Qed.

Lemma rawProb_pos i beta nb : MIN_POSSIBLE_PROB <= rawProb i beta nb.
Proof. unfold rawProb. apply Rmax_r. Qed.

Lemma rawProb_self i beta d :
  rawProb i beta {| index := i; dist := d |} = MIN_POSSIBLE_PROB.
Proof.
  unfold rawProb. simpl. destruct (decide (i = i)); [|congruence].
  apply Rmax_right. unfold MIN_POSSIBLE_PROB. lra.
Qed.

(** ** Trials of the calibrator *)

Lemma js_write_in_range (a : list R) k v :
  (k < length a)%nat -> js_write a k v = <[k := v]> a.
Proof. intros H. unfold js_write. destruct (decide (k < length a)%nat); [reflexivity|lia]. Qed.

Lemma kernelRow_spec i beta neighbors pRow :
  length pRow = length neighbors ->
  let '(pRow', psum) := kernelRow i beta neighbors pRow in
  length pRow' = length neighbors /\
  (forall k, (k < length neighbors)%nat ->
     pRow' !!! k = rawProb i beta (neighbors !!! k)) /\
  psum = rowSum i beta neighbors.
Proof.
  intros Hlen. unfold kernelRow, rowSum.
  pose proof (for_invariant
    (fun k (s : list R * R) =>
       length (fst s) = length neighbors /\
       (forall k', (k' < k)%nat ->
          fst s !!! k' = rawProb i beta (neighbors !!! k')) /\
       snd s = sumn k (fun k => rawProb i beta (neighbors !!! k)))
    (length neighbors)
    (fun k '(pRow, psum) =>
       let neighbor := neighbors !!! k in
       let pij := rawProb i beta neighbor in
       (js_write pRow k pij, psum + pij))
    (pRow, 0)) as Hinv.
  destruct (for_ _ _ _) as [pRow' psum].
  apply Hinv; clear Hinv.
  - simpl. split; [exact Hlen|]. split; [intros; lia|reflexivity].
  - intros k [p s] Hk (Hl & Hv & Hs). simpl in *.
    rewrite js_write_in_range by lia. split; [rewrite length_insert; exact Hl|].
    split.
    + intros k' Hk'. rewrite insert_lookup_R by lia.
      destruct (decide (k' = k)) as [->|Hne]; [reflexivity|].
      apply Hv. lia.
    + rewrite Hs. reflexivity.
Qed.

Lemma entropyRow_spec pRow psum :
  let pRow' := fst (entropyRow pRow psum) in
  length pRow' = length pRow /\
  forall k, (k < length pRow)%nat -> pRow' !!! k = pRow !!! k / psum.
Proof.
  unfold entropyRow.
  pose proof (for_invariant
    (fun k (s : list R * R) =>
       length (fst s) = length pRow /\
       forall k', (k' < length pRow)%nat ->
         fst s !!! k' = if decide (k' < k)%nat then pRow !!! k' / psum
                        else pRow !!! k')
    (length pRow)
    (fun k '(pRow, Hhere) =>
       let pRow := <[k := pRow !!! k / psum]> pRow in
       let pij := pRow !!! k in
       (pRow, if decide (pij > 1 / 10000000) then Hhere - pij * ln pij
              else Hhere))
    (pRow, 0)) as Hinv.
  destruct (for_ _ _ _) as [pRow' Hhere]. simpl.
  destruct Hinv as [Hl Hv].
  - simpl. split; [reflexivity|]. intros k' Hk'.
    destruct (decide (k' < 0)%nat); [lia|reflexivity].
  - intros k [p h] Hk (Hl & Hv). simpl in *.
    split; [rewrite length_insert; exact Hl|].
    intros k' Hk'. rewrite insert_lookup_R by lia.
    destruct (decide (k' = k)) as [->|Hne].
    + rewrite (Hv k Hk'). destruct (decide (k < k)%nat); [lia|].
      destruct (decide (k < S k)%nat); [reflexivity|lia].
    + rewrite (Hv k' Hk').
      destruct (decide (k' < k)%nat), (decide (k' < S k)%nat);
        try lia; reflexivity.
  - simpl in *. split; [exact Hl|]. intros k Hk. rewrite (Hv k Hk).
    destruct (decide (k < length pRow)%nat); [reflexivity|lia].
Qed.

(** Every trial leaves in [pRow] the normalized kernel row of its
    precision. *)
Lemma trial_normalized i beta neighbors pRow :
  length pRow = length neighbors ->
  normalizedRow i neighbors
    (fst (entropyRow (fst (kernelRow i beta neighbors pRow))
                     (snd (kernelRow i beta neighbors pRow)))).
Proof.
  intros Hlen. pose proof (kernelRow_spec i beta neighbors pRow Hlen) as Hk.
  destruct (kernelRow i beta neighbors pRow) as [pRow1 psum].
  destruct Hk as (Hl1 & Hv1 & Hs). simpl.
  destruct (entropyRow_spec pRow1 psum) as [Hl2 Hv2].
  split; [rewrite Hl2; exact Hl1|].
  exists beta. intros k Hk. rewrite Hv2 by lia. rewrite Hv1 by lia.
  rewrite Hs. reflexivity.
Qed.

Lemma searchBeta_normalized rem i neighbors Htarget tol beta betaMin betaMax pRow :
  (0 < rem)%nat -> length pRow = length neighbors ->
  normalizedRow i neighbors
    (searchBeta rem i neighbors Htarget tol beta betaMin betaMax pRow).
Proof.
  revert beta betaMin betaMax pRow.
  induction rem as [|rem IH]; intros beta betaMin betaMax pRow Hrem Hlen; [lia|].
  simpl. pose proof (trial_normalized i beta neighbors pRow Hlen) as Htrial.
  destruct (kernelRow i beta neighbors pRow) as [pRow1 psum].
  simpl in Htrial.
  destruct (entropyRow pRow1 psum) as [pRow2 Hhere]. simpl in Htrial.
  destruct (decide (Hhere > Htarget));
    (destruct (decide (rem = 0%nat \/ Rabs (Hhere - Htarget) < tol)) as [Hstop|Hgo];
     [exact Htrial|]);
    (apply IH; [lia|apply Htrial]).
Qed.

Lemma rowSum_pos i beta neighbors :
  (1 <= length neighbors)%nat -> 0 < rowSum i beta neighbors.
Proof.
  intros HK. unfold rowSum.
  assert (H : forall n, INR n * MIN_POSSIBLE_PROB
                        <= sumn n (fun k => rawProb i beta (neighbors !!! k))).
  { induction n as [|n IHn]; [simpl; lra|].
    rewrite S_INR. simpl. pose proof (rawProb_pos i beta (neighbors !!! n)). lra. }
  pose proof (H (length neighbors)) as Hn.
  assert (1 <= INR (length neighbors)) by (change 1 with (INR 1); apply le_INR; lia).
  pose proof MIN_POSSIBLE_PROB_pos. nra.
Qed.

Lemma normalizedRow_sum i neighbors pRow :
  (1 <= length neighbors)%nat -> normalizedRow i neighbors pRow ->
  sumn (length neighbors) (fun k => pRow !!! k) = 1.
Proof.
  intros HK [Hlen [beta Hv]].
  rewrite (sumn_ext _ _ (fun k => rawProb i beta (neighbors !!! k)
                                  * / rowSum i beta neighbors))
    by (intros k Hk; rewrite Hv by exact Hk; reflexivity).
  rewrite sumn_scale. fold (rowSum i beta neighbors).
  pose proof (rowSum_pos i beta neighbors HK). field. lra.
Qed.

(** ** Symmetrization *)

Lemma for_range_invariant {S : Type} (I : nat -> S -> Prop) (lo hi : nat)
    (body : nat -> S -> S) (s : S) :
  (lo <= hi)%nat -> I lo s ->
  (forall j s, (lo <= j < hi)%nat -> I j s -> I (Datatypes.S j) (body j s)) ->
  I hi (for_range lo hi body s).
Proof.
  intros Hle H0 Hstep. induction hi as [|hi IH].
  - assert (lo = 0%nat) by lia. subst. rewrite for_range_empty by lia. exact H0.
  - destruct (decide (lo = Datatypes.S hi)) as [->|Hne].
    + rewrite for_range_empty by lia. exact H0.
    + rewrite for_range_S by lia. apply Hstep; [lia|].
      apply IH; [lia|]. intros j s' Hj. apply Hstep. lia.
Qed.

Lemma symInv_change N P0 i j i' j' P :
  (forall a b, (a < N)%nat -> (b < N)%nat ->
     symTouched i j a b <-> symTouched i' j' a b) ->
  symInv N P0 i j P -> symInv N P0 i' j' P.
Proof.
  intros Heq [Hlen Hval]. split; [exact Hlen|].
  intros a b Ha Hb. rewrite (Hval a b Ha Hb).
  destruct (decide (symTouched i j a b)) as [H|H],
           (decide (symTouched i' j' a b)) as [H'|H'];
    try reflexivity; exfalso; apply (Heq a b Ha Hb) in H || apply (Heq a b Ha Hb) in H'; tauto.
Qed.

Lemma symInv_pair N P0 i j P :
  length P0 = (N * N)%nat -> (i < j)%nat -> (j < N)%nat ->
  symInv N P0 i j P ->
  symInv N P0 i (S j)
    (<[(j * N + i)%nat := (P !!! (i * N + j)%nat + P !!! (j * N + i)%nat)
                          / INR (N * 2)]>
       (<[(i * N + j)%nat := (P !!! (i * N + j)%nat + P !!! (j * N + i)%nat)
                             / INR (N * 2)]> P)).
Proof.
  intros HP0 Hij HjN [Hlen Hval].
  assert (Hi : (i < N)%nat) by lia.
  assert (Huntouched : ~ symTouched i j i j /\ ~ symTouched i j j i).
  { unfold symTouched, reached. split; intros H; lia. }
  pose proof (Hval i j Hi HjN) as Hij_v. pose proof (Hval j i HjN Hi) as Hji_v.
  destruct (decide (symTouched i j i j)); [tauto|].
  destruct (decide (symTouched i j j i)); [tauto|].
  rewrite Hij_v, Hji_v.
  split; [rewrite !length_insert; exact Hlen|].
  intros a b Ha Hb.
  rewrite insert_lookup_R
    by (rewrite length_insert, Hlen, HP0; apply flat_index_lt; assumption).
  rewrite insert_lookup_R
    by (rewrite Hlen, HP0; apply flat_index_lt; assumption).
  destruct (decide ((a * N + b)%nat = (j * N + i)%nat)) as [Heq|Hne1].
  { apply flat_index_inj in Heq; [|lia|lia]. destruct Heq as [-> ->].
    destruct (decide (symTouched i (S j) j i)) as [_|Hn].
    - rewrite Nat.min_r, Nat.max_l by lia. reflexivity.
    - exfalso. apply Hn. unfold symTouched, reached. lia. }
  destruct (decide ((a * N + b)%nat = (i * N + j)%nat)) as [Heq|Hne2].
  { apply flat_index_inj in Heq; [|lia|lia]. destruct Heq as [-> ->].
    destruct (decide (symTouched i (S j) i j)) as [_|Hn].
    - rewrite Nat.min_l, Nat.max_r by lia. reflexivity.
    - exfalso. apply Hn. unfold symTouched, reached. lia. }
  rewrite (Hval a b Ha Hb).
  assert (Hab : ~ (a = j /\ b = i) /\ ~ (a = i /\ b = j)).
  { split; intros [-> ->]; congruence. }
  destruct (decide (symTouched i j a b)) as [H|H],
           (decide (symTouched i (S j) a b)) as [H'|H'];
    try reflexivity; exfalso; unfold symTouched, reached in *; lia.
Qed.

Lemma symmetrize_inv N P0 :
  length P0 = (N * N)%nat -> symInv N P0 N (S N) (symmetrize N P0).
Proof.
  intros HP0. unfold symmetrize.
  apply (symInv_change N P0 N 0).
  { intros a b Ha Hb. unfold symTouched, reached. lia. }
  apply (for_invariant (fun i P => symInv N P0 i 0 P)).
  - split; [reflexivity|]. intros a b _ _.
    destruct (decide (symTouched 0 0 a b)) as [H|_]; [|reflexivity].
    exfalso. unfold symTouched, reached in H. lia.
  - intros i P Hi HInv.
    apply (symInv_change N P0 i N).
    { intros a b Ha Hb. unfold symTouched, reached. lia. }
    apply (for_range_invariant (fun j P => symInv N P0 i j P)); [lia| |].
    + apply (symInv_change N P0 i 0); [|exact HInv].
      intros a b Ha Hb. unfold symTouched, reached. lia.
    + intros j P' Hj HP'. apply symInv_pair; [exact HP0|lia|lia|exact HP'].
Qed.

(** The symmetrized matrix, entry by entry. *)
Lemma symmetrize_lookup N P0 a b :
  length P0 = (N * N)%nat -> (a < N)%nat -> (b < N)%nat ->
  symmetrize N P0 !!! (a * N + b)%nat
  = if decide (a = b) then P0 !!! (a * N + b)%nat
    else (P0 !!! (a * N + b)%nat + P0 !!! (b * N + a)%nat) / INR (N * 2).
Proof.
  intros HP0 Ha Hb. destruct (symmetrize_inv N P0 HP0) as [_ Hval].
  rewrite (Hval a b Ha Hb).
  destruct (decide (a = b)) as [->|Hne].
  - destruct (decide (symTouched N (S N) b b)) as [H|_]; [|reflexivity].
    exfalso. unfold symTouched in H. lia.
  - destruct (decide (symTouched N (S N) a b)) as [_|H].
    + destruct (Nat.lt_ge_cases a b).
      * rewrite Nat.min_l, Nat.max_r by lia. reflexivity.
      * rewrite Nat.min_r, Nat.max_l by lia. f_equal. lra.
    + exfalso. apply H. unfold symTouched, reached. lia.
Qed.

Lemma symmetrize_length N P0 :
  length P0 = (N * N)%nat -> length (symmetrize N P0) = (N * N)%nat.
Proof.
  intros HP0. destruct (symmetrize_inv N P0 HP0) as [Hlen _]. lia.
Qed.

(** ** Loops that can throw *)

Lemma forM_invariant {S : Type} (I : nat -> S -> Prop) (n : nat)
    (body : nat -> S -> outcome S) (s r : S) :
  I 0%nat s ->
  (forall i s s', (i < n)%nat -> I i s -> body i s = Returns s' ->
                  I (Datatypes.S i) s') ->
  forM n body s = Returns r -> I n r.
Proof.
  intros H0 Hstep. revert r. induction n as [|n IH]; intros r Hr.
  - rewrite forM_0 in Hr. injection Hr as <-. exact H0.
  - rewrite forM_S in Hr.
    destruct (forM n body s) as [s'|msg] eqn:Hrun; [|discriminate Hr].
    simpl in Hr. apply (Hstep n s' r); [lia| |exact Hr].
    apply IH; [|reflexivity]. intros i s0 s1 Hi. apply Hstep. lia.
Qed.

Lemma forM_returns {S : Type} (I : nat -> S -> Prop) (n : nat)
    (body : nat -> S -> outcome S) (s : S) :
  I 0%nat s ->
  (forall i s, (i < n)%nat -> I i s ->
     exists s', body i s = Returns s' /\ I (Datatypes.S i) s') ->
  exists r, forM n body s = Returns r /\ I n r.
Proof.
  intros H0 Hstep. induction n as [|n IH].
  - exists s. split; [reflexivity|exact H0].
  - destruct IH as (s' & Hrun & Hs'); [intros i s0 Hi; apply Hstep; lia|].
    destruct (Hstep n s' (Nat.lt_succ_diag_r n) Hs') as (r & Hbody & Hr).
    exists r. rewrite forM_S, Hrun. split; [exact Hbody|exact Hr].
Qed.

(** ** Copy of a row *)

Lemma copyRow_length N i neighbors pRow P P' :
  copyRow N i neighbors pRow P = Returns P' -> length P' = length P.
Proof.
  unfold copyRow.
  apply (forM_invariant (fun _ Q => length Q = length P)); [reflexivity|].
  intros k Q Q' _ HQ. destruct (neighbors !! k) as [nb|]; [|discriminate].
  intros [= <-]. rewrite length_insert. exact HQ.
Qed.

Lemma sumn_update n f j0 v :
  (j0 < n)%nat ->
  sumn n (fun b => if decide (b = j0) then v else f b) = sumn n f - f j0 + v.
Proof.
  induction n as [|n IH]; intros Hj; [lia|]. simpl.
  destruct (decide (n = j0)) as [->|Hne].
  - rewrite (sumn_ext j0 _ f); [lra|].
    intros b Hb. destruct (decide (b = j0)); [lia|reflexivity].
  - rewrite IH by lia. lra.
Qed.

Lemma copyRow_spec N i neighbors pRow P :
  (i < N)%nat -> length P = (N * N)%nat ->
  length pRow = length neighbors ->
  (forall b, (b < N)%nat -> P !!! (i * N + b)%nat = 0) ->
  (forall k, (k < length neighbors)%nat -> (index (neighbors !!! k) < N)%nat) ->
  (forall k k', (k < length neighbors)%nat -> (k' < length neighbors)%nat ->
     index (neighbors !!! k) = index (neighbors !!! k') -> k = k') ->
  exists P', copyRow N i neighbors pRow P = Returns P' /\
             copyInv N i neighbors pRow P (length neighbors) P'.
Proof.
  intros Hi HP Hlen Hzero Hrange Hdistinct. unfold copyRow. rewrite Hlen.
  apply (forM_returns (fun k Q => copyInv N i neighbors pRow P k Q)).
  - split; [reflexivity|]. split; [reflexivity|].
    split; [reflexivity|]. simpl. lra.
  - intros k Q Hk (HQlen & Hother & Hfresh & Hsum).
    destruct (lookup_lt_is_Some_2 neighbors k Hk) as [nb Hnb].
    rewrite Hnb. eexists. split; [reflexivity|].
    pose proof (list_lookup_total_correct _ _ _ Hnb) as Hnb'.
    assert (Hj : (index nb < N)%nat) by (rewrite <- Hnb'; apply Hrange; exact Hk).
    assert (Hflat : (i * N + index nb < length Q)%nat)
      by (rewrite HQlen, HP; apply flat_index_lt; assumption).
    split; [rewrite length_insert; exact HQlen|].
    split.
    { intros a b Ha Hb Hne. rewrite insert_lookup_R by exact Hflat.
      destruct (decide ((a * N + b)%nat = (i * N + index nb)%nat)) as [Heq|_].
      - apply flat_index_inj in Heq; [tauto|assumption|assumption].
      - apply Hother; assumption. }
    split.
    { intros b Hb Hnew. rewrite insert_lookup_R by exact Hflat.
      destruct (decide ((i * N + b)%nat = (i * N + index nb)%nat)) as [Heq|_].
      - exfalso. apply (Hnew k); [lia|]. rewrite Hnb'. lia.
      - apply Hfresh; [exact Hb|]. intros k' Hk'. apply Hnew. lia. }
    rewrite (sumn_ext N _ (fun b => if decide (b = index nb) then pRow !!! k
                                    else Q !!! (i * N + b)%nat)).
    2:{ intros b Hb. rewrite insert_lookup_R by exact Hflat.
        destruct (decide ((i * N + b)%nat = (i * N + index nb)%nat)),
                 (decide (b = index nb)); try lia; reflexivity. }
    rewrite sumn_update by exact Hj. rewrite Hsum. simpl.
    rewrite (Hfresh (index nb) Hj).
    2:{ intros k' Hk' Heq. rewrite <- Hnb' in Heq.
        apply Hdistinct in Heq; lia. }
    rewrite (Hzero (index nb) Hj). lra.
Qed.

(** ** The rows of the calibrated matrix *)

Lemma zeros_lookup n x : zeros n !!! x = 0.
Proof.
  unfold zeros. revert x. induction n as [|n IH]; intros x; [reflexivity|].
  destruct x as [|x]; [reflexivity|]. simpl. apply IH.
Qed.

Lemma zeros_length n : length (zeros n) = n.
Proof. apply length_replicate. Qed.

Lemma calibrateRows_length nearest Htarget tol K P pRow :
  calibrateRows nearest Htarget tol K = Returns (P, pRow) ->
  length P = (length nearest * length nearest)%nat.
Proof.
  unfold calibrateRows.
  apply (forM_invariant
           (fun _ (s : list R * list R) =>
              length (fst s) = (length nearest * length nearest)%nat)).
  - simpl. apply zeros_length.
  - intros i [Q q] [Q' q'] _ HQ. simpl in *.
    destruct (copyRow _ _ _ _ _) as [Q1|msg] eqn:Hcopy; [|discriminate].
    simpl. intros [= <- <-]. rewrite (copyRow_length _ _ _ _ _ _ Hcopy). exact HQ.
Qed.

Lemma calibrateRows_proper nearest Htarget tol K :
  validKnn nearest K -> properKnn nearest K ->
  exists s, calibrateRows nearest Htarget tol K = Returns s /\
            rowsInv (length nearest) K (length nearest) s.
Proof.
  intros (HN & HK & Hrows) Hproper. unfold calibrateRows.
  set (N := length nearest) in *.
  apply (forM_returns (fun i s => rowsInv N K i s)).
  - split; [apply zeros_length|]. split; [apply length_replicate|].
    intros a Ha. destruct (decide (a < 0)%nat); [lia|].
    intros b Hb. apply zeros_lookup.
  - intros i [P pRow] Hi (HP & HpRow & Hinv).
    destruct (Hrows i Hi) as [HrowK Hrange].
    destruct (Hproper i Hi) as [Hnoself Hdistinct].
    set (neighbors := nearest !!! i) in *.
    set (pRow' := searchBeta 50 i neighbors Htarget tol 1 None None pRow).
    assert (Hnorm : normalizedRow i neighbors pRow').
    { apply searchBeta_normalized; [lia|]. rewrite HpRow, HrowK. reflexivity. }
    assert (Hzero : forall b, (b < N)%nat -> P !!! (i * N + b)%nat = 0).
    { pose proof (Hinv i Hi) as H. destruct (decide (i < i)%nat); [lia|]. exact H. }
    destruct (copyRow_spec N i neighbors pRow' P Hi HP (proj1 Hnorm) Hzero)
      as (P' & Hcopy & HP'len & Hother & Hfresh & Hsum).
    { intros k Hk. apply Hrange. rewrite <- HrowK. exact Hk. }
    { intros k k' Hk Hk'. apply Hdistinct; rewrite <- HrowK; assumption. }
    exists (P', pRow'). rewrite Hcopy. split; [reflexivity|].
    split; [rewrite HP'len; exact HP|].
    split; [rewrite (proj1 Hnorm); exact HrowK|].
    intros a Ha. specialize (Hinv a Ha).
    destruct (decide (a < S i)%nat) as [Hlt|Hge].
    + destruct (decide (a = i)) as [->|Hne].
      * split.
        -- rewrite Hsum. rewrite (sumn_zero N) by exact Hzero.
           rewrite (normalizedRow_sum i neighbors pRow') by (rewrite ?HrowK; assumption).
           lra.
        -- rewrite Hfresh; [apply Hzero; exact Hi|exact Hi|].
           intros k' Hk'. apply Hnoself. rewrite <- HrowK. exact Hk'.
      * destruct (decide (a < i)%nat); [|lia]. destruct Hinv as [Hs Hd].
        split.
        -- rewrite <- Hs. apply sumn_ext. intros b Hb. apply Hother; assumption.
        -- rewrite <- Hd. apply Hother; assumption.
    + destruct (decide (a < i)%nat); [lia|].
      intros b Hb. rewrite Hother by (try assumption; lia). apply Hinv. exact Hb.
Qed.

(** ** Mass of the symmetrized matrix *)

Lemma sumn_swap n m (f : nat -> nat -> R) :
  sumn n (fun a => sumn m (fun b => f a b))
  = sumn m (fun b => sumn n (fun a => f a b)).
Proof.
  induction n as [|n IH]; simpl.
  - rewrite sumn_zero; [reflexivity|]. intros; reflexivity.
  - rewrite IH, <- sumn_plus. reflexivity.
Qed.

Lemma symmetrize_mass N P :
  (1 <= N)%nat -> length P = (N * N)%nat ->
  (forall a, (a < N)%nat ->
     sumn N (fun b => P !!! (a * N + b)%nat) = 1 /\ P !!! (a * N + a)%nat = 0) ->
  totalMass N (symmetrize N P) = 1.
Proof.
  intros HN HP Hrows. unfold totalMass.
  assert (HNR : INR N <> 0) by (apply not_0_INR; lia).
  rewrite (sumn_ext N _ (fun a => sumn N (fun b => P !!! (a * N + b)%nat) * / INR (N * 2)
                                  + sumn N (fun b => P !!! (b * N + a)%nat) * / INR (N * 2))).
  2:{ intros a Ha. rewrite <- !sumn_scale, <- sumn_plus.
      apply sumn_ext. intros b Hb. rewrite symmetrize_lookup by assumption.
      destruct (decide (a = b)) as [->|Hne]; [|field; rewrite mult_INR; simpl; lra].
      destruct (Hrows b Hb) as [_ Hd]. rewrite Hd. lra. }
  rewrite sumn_plus, !sumn_scale.
  rewrite (sumn_swap N N (fun a b => P !!! (b * N + a)%nat)).
  rewrite (sumn_ext N _ (fun _ => 1)) by (intros a Ha; apply (Hrows a Ha)).
  rewrite sumn_const, mult_INR. simpl. field. exact HNR.
Qed.

(** ** The calibrator *)

Lemma nearest2P_unfold nearest perplexity tol P :
  nearest2P nearest perplexity tol = Returns P ->
  exists Praw pRow,
    calibrateRows nearest (ln perplexity) tol (length (nearest !!! 0%nat))
    = Returns (Praw, pRow) /\
    P = symmetrize (length nearest) Praw.
Proof.
  unfold nearest2P. destruct (nearest !! 0%nat) as [row0|] eqn:Hrow0; [|discriminate].
  rewrite (list_lookup_total_correct _ _ _ Hrow0).
  destruct (calibrateRows _ _ _ _) as [[Praw pRow]|msg]; [|discriminate].
  simpl. intros [= <-]. exists Praw, pRow. split; reflexivity.
Qed.

(** C5. When the calibrator returns, the matrix is symmetric:
    [P[i,j] = P[j,i]] for all [i], [j], and each pair [i < j] holds
    [(P_raw[i,j] + P_raw[j,i]) / (2 N)], where [P_raw] is the matrix of
    the calibrated rows. *)
Theorem nearest2P_symmetric (nearest : list (list Neighbor))
    (perplexity tol : R) (P : list R) :
  nearest2P nearest perplexity tol = Returns P ->
  let N := length nearest in
  exists Praw pRow,
    calibrateRows nearest (ln perplexity) tol (length (nearest !!! 0%nat))
    = Returns (Praw, pRow) /\
    forall i j, (i < N)%nat -> (j < N)%nat ->
      P !!! (i * N + j)%nat = P !!! (j * N + i)%nat /\
      ((i < j)%nat ->
       P !!! (i * N + j)%nat
       = (Praw !!! (i * N + j)%nat + Praw !!! (j * N + i)%nat) / (2 * INR N)).
Proof.
  intros Hret N. destruct (nearest2P_unfold _ _ _ _ Hret) as (Praw & pRow & Hrows & ->).
  exists Praw, pRow. split; [exact Hrows|].
  pose proof (calibrateRows_length _ _ _ _ _ _ Hrows) as Hlen. fold N in Hlen.
  intros i j Hi Hj. fold N.
  rewrite !symmetrize_lookup by assumption. split.
  - destruct (decide (i = j)) as [Heq|Hne], (decide (j = i)) as [Heq'|Hne'];
      try congruence.
    f_equal. lra.
  - intros Hlt. destruct (decide (i = j)); [lia|].
    rewrite mult_INR. simpl. f_equal. lra.
Qed.

Lemma nearest2P_proper nearest K perplexity tol :
  validKnn nearest K -> properKnn nearest K ->
  exists P, nearest2P nearest perplexity tol = Returns P /\
            totalMass (length nearest) P = 1.
Proof.
  intros Hvalid Hproper.
  pose proof Hvalid as (HN & HK & Hrows).
  destruct (lookup_lt_is_Some_2 nearest 0%nat) as [row0 Hrow0]; [lia|].
  pose proof (list_lookup_total_correct _ _ _ Hrow0) as Hrow0'.
  destruct (Hrows 0%nat) as [HK0 _]; [lia|]. rewrite Hrow0' in HK0.
  destruct (calibrateRows_proper nearest (ln perplexity) tol K Hvalid Hproper)
    as ([Praw pRow] & Hcal & HPlen & _ & Hinv).
  exists (symmetrize (length nearest) Praw). split.
  - unfold nearest2P. rewrite Hrow0, HK0, Hcal. reflexivity.
  - apply symmetrize_mass; [exact HN|exact HPlen|].
    intros a Ha. specialize (Hinv a Ha).
    destruct (decide (a < length nearest)%nat); [exact Hinv|lia].
Qed.

Lemma mutualKnn_valid : validKnn mutualKnn 1 /\ properKnn mutualKnn 1.
Proof.
  split.
  - split; [simpl; lia|]. split; [lia|].
    intros [|[|i]] Hi; simpl in Hi; try lia;
      (split; [reflexivity|]); intros [|k] Hk; simpl; lia.
  - intros [|[|i]] Hi; simpl in Hi; try lia;
      (split; [intros [|k] Hk; simpl; lia|]);
      intros [|k] [|k'] Hk Hk'; simpl; lia.
Qed.

Lemma nearest2P_symmetric_witness :
  exists P, nearest2P mutualKnn 30 (1 / 10000) = Returns P /\
            P !!! (0 * 2 + 1)%nat = P !!! (1 * 2 + 0)%nat.
Proof.
  destruct (nearest2P_proper mutualKnn 1 30 (1 / 10000)
              (proj1 mutualKnn_valid) (proj2 mutualKnn_valid)) as (P & HP & _).
  exists P. split; [exact HP|].
  destruct (nearest2P_symmetric mutualKnn 30 (1 / 10000) P HP)
    as (Praw & pRow & _ & Hsym).
  apply (Hsym 0%nat 1%nat); simpl; lia.
Defined.

(** C6 (amended).  For a valid neighbour table (at least one row, the
    same number [K >= 1] of neighbours in every row, every index below
    [N]) in which no row lists its own point and no row lists a point
    twice, the calibrator returns a matrix whose entries sum to 1. *)
Theorem nearest2P_mass (nearest : list (list Neighbor)) (K : nat)
    (perplexity tol : R) :
  validKnn nearest K -> properKnn nearest K ->
  exists P, nearest2P nearest perplexity tol = Returns P /\
            totalMass (length nearest) P = 1 /\
            Rabs (totalMass (length nearest) P - 1) <= 1 / 1000000000.
Proof.
  intros Hvalid Hproper.
  destruct (nearest2P_proper nearest K perplexity tol Hvalid Hproper)
    as (P & HP & Hmass).
  exists P. split; [exact HP|]. split; [exact Hmass|].
  rewrite Hmass. replace (1 - 1) with 0 by lra. rewrite Rabs_R0. lra.
Qed.

Lemma nearest2P_mass_witness :
  validKnn mutualKnn 1 /\ properKnn mutualKnn 1 /\
  exists P, nearest2P mutualKnn 30 (1 / 10000) = Returns P /\
            totalMass 2 P = 1.
Proof.
  split; [apply mutualKnn_valid|]. split; [apply mutualKnn_valid|].
  destruct (nearest2P_mass mutualKnn 1 30 (1 / 10000)
              (proj1 mutualKnn_valid) (proj2 mutualKnn_valid))
    as (P & HP & Hmass & _).
  exists P. split; [exact HP|exact Hmass].
Defined.

(** ** The calibrator on sample tables *)

Lemma rawProb_zero_dist i j beta :
  i ≠ j -> rawProb i beta {| index := j; dist := 0 |} = 1.
Proof.
  intros Hne. unfold rawProb. simpl. destruct (decide (i = j)); [tauto|].
  replace (- 0 * beta) with 0 by lra. rewrite exp_0.
  apply Rmax_left. unfold MIN_POSSIBLE_PROB. lra.
Qed.

(** A row that lists another point twice at distance 0 is calibrated to
    one half for each entry, whatever the precision. *)
Lemma searchBeta_twice i j Htarget tol pRow :
  i ≠ j -> length pRow = 2%nat ->
  searchBeta 50 i [{| index := j; dist := 0 |}; {| index := j; dist := 0 |}]
             Htarget tol 1 None None pRow
  = [1 / 2; 1 / 2].
Proof.
  intros Hne Hlen.
  destruct (searchBeta_normalized 50 i
              [{| index := j; dist := 0 |}; {| index := j; dist := 0 |}]
              Htarget tol 1 None None pRow) as [Hl [beta Hv]]; [lia|exact Hlen|].
  destruct (searchBeta _ _ _ _ _ _ _ _ _) as [|a [|b [|c l]]]; try discriminate Hl.
  pose proof (Hv 0%nat) as H0. pose proof (Hv 1%nat) as H1.
  unfold rowSum in H0, H1. simpl in H0, H1.
  rewrite !rawProb_zero_dist in H0, H1 by exact Hne.
  rewrite H0, H1 by lia. f_equal; [lra|]. f_equal. lra.
Qed.

(** A row that lists only its own point is calibrated to 1. *)
Lemma searchBeta_self i d Htarget tol pRow :
  length pRow = 1%nat ->
  searchBeta 50 i [{| index := i; dist := d |}] Htarget tol 1 None None pRow
  = [1].
Proof.
  intros Hlen.
  destruct (searchBeta_normalized 50 i [{| index := i; dist := d |}]
              Htarget tol 1 None None pRow) as [Hl [beta Hv]]; [lia|exact Hlen|].
  destruct (searchBeta _ _ _ _ _ _ _ _ _) as [|a [|b l]]; try discriminate Hl.
  pose proof (Hv 0%nat) as H0.
  unfold rowSum in H0. simpl in H0. rewrite !rawProb_self in H0.
  rewrite H0 by lia. f_equal. unfold MIN_POSSIBLE_PROB. lra.
Qed.

Lemma twiceListed_rows Htarget tol :
  calibrateRows twiceListed Htarget tol 2
  = Returns ([0; 1 / 2; 1 / 2; 0], [1 / 2; 1 / 2]).
Proof.
  unfold calibrateRows. change (length twiceListed) with 2%nat.
  rewrite !forM_S, forM_0.
  unfold mbind, outcome_bind. cbv beta iota.
  change (twiceListed !!! 0%nat)
    with [{| index := 1; dist := 0 |}; {| index := 1; dist := 0 |}].
  rewrite (searchBeta_twice 0 1) by (simpl; lia || reflexivity).
  change (twiceListed !!! 1%nat)
    with [{| index := 0; dist := 0 |}; {| index := 0; dist := 0 |}].
  change (copyRow 2 0 [{| index := 1; dist := 0 |}; {| index := 1; dist := 0 |}]
            [1 / 2; 1 / 2] (zeros (2 * 2)))
    with (Returns (A := list R) [0; 1 / 2; 0; 0]).
  cbv beta iota.
  rewrite (searchBeta_twice 1 0) by (simpl; lia || reflexivity).
  reflexivity.
Qed.

Lemma twiceListed_valid : validKnn twiceListed 2.
Proof.
  split; [simpl; lia|]. split; [lia|].
  intros [|[|i]] Hi; simpl in Hi; try lia;
    (split; [reflexivity|]); intros [|[|k]] Hk; simpl; lia.
Qed.

(** C6 (as stated, refuted).  The table in which each of two points
    lists the other one twice is valid (two rows, two neighbours in every
    row, indices 0 and 1), yet the entries of the matrix the calibrator
    returns sum to one half: the second entry of a row overwrites the
    first. *)
Lemma mass_of_twice_listed :
  validKnn twiceListed 2 /\
  nearest2P twiceListed 30 (1 / 10000) = Returns [0; 1 / 4; 1 / 4; 0] /\
  totalMass 2 [0; 1 / 4; 1 / 4; 0] = 1 / 2 /\
  ~ Rabs (totalMass 2 [0; 1 / 4; 1 / 4; 0] - 1) <= 1 / 1000000000.
Proof.
  assert (Hmass : totalMass 2 [0; 1 / 4; 1 / 4; 0] = 1 / 2).
  { unfold totalMass. simpl. lra. }
  split; [exact twiceListed_valid|]. split; [|split; [exact Hmass|]].
  - unfold nearest2P. change (twiceListed !! 0%nat)
      with (Some [{| index := 1; dist := 0 |}; {| index := 1; dist := 0 |}]).
    cbv beta iota.
    change (length [{| index := 1; dist := 0 |}; {| index := 1; dist := 0 |}])
      with 2%nat.
    rewrite twiceListed_rows. unfold mbind, outcome_bind. cbv beta iota.
    f_equal. unfold symmetrize, for_, for_range. simpl.
    repeat f_equal; lra.
  - rewrite Hmass. replace (1 / 2 - 1) with (- (1 / 2)) by lra.
    rewrite Rabs_Ropp, Rabs_right by lra. lra.
Qed.

Lemma selfListed_calibrated :
  nearest2P selfListed 30 (1 / 10000) = Returns [1].
Proof.
  unfold nearest2P. change (selfListed !! 0%nat)
    with (Some [{| index := 0; dist := 0 |}]).
  cbv beta iota.
  change (length [{| index := 0; dist := 0 |}]) with 1%nat.
  unfold calibrateRows. change (length selfListed) with 1%nat.
  rewrite !forM_S, forM_0. unfold mbind, outcome_bind. cbv beta iota.
  change (selfListed !!! 0%nat) with [{| index := 0; dist := 0 |}].
  rewrite (searchBeta_self 0 0) by reflexivity.
  reflexivity.
Qed.

(** C7 (the code at the failing input).  In a trial of row [i] the entry
    of a neighbour other than [i] (an index above or below [i]) is
    [exp (- d beta)] clamped below by 1e-9, but the entry of a neighbour
    with index [i] is 1e-9, not 0: the clamp comes after the choice of 0.
    On the table of one point that lists itself, the calibrated
    probability of the point for itself is 1. *)
Theorem self_neighbour_probability :
  (forall i k beta d,
     rawProb i beta {| index := i + S k; dist := d |}
     = Rmax (exp (- d * beta)) (1 / 1000000000) /\
     rawProb (i + S k) beta {| index := i; dist := d |}
     = Rmax (exp (- d * beta)) (1 / 1000000000)) /\
  (forall i beta d,
     rawProb i beta {| index := i; dist := d |} = 1 / 1000000000) /\
  rawProb 0 1 {| index := 0; dist := 0 |} <> 0 /\
  nearest2P selfListed 30 (1 / 10000) = Returns [1].
Proof.
  split.
  { intros i k beta d. unfold rawProb, MIN_POSSIBLE_PROB. simpl.
    destruct (decide (i = (i + S k)%nat)); [lia|].
    destruct (decide ((i + S k)%nat = i)); [lia|]. split; reflexivity. }
  split; [intros i beta d; rewrite rawProb_self; reflexivity|].
  split; [rewrite rawProb_self; unfold MIN_POSSIBLE_PROB; lra|].
  exact selfListed_calibrated.
Qed.

(** ** The sampler *)

Lemma gaussRandom_cached stack g rng :
  return_v g = true ->
  gaussRandom stack g rng
  = Returns (v_val g, {| return_v := false; v_val := v_val g |}, rng).
Proof. intros H. destruct stack; simpl; rewrite H; reflexivity. Qed.

Lemma gaussRandom_accept stack g rng :
  return_v g = false ->
  let x := draws rng (calls rng) in
  let y := draws rng (S (calls rng)) in
  let u := 2 * x - 1 in
  let v := 2 * y - 1 in
  let r := u * u + v * v in
  ~ (r = 0 \/ r > 1) ->
  gaussRandom (S stack) g rng
  = Returns (u * sqrt (-2 * ln r / r),
             {| return_v := true; v_val := v * sqrt (-2 * ln r / r) |},
             {| draws := draws rng; calls := S (S (calls rng)) |}).
Proof.
  intros H x y u v r Hacc. simpl. rewrite H.
  fold x y u v r. destruct (decide (r = 0 \/ r > 1)); [tauto|reflexivity].
Qed.

(** With an empty cache the sampler does not read the stale value. *)
Lemma gaussRandom_stale stack w1 w2 rng :
  gaussRandom stack {| return_v := false; v_val := w1 |} rng
  = gaussRandom stack {| return_v := false; v_val := w2 |} rng.
Proof.
  revert rng. induction stack as [|stack IH]; intros rng; [reflexivity|].
  simpl. destruct (decide (_ \/ _)); [apply IH|reflexivity].
Qed.

Lemma polarFactor_pos : 0 < polarFactor.
Proof.
  unfold polarFactor. apply sqrt_lt_R0.
  assert (Hln : ln (1 / 2) < 0).
  { rewrite <- ln_1. apply ln_increasing; lra. }
  replace (-2 * ln (1 / 2) / (1 / 2)) with (- 4 * ln (1 / 2)) by field. lra.
Qed.

Lemma randn_stale stack g1 g2 rng mu std :
  g1 = g2 \/ (return_v g1 = false /\ return_v g2 = false) ->
  randn stack g1 rng mu std = randn stack g2 rng mu std.
Proof.
  intros [->|[H1 H2]]; [reflexivity|].
  destruct g1 as [b1 w1], g2 as [b2 w2]. simpl in H1, H2. subst.
  unfold randn. rewrite (gaussRandom_stale stack w1 w2). reflexivity.
Qed.

Lemma randnMatrix_stale stack g1 g2 n d rng :
  return_v g1 = false -> return_v g2 = false ->
  related sameDraws (randnMatrix stack g1 n d rng)
                    (randnMatrix stack g2 n d rng).
Proof.
  intros H1 H2. unfold randnMatrix. cbv zeta.
  generalize (zeros (n * d)). generalize (n * d)%nat. intros m x.
  induction m as [|m IH].
  - rewrite !forM_0. simpl. auto.
  - rewrite !forM_S.
    destruct (forM m _ (x, g1, rng)) as [[[x1 g1'] r1]|msg1];
      destruct (forM m _ (x, g2, rng)) as [[[x2 g2'] r2]|msg2];
      simpl in IH; try contradiction.
    + destruct IH as (-> & -> & Hg). unfold mbind, outcome_bind at 1 3.
      rewrite (randn_stale stack g1' g2' r2 0 (1 / 10000) Hg).
      destruct (randn stack g2' r2 0 (1 / 10000)) as [[[v g] r]|msg]; simpl; auto.
    + simpl. exact IH.
Qed.

(** With an empty cache, the engine that [initDataDist] returns does not
    depend on the stale value. *)
Lemma initDataDist_stale stack w1 w2 e knn :
  related (fun s1 s2 => snd s1 = snd s2)
    (TSNE.initDataDist stack {| return_v := false; v_val := w1 |} e knn)
    (TSNE.initDataDist stack {| return_v := false; v_val := w2 |} e knn).
Proof.
  unfold TSNE.initDataDist.
  destruct (nearest2P knn (TSNE.perplexity e) (1 / 10000)) as [p|msg];
    [|reflexivity].
  unfold mbind at 1 2. unfold outcome_bind at 1 2. unfold TSNE.initSolution.
  cbn [TSNE.N TSNE.dim TSNE.rng TSNE.perplexity TSNE.epsilon TSNE.P
       TSNE.nearest TSNE.dist2 TSNE.computeForce].
  pose proof (randnMatrix_stale stack {| return_v := false; v_val := w1 |}
                {| return_v := false; v_val := w2 |} (length knn) (TSNE.dim e)
                (TSNE.rng e) eq_refl eq_refl) as Hrel.
  destruct (randnMatrix stack {| return_v := false; v_val := w1 |} _ _ _)
    as [[[y1 g1] r1]|msg1];
    destruct (randnMatrix stack {| return_v := false; v_val := w2 |} _ _ _)
      as [[[y2 g2] r2]|msg2]; simpl in Hrel; try contradiction.
  - destruct Hrel as (-> & -> & _). reflexivity.
  - simpl. exact Hrel.
Qed.

(** The first number of the matrix is the cached draw when the cache is
    full. *)
Lemma randnMatrix_cached stack g n d rng x g' rng' :
  return_v g = true -> (1 <= n * d)%nat ->
  randnMatrix stack g n d rng = Returns (x, g', rng') ->
  x !!! 0%nat = 0 + v_val g * (1 / 10000).
Proof.
  intros Hfull Hnd Hrun. unfold randnMatrix in Hrun. cbv zeta in Hrun.
  set (I := fun (i : nat) (s : list R * Globals * RNG) =>
       length (fst (fst s)) = (n * d)%nat /\
       (i = 0%nat -> snd (fst s) = g) /\
       ((1 <= i)%nat -> fst (fst s) !!! 0%nat = 0 + v_val g * (1 / 10000))).
  assert (HI : I (n * d)%nat (x, g', rng')).
  { revert Hrun. apply (forM_invariant I).
    - split; [apply zeros_length|]. split; [reflexivity|intros; lia].
    - intros i [[x0 g0] r0] [[x1 g1] r1] Hi (Hlen & Hg & Hx). simpl in *.
      destruct (randn stack g0 r0 0 (1 / 10000)) as [[[v g2] r2]|msg] eqn:Hv;
        [|discriminate].
      simpl. intros [= <- <- <-]. unfold I. simpl. split; [rewrite length_insert; exact Hlen|].
      split; [intros; lia|]. intros _.
      destruct i as [|i].
      + simpl. rewrite list_lookup_total_insert_eq by lia.
        rewrite (Hg eq_refl) in Hv. unfold randn in Hv.
        rewrite gaussRandom_cached in Hv by exact Hfull. simpl in Hv.
        injection Hv as <- _ _. reflexivity.
      + simpl. rewrite list_lookup_total_insert_ne by lia. apply Hx. lia. }
  unfold I in HI. simpl in HI. apply HI. exact Hnd.
Qed.

(** ** Two engines and the module variables *)

Lemma constructor_twin MR :
  TSNE.constructor MR twinOptions
  = Returns (freshEngine 2 (constRng (1 / 4)) dist2_2D computeForce_2d).
Proof.
  unfold TSNE.constructor, twinOptions. simpl opt_dim.
  destruct (decide (2%nat = 2%nat)); [reflexivity|lia].
Qed.

Lemma constructor_other MR :
  TSNE.constructor MR otherOptions
  = Returns (freshEngine 3 (constRng (3 / 4)) dist2_3D computeForce_3d).
Proof.
  unfold TSNE.constructor, otherOptions. simpl opt_dim.
  destruct (decide (3%nat = 2%nat)); [lia|].
  destruct (decide (3%nat = 3%nat)); [reflexivity|lia].
Qed.

Lemma randn_cached stack g rng mu std :
  return_v g = true ->
  randn stack g rng mu std
  = Returns (mu + v_val g * std, {| return_v := false; v_val := v_val g |}, rng).
Proof.
  intros H. unfold randn. rewrite gaussRandom_cached by exact H. reflexivity.
Qed.

(** A draw from a generator that returns [x] forever, accepted at once. *)
Lemma randn_const stack w x c mu std :
  let u := 2 * x - 1 in
  let r := u * u + u * u in
  ~ (r = 0 \/ r > 1) ->
  randn (S stack) {| return_v := false; v_val := w |}
        {| draws := fun _ => x; calls := c |} mu std
  = Returns (mu + u * sqrt (-2 * ln r / r) * std,
             {| return_v := true; v_val := u * sqrt (-2 * ln r / r) |},
             {| draws := fun _ => x; calls := S (S c) |}).
Proof.
  intros u r Hacc. unfold randn.
  rewrite gaussRandom_accept by (try reflexivity; exact Hacc). reflexivity.
Qed.

Lemma half_radius x :
  x = 1 / 4 \/ x = 3 / 4 ->
  (2 * x - 1) * (2 * x - 1) + (2 * x - 1) * (2 * x - 1) = 1 / 2.
Proof. intros [->| ->]; lra. Qed.

Lemma randn_quarters stack w x c mu std :
  x = 1 / 4 \/ x = 3 / 4 ->
  randn (S stack) {| return_v := false; v_val := w |}
        {| draws := fun _ => x; calls := c |} mu std
  = Returns (mu + (2 * x - 1) * polarFactor * std,
             {| return_v := true; v_val := (2 * x - 1) * polarFactor |},
             {| draws := fun _ => x; calls := S (S c) |}).
Proof.
  intros Hx. rewrite randn_const by (rewrite half_radius by exact Hx; lra).
  rewrite half_radius by exact Hx. reflexivity.
Qed.

Lemma initDataDist_selfListed stack g dim rng d2 cf :
  TSNE.initDataDist stack g (freshEngine dim rng d2 cf) selfListed
  = ('(y, g', r) ← randnMatrix stack g 1 dim rng;
     Returns (g', {| TSNE.perplexity := 30; TSNE.epsilon := 10; TSNE.rng := r;
                     TSNE.iter := 0; TSNE.Y := y; TSNE.N := 1; TSNE.P := [1];
                     TSNE.gains := arrayofs 1 dim 1;
                     TSNE.ystep := arrayofs 1 dim 0;
                     TSNE.nearest := selfListed; TSNE.dim := dim;
                     TSNE.dist2 := d2; TSNE.computeForce := cf |})).
Proof.
  unfold TSNE.initDataDist. cbn [TSNE.perplexity freshEngine].
  rewrite selfListed_calibrated. reflexivity.
Qed.

(** The other engine draws three numbers from an empty cache and leaves
    the module variables with a cached draw. *)
Lemma other_engine_globals :
  globalsAfter zeroRng 1 module_init otherOptions selfListed = Returns leftByOther.
Proof.
  unfold globalsAfter. rewrite constructor_other.
  unfold mbind at 1. unfold outcome_bind at 1.
  rewrite initDataDist_selfListed.
  unfold randnMatrix. cbv zeta. change (1 * 3)%nat with 3%nat.
  rewrite !forM_S, forM_0. unfold module_init, constRng.
  unfold mbind, outcome_bind. cbv beta iota.
  rewrite randn_quarters by (right; reflexivity). cbv beta iota.
  rewrite randn_cached by reflexivity. cbv beta iota.
  cbn [v_val].
  rewrite randn_quarters by (right; reflexivity). cbv beta iota.
  unfold leftByOther. f_equal. f_equal. lra.
Qed.

Lemma twin_fresh SP MR :
  embeddingAfter SP MR 1 0 module_init twinOptions selfListed
  = Returns [0 + (2 * (1 / 4) - 1) * polarFactor * (1 / 10000);
             0 + (2 * (1 / 4) - 1) * polarFactor * (1 / 10000)].
Proof.
  unfold embeddingAfter. rewrite constructor_twin.
  unfold mbind at 1. unfold outcome_bind at 1.
  rewrite initDataDist_selfListed.
  unfold randnMatrix. cbv zeta. change (1 * 2)%nat with 2%nat.
  rewrite !forM_S, forM_0. unfold module_init, constRng.
  unfold mbind, outcome_bind. cbv beta iota.
  rewrite randn_quarters by (left; reflexivity). cbv beta iota.
  rewrite randn_cached by reflexivity. cbv beta iota.
  reflexivity.
Qed.

Lemma twin_after_other SP MR :
  embeddingAfter SP MR 1 0 leftByOther twinOptions selfListed
  = Returns [0 + 1 / 2 * polarFactor * (1 / 10000);
             0 + (2 * (1 / 4) - 1) * polarFactor * (1 / 10000)].
Proof.
  unfold embeddingAfter. rewrite constructor_twin.
  unfold mbind at 1. unfold outcome_bind at 1.
  rewrite initDataDist_selfListed.
  unfold randnMatrix. cbv zeta. change (1 * 2)%nat with 2%nat.
  rewrite !forM_S, forM_0. unfold leftByOther, constRng.
  unfold mbind, outcome_bind. cbv beta iota.
  rewrite randn_cached by reflexivity. cbv beta iota. cbn [v_val].
  rewrite randn_quarters by (left; reflexivity). cbv beta iota.
  reflexivity.
Qed.

(** C10 (as stated, refuted).  Two engines with the same options, the
    same generator and the same table get different embeddings when
    another engine has used the sampler before one of them: that engine
    drew three numbers and left its fourth in the module variables, and
    the second twin takes it as its first coordinate. *)
Lemma sampler_cache_is_shared :
  globalsAfter zeroRng 1 module_init otherOptions selfListed
    = Returns leftByOther /\
  exists YA YB,
    embeddingAfter leafTree zeroRng 1 0 module_init twinOptions selfListed
      = Returns YA /\
    embeddingAfter leafTree zeroRng 1 0 leftByOther twinOptions selfListed
      = Returns YB /\
    YA !!! 0%nat < 0 /\ 0 < YB !!! 0%nat /\ YA ≠ YB.
Proof.
  split; [apply other_engine_globals|].
  eexists. eexists. split; [apply twin_fresh|]. split; [apply twin_after_other|].
  pose proof polarFactor_pos as Hc.
  assert (HA : [0 + (2 * (1 / 4) - 1) * polarFactor * (1 / 10000);
                0 + (2 * (1 / 4) - 1) * polarFactor * (1 / 10000)] !!! 0%nat < 0).
  { change (0 + (2 * (1 / 4) - 1) * polarFactor * (1 / 10000) < 0). nra. }
  assert (HB : 0 < [0 + 1 / 2 * polarFactor * (1 / 10000);
                    0 + (2 * (1 / 4) - 1) * polarFactor * (1 / 10000)] !!! 0%nat).
  { change (0 < 0 + 1 / 2 * polarFactor * (1 / 10000)). nra. }
  split; [exact HA|]. split; [exact HB|].
  intros Heq. rewrite Heq in HA. lra.
Qed.

Lemma randnMatrix_length stack g n d rng x g' rng' :
  randnMatrix stack g n d rng = Returns (x, g', rng') ->
  length x = (n * d)%nat.
Proof.
  unfold randnMatrix. cbv zeta.
  apply (forM_invariant
           (fun _ (s : list R * Globals * RNG) =>
              length (fst (fst s)) = (n * d)%nat)).
  - apply zeros_length.
  - intros i [[x0 g0] r0] [[x1 g1] r1] _ Hlen. simpl in *.
    destruct (randn stack g0 r0 0 (1 / 10000)) as [[[v g2] r2]|msg];
      [|discriminate].
    simpl. intros [= <- <- <-]. rewrite length_insert. exact Hlen.
Qed.

(** C10 (amended).  The cached second draw is a variable of the module,
    shared by all engines.  Two engines constructed with identical
    options and generator and fed identical neighbour tables produce
    identical embeddings after the same number of steps when the cache is
    empty at both initializations, whatever stale value it holds.  When
    the cache is full, the cached draw (times the standard deviation
    1e-4) becomes the first coordinate of the initial embedding. *)
Theorem sampler_cache_module_level (SP : list (list R) -> AugmSPNode)
    (MR : RNG) (stack k : nat) (opt : option TSNEOptions)
    (knn : list (list Neighbor)) :
  (forall w1 w2,
     embeddingAfter SP MR stack k {| return_v := false; v_val := w1 |} opt knn
     = embeddingAfter SP MR stack k {| return_v := false; v_val := w2 |} opt knn) /\
  (forall g Y,
     return_v g = true ->
     embeddingAfter SP MR stack 0 g opt knn = Returns Y ->
     (1 <= length Y)%nat ->
     Y !!! 0%nat = 0 + v_val g * (1 / 10000)).
Proof.
  split.
  - intros w1 w2. unfold embeddingAfter.
    destruct (TSNE.constructor MR opt) as [e|msg]; [|reflexivity].
    unfold mbind at 1 3. unfold outcome_bind at 1 3.
    pose proof (initDataDist_stale stack w1 w2 e knn) as Hrel.
    destruct (TSNE.initDataDist stack {| return_v := false; v_val := w1 |} e knn)
      as [[g1 e1]|msg1];
      destruct (TSNE.initDataDist stack {| return_v := false; v_val := w2 |} e knn)
        as [[g2 e2]|msg2]; simpl in Hrel; try contradiction.
    + subst. reflexivity.
    + subst. reflexivity.
  - intros g Y Hfull. unfold embeddingAfter.
    destruct (TSNE.constructor MR opt) as [e|msg]; [|discriminate].
    unfold mbind at 1. unfold outcome_bind at 1.
    unfold TSNE.initDataDist.
    destruct (nearest2P knn (TSNE.perplexity e) (1 / 10000)) as [p|msg];
      [|discriminate].
    unfold mbind at 2. unfold outcome_bind at 2. unfold TSNE.initSolution.
    cbn [TSNE.N TSNE.dim TSNE.rng].
    destruct (randnMatrix stack g (length knn) (TSNE.dim e) (TSNE.rng e))
      as [[[y g'] r']|msg] eqn:Hrun; [|discriminate].
    simpl. intros [= <-] Hlen.
    apply (randnMatrix_cached stack g (length knn) (TSNE.dim e) (TSNE.rng e)
             y g' r' Hfull); [|exact Hrun].
    rewrite <- (randnMatrix_length _ _ _ _ _ _ _ _ Hrun). exact Hlen.
Qed.

Lemma sampler_cache_module_level_witness :
  return_v leftByOther = true /\
  embeddingAfter leafTree zeroRng 1 0 leftByOther twinOptions selfListed
  = Returns [0 + 1 / 2 * polarFactor * (1 / 10000);
             0 + (2 * (1 / 4) - 1) * polarFactor * (1 / 10000)] /\
  [0 + 1 / 2 * polarFactor * (1 / 10000);
   0 + (2 * (1 / 4) - 1) * polarFactor * (1 / 10000)] !!! 0%nat
  = 0 + v_val leftByOther * (1 / 10000).
Proof.
  split; [reflexivity|]. split; [apply twin_after_other|].
  destruct (sampler_cache_module_level leafTree zeroRng 1 0 twinOptions selfListed)
    as [_ H].
  apply (H leftByOther); [reflexivity|apply twin_after_other|simpl; lia].
Defined.

(** ** Engines made by the constructor and [initDataDist] *)

Lemma arrayofs_shaped n d val :
  d = 2%nat \/ d = 3%nat -> shaped n d (arrayofs n d val).
Proof.
  intros Hd. unfold arrayofs.
  rewrite (for_snoc n (fun _ => if decide (d = 3%nat) then [val; val; val]
                                else [val; val])).
  split; [rewrite length_map, length_seq; reflexivity|].
  intros i Hi. rewrite map_seq_lookup_total by exact Hi.
  destruct Hd as [-> | ->]; reflexivity.
Qed.

(** An engine that the constructor returned and [initDataDist] has fed is
    initialized. *)
Lemma initDataDist_initialized MR opt stack g knn e0 g' e :
  TSNE.constructor MR opt = Returns e0 ->
  TSNE.initDataDist stack g e0 knn = Returns (g', e) ->
  initialized e /\ TSNE.N e = length knn /\ bound e.
Proof.
  intros Hc Hi.
  assert (Hb : bound e0).
  { revert Hc. unfold TSNE.constructor.
    destruct (decide (_ = 2%nat)) as [H2|H2].
    - intros [= <-]. left. repeat split; try reflexivity. exact H2.
    - destruct (decide (_ = 3%nat)) as [H3|H3]; [|discriminate].
      intros [= <-]. right. repeat split; try reflexivity. exact H3. }
  assert (Hdim : TSNE.dim e0 = 2%nat \/ TSNE.dim e0 = 3%nat)
    by (destruct Hb as [(H & _)|(H & _)]; auto).
  revert Hi. unfold TSNE.initDataDist.
  destruct (nearest2P knn (TSNE.perplexity e0) (1 / 10000)) as [p|msg];
    [|discriminate].
  unfold mbind at 1. unfold outcome_bind at 1. unfold TSNE.initSolution.
  cbn [TSNE.N TSNE.dim TSNE.rng].
  destruct (randnMatrix stack g (length knn) (TSNE.dim e0) (TSNE.rng e0))
    as [[[y g1] r1]|msg] eqn:Hrun; [|discriminate].
  simpl. intros [= <- <-].
  split; [|split; [reflexivity|exact Hb]].
  unfold initialized. simpl.
  split; [exact Hdim|].
  split; [apply (randnMatrix_length _ _ _ _ _ _ _ _ Hrun)|].
  split; apply arrayofs_shaped; exact Hdim.
Qed.

(** ** The matrix of the three-point table *)

(** A row that lists two other points at the same distance is calibrated
    to one half for each, whatever the precision. *)
Lemma searchBeta_equidistant i j k dst Htarget tol pRow :
  i ≠ j -> i ≠ k -> length pRow = 2%nat ->
  searchBeta 50 i [{| index := j; dist := dst |}; {| index := k; dist := dst |}]
             Htarget tol 1 None None pRow
  = [1 / 2; 1 / 2].
Proof.
  intros Hj Hk Hlen.
  destruct (searchBeta_normalized 50 i
              [{| index := j; dist := dst |}; {| index := k; dist := dst |}]
              Htarget tol 1 None None pRow) as [Hl [beta Hv]]; [lia|exact Hlen|].
  destruct (searchBeta _ _ _ _ _ _ _ _ _) as [|a [|b [|c l]]]; try discriminate Hl.
  pose proof (Hv 0%nat) as H0. pose proof (Hv 1%nat) as H1.
  unfold rowSum in H0, H1. simpl in H0, H1.
  assert (Hsame : rawProb i beta {| index := k; dist := dst |}
                  = rawProb i beta {| index := j; dist := dst |}).
  { unfold rawProb. simpl.
    destruct (decide (i = k)); [congruence|].
    destruct (decide (i = j)); [congruence|]. reflexivity. }
  rewrite Hsame in H0, H1.
  pose proof (rawProb_pos i beta {| index := j; dist := dst |}) as Hpos.
  pose proof MIN_POSSIBLE_PROB_pos as Hmin.
  rewrite H0, H1 by lia. f_equal; [field; lra|]. f_equal. field. lra.
Qed.

(** The matrix that the calibrator returns for the three-point table:
    one sixth for every pair of different points. *)
Lemma equilateral_P perplexity tol :
  nearest2P equilateralKnn perplexity tol
  = Returns [0; 1 / 6; 1 / 6; 1 / 6; 0; 1 / 6; 1 / 6; 1 / 6; 0].
Proof.
  assert (Hrows : calibrateRows equilateralKnn (ln perplexity) tol 2
                  = Returns ([0; 1 / 2; 1 / 2; 1 / 2; 0; 1 / 2; 1 / 2; 1 / 2; 0],
                             [1 / 2; 1 / 2])).
  { unfold calibrateRows. change (length equilateralKnn) with 3%nat.
    rewrite !forM_S, forM_0.
    unfold mbind, outcome_bind. cbv beta iota.
    change (equilateralKnn !!! 0%nat)
      with [{| index := 1; dist := 1 |}; {| index := 2; dist := 1 |}].
    rewrite (searchBeta_equidistant 0 1 2) by (simpl; lia || reflexivity).
    change (copyRow 3 0 [{| index := 1; dist := 1 |}; {| index := 2; dist := 1 |}]
              [1 / 2; 1 / 2] (zeros (3 * 3)))
      with (Returns (A := list R) [0; 1 / 2; 1 / 2; 0; 0; 0; 0; 0; 0]).
    cbv beta iota.
    change (equilateralKnn !!! 1%nat)
      with [{| index := 0; dist := 1 |}; {| index := 2; dist := 1 |}].
    rewrite (searchBeta_equidistant 1 0 2) by (simpl; lia || reflexivity).
    change (copyRow 3 1 [{| index := 0; dist := 1 |}; {| index := 2; dist := 1 |}]
              [1 / 2; 1 / 2] [0; 1 / 2; 1 / 2; 0; 0; 0; 0; 0; 0])
      with (Returns (A := list R) [0; 1 / 2; 1 / 2; 1 / 2; 0; 1 / 2; 0; 0; 0]).
    cbv beta iota.
    change (equilateralKnn !!! 2%nat)
      with [{| index := 0; dist := 1 |}; {| index := 1; dist := 1 |}].
    rewrite (searchBeta_equidistant 2 0 1) by (simpl; lia || reflexivity).
    reflexivity. }
  unfold nearest2P. change (equilateralKnn !! 0%nat)
    with (Some [{| index := 1; dist := 1 |}; {| index := 2; dist := 1 |}]).
  cbv beta iota.
  change (length [{| index := 1; dist := 1 |}; {| index := 2; dist := 1 |}])
    with 2%nat.
  change (length equilateralKnn) with 3%nat.
  rewrite Hrows. unfold mbind, outcome_bind. cbv beta iota.
  f_equal. unfold symmetrize, for_, for_range. simpl.
  repeat (f_equal; try lra).
Qed.

(** * Further properties of the engine module *)

(** ** Constructor *)

Lemma constructor_cases MR opt :
  let o := optionsOrDefault opt in
  (opt_dim o <> 2%nat /\ opt_dim o <> 3%nat /\
   TSNE.constructor MR opt = Throws "Only 2D and 3D is supported") \/
  ((opt_dim o = 2%nat \/ opt_dim o = 3%nat) /\
   exists e, TSNE.constructor MR opt = Returns e /\
     TSNE.dim e = opt_dim o /\ bound e /\ TSNE.iter e = 0%nat /\
     TSNE.perplexity e = or_default (opt_perplexity o) 30 /\
     TSNE.epsilon e = or_default (opt_epsilon o) 10 /\
     TSNE.rng e = match opt_rng o with Some r => r | None => MR end).
Proof.
  intros o. unfold TSNE.constructor. fold (optionsOrDefault opt). fold o.
  destruct (decide (opt_dim o = 2%nat)) as [H2|H2].
  - right. split; [left; exact H2|]. eexists. split; [reflexivity|].
    simpl. repeat split; try reflexivity. left. simpl. auto.
  - destruct (decide (opt_dim o = 3%nat)) as [H3|H3].
    + right. split; [right; exact H3|]. eexists. split; [reflexivity|].
      simpl. repeat split; try reflexivity. right. simpl. auto.
    + left. auto.
Qed.

(** X1. The constructor fails with "Only 2D and 3D is supported" exactly
    when the dimension is neither 2 nor 3 (missing options count as
    dimension 2).  Otherwise it returns an engine of that dimension with
    the matching kernels bound, the counter at 0, and perplexity 30 and
    learning rate 10 wherever the option is missing or is 0. *)
Theorem constructor_dimensions (MR : RNG) (opt : option TSNEOptions) :
  let o := optionsOrDefault opt in
  (TSNE.constructor MR opt = Throws "Only 2D and 3D is supported"
   <-> opt_dim o <> 2%nat /\ opt_dim o <> 3%nat) /\
  (forall e, TSNE.constructor MR opt = Returns e ->
     TSNE.dim e = opt_dim o /\ bound e /\ TSNE.iter e = 0%nat /\
     (opt_perplexity o = None \/ opt_perplexity o = Some 0 ->
      TSNE.perplexity e = 30) /\
     (opt_epsilon o = None \/ opt_epsilon o = Some 0 -> TSNE.epsilon e = 10) /\
     (forall p, opt_perplexity o = Some p -> p <> 0 -> TSNE.perplexity e = p) /\
     (forall eps, opt_epsilon o = Some eps -> eps <> 0 -> TSNE.epsilon e = eps)).
Proof.
  intros o. destruct (constructor_cases MR opt) as
    [(H2 & H3 & Hthrow)|(Hdim & e & Hret & Hd & Hb & Hi & Hp & He & _)];
    fold o in H2, H3 || fold o in Hdim, Hd, Hp, He.
  - split; [split; [intros _; auto|intros _; exact Hthrow]|].
    intros e He. rewrite Hthrow in He. discriminate He.
  - split.
    + split; [rewrite Hret; discriminate|intros [? ?]; lia].
    + intros e' He'. rewrite Hret in He'. injection He' as <-.
      split; [exact Hd|]. split; [exact Hb|]. split; [exact Hi|].
      rewrite Hp, He. unfold or_default.
      split; [intros [-> | ->]; [reflexivity|]; destruct (decide (0 = 0)); tauto|].
      split; [intros [-> | ->]; [reflexivity|]; destruct (decide (0 = 0)); tauto|].
      split.
      * intros p -> Hne. destruct (decide (p = 0)); tauto.
      * intros eps -> Hne. destruct (decide (eps = 0)); tauto.
Qed.

Lemma constructor_dimensions_witness :
  TSNE.constructor zeroRng twinOptions
  = Returns (freshEngine 2 (constRng (1 / 4)) dist2_2D computeForce_2d) /\
  TSNE.perplexity (freshEngine 2 (constRng (1 / 4)) dist2_2D computeForce_2d) = 30.
Proof.
  split; [apply constructor_twin|].
  destruct (constructor_dimensions zeroRng twinOptions) as [_ H].
  destruct (H _ (constructor_twin zeroRng)) as (_ & _ & _ & Hp & _).
  apply Hp. left. reflexivity.
Defined.

(** ** Distances *)

Lemma sumn_nonneg n f : (forall i, (i < n)%nat -> 0 <= f i) -> 0 <= sumn n f.
Proof.
  induction n as [|n IH]; intros H; simpl; [lra|].
  pose proof (IH (fun i Hi => H i (Nat.lt_lt_succ_r _ _ Hi))).
  pose proof (H n (Nat.lt_succ_diag_r n)). lra.
Qed.

Lemma sumn_nonneg_zero n f :
  (forall i, (i < n)%nat -> 0 <= f i) -> sumn n f = 0 ->
  forall i, (i < n)%nat -> f i = 0.
Proof.
  induction n as [|n IH]; intros H Hs i Hi; [lia|]. simpl in Hs.
  pose proof (sumn_nonneg n f (fun i Hi => H i (Nat.lt_lt_succ_r _ _ Hi))).
  pose proof (H n (Nat.lt_succ_diag_r n)).
  destruct (decide (i = n)) as [->|Hne]; [lra|].
  apply IH; [intros; apply H; lia|lra|lia].
Qed.

Lemma lookup_total_ext (a b : list R) :
  length a = length b ->
  (forall i, (i < length a)%nat -> a !!! i = b !!! i) -> a = b.
Proof.
  revert b. induction a as [|x a IH]; intros [|y b] Hlen H; try discriminate.
  - reflexivity.
  - f_equal.
    + apply (H 0%nat). simpl. lia.
    + apply IH; [simpl in Hlen; lia|]. intros i Hi. apply (H (S i)). simpl. lia.
Qed.

Lemma dist2_equal_length a b :
  length a = length b -> dist2 a b = Returns (sqdist (length a) a b).
Proof.
  intros Heq. unfold dist2. destruct (decide (length a ≠ length b)); [tauto|].
  f_equal. unfold sqdist.
  apply (for_sum (length a) (fun i => (a !!! i - b !!! i) * (a !!! i - b !!! i))).
Qed.

(** X2. On two vectors of the same length the generic kernel [dist2]
    returns a number that is not negative, that does not depend on the
    order of the two vectors, and that is 0 exactly when the vectors are
    equal. *)
Theorem dist2_metric (a b : list R) :
  length a = length b ->
  exists x, dist2 a b = Returns x /\ dist2 b a = Returns x /\
            0 <= x /\ (x = 0 <-> a = b).
Proof.
  intros Heq. exists (sqdist (length a) a b).
  split; [apply dist2_equal_length; exact Heq|].
  split.
  { rewrite dist2_equal_length by congruence. f_equal. rewrite <- Heq.
    unfold sqdist. apply sumn_ext. intros i _. ring. }
  split.
  { unfold sqdist. apply sumn_nonneg. intros i _. apply Rle_0_sqr. }
  split.
  - intros Hz. apply lookup_total_ext; [exact Heq|]. intros i Hi.
    pose proof (sumn_nonneg_zero (length a)
                  (fun d => (a !!! d - b !!! d) * (a !!! d - b !!! d))
                  (fun d _ => Rle_0_sqr (a !!! d - b !!! d)) Hz i Hi) as H0.
    simpl in H0. nra.
  - intros ->. unfold sqdist. apply sumn_zero. intros i _. lra.
Qed.

Lemma dist2_metric_witness :
  length [1; 2] = length [4; 6] /\
  exists x, dist2 [1; 2] [4; 6] = Returns x /\ dist2 [4; 6] [1; 2] = Returns x.
Proof.
  split; [reflexivity|].
  destruct (dist2_metric [1; 2] [4; 6] eq_refl) as (x & H1 & H2 & _).
  exists x. split; assumption.
Defined.

(** X3. On vectors with exactly 2 (3) coordinates the kernel that the
    constructor binds for 2 (3) dimensions returns the same number as the
    generic kernel [dist2]. *)
Theorem bound_kernels_agree (a b : list R) :
  (length a = 2%nat -> length b = 2%nat -> dist2 a b = Returns (dist2_2D a b)) /\
  (length a = 3%nat -> length b = 3%nat -> dist2 a b = Returns (dist2_3D a b)).
Proof.
  split; intros Ha Hb; rewrite dist2_equal_length by congruence; rewrite Ha;
    f_equal; unfold sqdist, dist2_2D, dist2_3D; simpl; lra.
Qed.

Lemma bound_kernels_agree_witness :
  dist2 [1; 2] [4; 6] = Returns (dist2_2D [1; 2] [4; 6]).
Proof.
  apply (bound_kernels_agree [1; 2] [4; 6]); reflexivity.
Defined.

(** ** Forces *)

(** X4. On a force and two points that all have [dim] coordinates, a
    force kernel adds [mult * (pointA - pointB)] to every coordinate of
    the force and keeps its length.  So, in exact arithmetic, two calls
    with the same points add up like one call with the sum of the
    multipliers (in doubles the two differ by the rounding of the sums),
    and a call with [pointA = pointB] changes nothing. *)
Theorem computeForce_accumulates (e : TSNE.t) (F : list R) (m1 m2 : R)
    (a b : list R) :
  bound e -> length F = TSNE.dim e ->
  length a = TSNE.dim e -> length b = TSNE.dim e ->
  (length (TSNE.computeForce e F m1 a b) = TSNE.dim e /\
   forall d, (d < TSNE.dim e)%nat ->
     TSNE.computeForce e F m1 a b !!! d = F !!! d + m1 * (a !!! d - b !!! d)) /\
  TSNE.computeForce e (TSNE.computeForce e F m1 a b) m2 a b
  = TSNE.computeForce e F (m1 + m2) a b /\
  TSNE.computeForce e F m1 a a = F.
Proof.
  intros Hb HF _ _.
  destruct (bound_computeForce e F m1 a b Hb HF) as [L1 V1].
  destruct (bound_computeForce e (TSNE.computeForce e F m1 a b) m2 a b Hb L1)
    as [L2 V2].
  destruct (bound_computeForce e F (m1 + m2) a b Hb HF) as [L3 V3].
  destruct (bound_computeForce e F m1 a a Hb HF) as [L4 V4].
  split; [split; [exact L1|exact V1]|].
  split; apply lookup_total_ext; try congruence.
  - intros i Hi. rewrite L2 in Hi. rewrite V2, V1, V3 by exact Hi. lra.
  - intros i Hi. rewrite L4 in Hi. rewrite V4 by exact Hi. lra.
Qed.

Lemma computeForce_accumulates_witness :
  TSNE.computeForce (engineAt 0)
    (TSNE.computeForce (engineAt 0) [0; 0] 1 [1; 2] [0; 0]) 2 [1; 2] [0; 0]
  = TSNE.computeForce (engineAt 0) [0; 0] (1 + 2) [1; 2] [0; 0].
Proof.
  apply (computeForce_accumulates (engineAt 0) [0; 0] 1 2 [1; 2] [0; 0]
           (engineAt_bound 0) eq_refl eq_refl eq_refl).
Defined.

(** ** Sampler *)

Lemma advance_two rng :
  {| draws := draws rng; calls := S (S (calls rng)) |} = advance rng 2.
Proof. unfold advance. f_equal. lia. Qed.

Lemma advance_advance rng n m : advance (advance rng n) m = advance rng (n + m).
Proof. unfold advance. simpl. f_equal. lia. Qed.

Lemma pair_advance rng k :
  pairU (advance rng 2) k = pairU rng (S k) /\
  pairV (advance rng 2) k = pairV rng (S k) /\
  pairR (advance rng 2) k = pairR rng (S k).
Proof.
  assert (HU : pairU (advance rng 2) k = pairU rng (S k)).
  { unfold pairU, advance. simpl. do 3 f_equal. lia. }
  assert (HV : pairV (advance rng 2) k = pairV rng (S k)).
  { unfold pairV, advance. simpl. do 3 f_equal. lia. }
  split; [exact HU|]. split; [exact HV|]. unfold pairR. rewrite HU, HV. reflexivity.
Qed.

(** One call on an empty cache: the first pair decides. *)
Lemma gaussRandom_step stack w rng :
  gaussRandom (S stack) {| return_v := false; v_val := w |} rng
  = if decide (rejected rng 0)
    then gaussRandom stack {| return_v := false; v_val := w |} (advance rng 2)
    else Returns (pairU rng 0 * sqrt (-2 * ln (pairR rng 0) / pairR rng 0),
                  {| return_v := true;
                     v_val := pairV rng 0 * sqrt (-2 * ln (pairR rng 0) / pairR rng 0) |},
                  advance rng 2).
Proof.
  simpl. rewrite advance_two. unfold rejected, pairR, pairU, pairV.
  replace (calls rng + 2 * 0)%nat with (calls rng) by lia.
  replace (calls rng + 1)%nat with (S (calls rng)) by lia.
  destruct (decide (_ \/ _)); reflexivity.
Qed.

Lemma gaussRandom_accepted_at stack k w rng :
  (forall j, (j < k)%nat -> rejected rng j) -> ~ rejected rng k ->
  (k < stack)%nat ->
  gaussRandom stack {| return_v := false; v_val := w |} rng
  = Returns (pairU rng k * sqrt (-2 * ln (pairR rng k) / pairR rng k),
             {| return_v := true;
                v_val := pairV rng k * sqrt (-2 * ln (pairR rng k) / pairR rng k) |},
             advance rng (2 * (k + 1))).
Proof.
  revert rng stack. induction k as [|k IH]; intros rng stack Hrej Hacc Hk.
  - destruct stack as [|stack]; [lia|]. rewrite gaussRandom_step.
    destruct (decide (rejected rng 0)); [tauto|]. reflexivity.
  - destruct stack as [|stack]; [lia|]. rewrite gaussRandom_step.
    destruct (decide (rejected rng 0)) as [_|Hn];
      [|exfalso; apply Hn, Hrej; lia].
    destruct (pair_advance rng k) as (HU & HV & HR).
    rewrite (IH (advance rng 2) stack).
    + rewrite HU, HV, HR, advance_advance. repeat f_equal. lia.
    + intros j Hj. unfold rejected.
      destruct (pair_advance rng j) as (_ & _ & ->). apply Hrej. lia.
    + unfold rejected. rewrite HR. exact Hacc.
    + lia.
Qed.

Lemma gaussRandom_overflow stack w rng :
  (forall j, (j < stack)%nat -> rejected rng j) ->
  gaussRandom stack {| return_v := false; v_val := w |} rng
  = Throws "Maximum call stack size exceeded".
Proof.
  revert rng. induction stack as [|stack IH]; intros rng Hrej; [reflexivity|].
  rewrite gaussRandom_step.
  destruct (decide (rejected rng 0)) as [_|Hn];
    [|exfalso; apply Hn, Hrej; lia].
  apply IH. intros j Hj. unfold rejected.
  destruct (pair_advance rng j) as (_ & _ & ->). apply Hrej. lia.
Qed.

(** X5. With an empty cache, [gaussRandom] skips the pairs of uniform
    numbers whose squared radius is 0 or above 1 and answers from the
    first pair [k] that is accepted: it returns [u c], caches [v c], and
    has made [2 (k + 1)] calls to the generator.  When the call stack
    allows [stack] nested calls and the first [stack] pairs are all
    rejected, it fails with a stack overflow. *)
Theorem gaussRandom_first_accepted (stack k : nat) (w : R) (rng : RNG) :
  ((forall j, (j < k)%nat -> rejected rng j) -> ~ rejected rng k ->
   (k < stack)%nat ->
   let c := sqrt (-2 * ln (pairR rng k) / pairR rng k) in
   gaussRandom stack {| return_v := false; v_val := w |} rng
   = Returns (pairU rng k * c,
              {| return_v := true; v_val := pairV rng k * c |},
              advance rng (2 * (k + 1)))) /\
  ((forall j, (j < stack)%nat -> rejected rng j) ->
   gaussRandom stack {| return_v := false; v_val := w |} rng
   = Throws "Maximum call stack size exceeded").
Proof.
  split.
  - intros Hrej Hacc Hk c. apply gaussRandom_accepted_at; assumption.
  - apply gaussRandom_overflow.
Qed.

Lemma secondPairRng_pairs :
  rejected secondPairRng 0 /\ ~ rejected secondPairRng 1.
Proof.
  unfold rejected, pairR, pairU, pairV, secondPairRng. simpl.
  split; [right; lra|]. intros [H|H]; lra.
Qed.

Lemma gaussRandom_first_accepted_witness :
  (forall j, (j < 1)%nat -> rejected secondPairRng j) /\
  ~ rejected secondPairRng 1 /\
  exists x g, gaussRandom 2 module_init secondPairRng
              = Returns (x, g, advance secondPairRng 4).
Proof.
  assert (H0 : forall j, (j < 1)%nat -> rejected secondPairRng j).
  { intros j Hj. replace j with 0%nat by lia. apply secondPairRng_pairs. }
  split; [exact H0|]. split; [apply secondPairRng_pairs|].
  destruct (gaussRandom_first_accepted 2 1 0 secondPairRng) as [H _].
  eexists. eexists. apply (H H0 (proj2 secondPairRng_pairs)). lia.
Defined.

Lemma gaussRandom_flips stack g rng x g' rng' :
  gaussRandom stack g rng = Returns (x, g', rng') ->
  return_v g' = negb (return_v g).
Proof.
  destruct g as [[|] w].
  - rewrite gaussRandom_cached by reflexivity. intros [= <- <- <-]. reflexivity.
  - revert rng. induction stack as [|stack IH]; intros rng; [discriminate|].
    rewrite gaussRandom_step. destruct (decide (rejected rng 0)).
    + apply IH.
    + intros [= <- <- <-]. reflexivity.
Qed.

Lemma randnMatrix_parity stack g n d rng x g' rng' :
  randnMatrix stack g n d rng = Returns (x, g', rng') ->
  return_v g' = xorb (return_v g) (Nat.odd (n * d)).
Proof.
  unfold randnMatrix. cbv zeta.
  generalize (zeros (n * d)). generalize (n * d)%nat. intros m x0.
  revert x g' rng'. induction m as [|m IH]; intros x g' rng'.
  - rewrite forM_0. intros [= <- <- <-]. destruct (return_v g); reflexivity.
  - rewrite forM_S.
    destruct (forM m _ (x0, g, rng)) as [[[x1 g1] r1]|msg]; [|discriminate].
    specialize (IH x1 g1 r1 eq_refl). simpl.
    destruct (randn stack g1 r1 0 (1 / 10000)) as [[[v g2] r2]|msg] eqn:Hv;
      [|discriminate].
    simpl. intros [= <- <- <-].
    unfold randn in Hv.
    destruct (gaussRandom stack g1 r1) as [[[v' g3] r3]|msg] eqn:Hg;
      [|discriminate].
    simpl in Hv. injection Hv as _ <- _.
    rewrite (gaussRandom_flips _ _ _ _ _ _ Hg), IH, Nat.odd_succ.
    rewrite <- Nat.negb_odd.
    destruct (return_v g), (Nat.odd m); reflexivity.
Qed.

(** X6. Each call of the sampler flips the cache flag, so drawing a
    matrix of [n * d] numbers leaves the flag as it was when [n * d] is
    even and flipped when it is odd.  An engine in 2 dimensions therefore
    hands the module variables on with the flag unchanged; an engine in 3
    dimensions with an odd number of points hands it on flipped. *)
Theorem randnMatrix_cache_parity (stack : nat) (g : Globals) (e : TSNE.t)
    (knn : list (list Neighbor)) (g' : Globals) (e' : TSNE.t) :
  TSNE.initDataDist stack g e knn = Returns (g', e') ->
  return_v g' = xorb (return_v g) (Nat.odd (length knn * TSNE.dim e)) /\
  (TSNE.dim e = 2%nat -> return_v g' = return_v g) /\
  (TSNE.dim e = 3%nat -> Nat.odd (length knn) = true ->
   return_v g' = negb (return_v g)).
Proof.
  intros Hinit.
  assert (H : return_v g' = xorb (return_v g) (Nat.odd (length knn * TSNE.dim e))).
  { revert Hinit. unfold TSNE.initDataDist.
    destruct (nearest2P knn (TSNE.perplexity e) (1 / 10000)) as [p|msg];
      [|discriminate].
    unfold mbind at 1. unfold outcome_bind at 1. unfold TSNE.initSolution.
    cbn [TSNE.N TSNE.dim TSNE.rng].
    destruct (randnMatrix stack g (length knn) (TSNE.dim e) (TSNE.rng e))
      as [[[y g1] r1]|msg] eqn:Hrun; [|discriminate].
    simpl. intros [= <- <-]. apply (randnMatrix_parity _ _ _ _ _ _ _ _ Hrun). }
  split; [exact H|]. split.
  - intros Hd. rewrite H, Hd, Nat.odd_mul. simpl.
    rewrite andb_false_r. destruct (return_v g); reflexivity.
  - intros Hd Hodd. rewrite H, Hd, Nat.odd_mul, Hodd. simpl.
    destruct (return_v g); reflexivity.
Qed.

Lemma randnMatrix_cache_parity_witness :
  exists g' e',
    TSNE.initDataDist 1 module_init
      (freshEngine 3 (constRng (3 / 4)) dist2_3D computeForce_3d) selfListed
    = Returns (g', e') /\
    return_v g' = negb (return_v module_init).
Proof.
  pose proof other_engine_globals as H. unfold globalsAfter in H.
  rewrite constructor_other in H. unfold mbind at 1 in H.
  unfold outcome_bind at 1 in H.
  destruct (TSNE.initDataDist 1 module_init _ selfListed) as [[g' e']|msg] eqn:Hi;
    [|discriminate].
  exists g', e'. split; [reflexivity|].
  apply (randnMatrix_cache_parity 1 module_init _ selfListed g' e' Hi);
    reflexivity.
Defined.

(** X7. When [initDataDist] returns, the engine is initialized for the
    table it was given: [N] is the number of rows, [P] is the matrix of
    the calibrator, the solution has [N * dim] entries, the counter is 0,
    every gain is 1 and every entry of the step memory is 0.  When the
    calibrator throws, [initDataDist] throws the same error. *)
Theorem initDataDist_state (MR : RNG) (opt : option TSNEOptions) (stack : nat)
    (g : Globals) (knn : list (list Neighbor)) (e0 : TSNE.t) :
  TSNE.constructor MR opt = Returns e0 ->
  (forall g' e, TSNE.initDataDist stack g e0 knn = Returns (g', e) ->
     initialized e /\ bound e /\
     TSNE.N e = length knn /\ TSNE.nearest e = knn /\
     nearest2P knn (TSNE.perplexity e0) (1 / 10000) = Returns (TSNE.P e) /\
     length (TSNE.Y e) = (length knn * TSNE.dim e0)%nat /\
     TSNE.iter e = 0%nat /\
     Forall (Forall (fun gain => gain = 1)) (TSNE.gains e) /\
     Forall (Forall (fun s => s = 0)) (TSNE.ystep e)) /\
  (forall msg, nearest2P knn (TSNE.perplexity e0) (1 / 10000) = Throws msg ->
     TSNE.initDataDist stack g e0 knn = Throws msg).
Proof.
  intros Hc. split.
  - intros g' e Hinit.
    destruct (initDataDist_initialized MR opt stack g knn e0 g' e Hc Hinit)
      as (Hi & HN & Hb).
    split; [exact Hi|]. split; [exact Hb|]. split; [exact HN|].
    revert Hinit. unfold TSNE.initDataDist.
    destruct (nearest2P knn (TSNE.perplexity e0) (1 / 10000)) as [p|msg];
      [|discriminate].
    unfold mbind at 1. unfold outcome_bind at 1. unfold TSNE.initSolution.
    cbn [TSNE.N TSNE.dim TSNE.rng].
    destruct (randnMatrix stack g (length knn) (TSNE.dim e0) (TSNE.rng e0))
      as [[[y g1] r1]|msg] eqn:Hrun; [|discriminate].
    simpl. intros [= <- <-]. simpl.
    split; [reflexivity|]. split; [reflexivity|].
    split; [apply (randnMatrix_length _ _ _ _ _ _ _ _ Hrun)|].
    split; [reflexivity|].
    unfold arrayofs.
    rewrite (for_snoc (length knn)
               (fun _ => if decide (TSNE.dim e0 = 3%nat) then [1; 1; 1] else [1; 1])).
    rewrite (for_snoc (length knn)
               (fun _ => if decide (TSNE.dim e0 = 3%nat) then [0; 0; 0] else [0; 0])).
    split; apply Forall_fmap, Forall_forall; intros i _; simpl;
      destruct (decide (TSNE.dim e0 = 3%nat)); repeat constructor.
  - intros msg Hthrow. unfold TSNE.initDataDist. rewrite Hthrow. reflexivity.
Qed.

Lemma initDataDist_state_witness :
  TSNE.constructor zeroRng twinOptions
  = Returns (freshEngine 2 (constRng (1 / 4)) dist2_2D computeForce_2d) /\
  TSNE.initDataDist 1 module_init
    (freshEngine 2 (constRng (1 / 4)) dist2_2D computeForce_2d) []
  = Throws "TypeError: cannot read properties of undefined".
Proof.
  split; [apply constructor_twin|].
  destruct (initDataDist_state zeroRng twinOptions 1 module_init []
              _ (constructor_twin zeroRng)) as [_ H].
  apply H. reflexivity.
Defined.

(** ** Calibrator: rows *)

Lemma kernelRow_length i beta neighbors pRow :
  (length neighbors <= length pRow)%nat ->
  length (fst (kernelRow i beta neighbors pRow)) = length pRow.
Proof.
  intros Hle. unfold kernelRow.
  apply (for_invariant (fun _ (s : list R * R) => length (fst s) = length pRow)).
  - reflexivity.
  - intros k [p s] Hk Hl. simpl in *.
    rewrite js_write_in_range by lia. rewrite length_insert. exact Hl.
Qed.

Lemma searchBeta_length rem i neighbors Htarget tol beta betaMin betaMax pRow :
  (length neighbors <= length pRow)%nat ->
  length (searchBeta rem i neighbors Htarget tol beta betaMin betaMax pRow)
  = length pRow.
Proof.
  revert beta betaMin betaMax pRow.
  induction rem as [|rem IH]; intros beta betaMin betaMax pRow Hle; [reflexivity|].
  simpl. pose proof (kernelRow_length i beta neighbors pRow Hle) as H1.
  destruct (kernelRow i beta neighbors pRow) as [pRow1 psum]. simpl in H1.
  destruct (entropyRow_spec pRow1 psum) as [H2 _].
  destruct (entropyRow pRow1 psum) as [pRow2 Hhere]. simpl in H2.
  assert (Hlen2 : length pRow2 = length pRow) by congruence.
  destruct (decide (Hhere > Htarget));
    (destruct (decide (rem = 0%nat \/ Rabs (Hhere - Htarget) < tol));
     [exact Hlen2|]);
    (rewrite IH; [exact Hlen2|lia]).
Qed.

Lemma sumn_ge_term n f k :
  (forall i, (i < n)%nat -> 0 <= f i) -> (k < n)%nat -> f k <= sumn n f.
Proof.
  induction n as [|n IH]; intros H Hk; [lia|]. simpl.
  pose proof (sumn_nonneg n f (fun i Hi => H i (Nat.lt_lt_succ_r _ _ Hi))).
  pose proof (H n (Nat.lt_succ_diag_r n)).
  destruct (decide (k = n)) as [->|Hne]; [lra|].
  pose proof (IH (fun i Hi => H i (Nat.lt_lt_succ_r _ _ Hi)) ltac:(lia)). lra.
Qed.

Lemma normalizedRow_bounds i neighbors pRow k :
  normalizedRow i neighbors pRow -> (k < length neighbors)%nat ->
  0 < pRow !!! k <= 1.
Proof.
  intros [Hlen [beta Hv]] Hk. rewrite (Hv k Hk).
  assert (Hpos : 0 < rowSum i beta neighbors) by (apply rowSum_pos; lia).
  assert (Hraw : 0 < rawProb i beta (neighbors !!! k)).
  { pose proof (rawProb_pos i beta (neighbors !!! k)).
    pose proof MIN_POSSIBLE_PROB_pos. lra. }
  assert (Hle : rawProb i beta (neighbors !!! k) <= rowSum i beta neighbors).
  { unfold rowSum.
    apply (sumn_ge_term (length neighbors)
             (fun k => rawProb i beta (neighbors !!! k)) k); [|exact Hk].
    intros j _. pose proof (rawProb_pos i beta (neighbors !!! j)).
    pose proof MIN_POSSIBLE_PROB_pos. lra. }
  split.
  - apply Rdiv_lt_0_compat; assumption.
  - apply (Rmult_le_reg_r (rowSum i beta neighbors)); [exact Hpos|].
    unfold Rdiv. rewrite Rmult_assoc, Rinv_l by lra. lra.
Qed.

(** X8. The row that the binary search leaves for a point with at least
    one neighbour is a probability distribution over its neighbours: one
    entry for each neighbour, every entry above 0 and at most 1, and the
    entries sum to 1, whatever the target entropy and the tolerance. *)
Theorem searchBeta_distribution (i : nat) (neighbors : list Neighbor)
    (Htarget tol : R) (pRow : list R) :
  (1 <= length neighbors)%nat -> length pRow = length neighbors ->
  let row := searchBeta 50 i neighbors Htarget tol 1 None None pRow in
  length row = length neighbors /\
  Forall (fun p => 0 < p <= 1) row /\
  sumn (length row) (fun k => row !!! k) = 1.
Proof.
  intros HK Hlen row.
  assert (Hnorm : normalizedRow i neighbors row)
    by (apply searchBeta_normalized; [lia|exact Hlen]).
  split; [apply Hnorm|]. split.
  - apply Forall_lookup_2. intros k p Hp.
    rewrite <- (list_lookup_total_correct _ _ _ Hp).
    apply (normalizedRow_bounds i neighbors); [exact Hnorm|].
    rewrite <- (proj1 Hnorm). eapply lookup_lt_Some; exact Hp.
  - rewrite (proj1 Hnorm). apply (normalizedRow_sum i); assumption.
Qed.

Lemma searchBeta_distribution_witness :
  (1 <= length [{| index := 1; dist := 1 |}])%nat /\
  sumn (length (searchBeta 50 0 [{| index := 1; dist := 1 |}] 3 (1 / 10000)
                           1 None None [0]))
       (fun k => searchBeta 50 0 [{| index := 1; dist := 1 |}] 3 (1 / 10000)
                            1 None None [0] !!! k) = 1.
Proof.
  split; [simpl; lia|].
  apply (searchBeta_distribution 0 [{| index := 1; dist := 1 |}] 3 (1 / 10000) [0]);
    simpl; lia.
Defined.

(** ** Calibrator: errors *)

Lemma forM_throws {S : Type} (n k0 : nat) (body : nat -> S -> outcome S)
    (s s' : S) (msg : string) :
  (k0 < n)%nat -> forM k0 body s = Returns s' -> body k0 s' = Throws msg ->
  forM n body s = Throws msg.
Proof.
  intros Hk Hpre Hthrow. induction n as [|n IH]; [lia|].
  rewrite forM_S. destruct (decide (k0 = n)) as [->|Hne].
  - rewrite Hpre. exact Hthrow.
  - rewrite IH by lia. reflexivity.
Qed.

Lemma copyRow_returns N i neighbors pRow P :
  (length pRow <= length neighbors)%nat ->
  exists P', copyRow N i neighbors pRow P = Returns P'.
Proof.
  intros Hle. unfold copyRow.
  destruct (forM_returns (fun _ (_ : list R) => True) (length pRow)
              (fun k P => let pij := pRow !!! k in
                 match neighbors !! k with
                 | None => Throws "TypeError: cannot read properties of undefined"
                 | Some neighbor =>
                     Returns (<[(i * N + index neighbor)%nat := pij]> P)
                 end) P I) as (P' & HP' & _).
  - intros k Q Hk _.
    destruct (lookup_lt_is_Some_2 neighbors k) as [nb Hnb]; [lia|].
    simpl. rewrite Hnb. eexists. split; [reflexivity|exact I].
  - exists P'. exact HP'.
Qed.

Lemma copyRow_short N i neighbors pRow P :
  (length neighbors < length pRow)%nat ->
  copyRow N i neighbors pRow P
  = Throws "TypeError: cannot read properties of undefined".
Proof.
  intros Hlt. unfold copyRow.
  destruct (forM_returns (fun _ (_ : list R) => True) (length neighbors)
              (fun k P => let pij := pRow !!! k in
                 match neighbors !! k with
                 | None => Throws "TypeError: cannot read properties of undefined"
                 | Some neighbor =>
                     Returns (<[(i * N + index neighbor)%nat := pij]> P)
                 end) P I) as (P' & HP' & _).
  - intros k Q Hk _.
    destruct (lookup_lt_is_Some_2 neighbors k) as [nb Hnb]; [lia|].
    simpl. rewrite Hnb. eexists. split; [reflexivity|exact I].
  - apply (forM_throws (length pRow) (length neighbors) _ P P'); [exact Hlt|exact HP'|].
    simpl. rewrite lookup_ge_None_2 by lia. reflexivity.
Qed.

(** X9. The calibrator fails with a type error on an empty table, and
    on a table in which a row is shorter than the first row while all the
    rows before it are as long as the first: the copy loop runs over the
    slots of the shared row array and finds no neighbour. *)
Theorem nearest2P_errors (nearest : list (list Neighbor)) (perplexity tol : R)
    (i : nat) :
  (nearest = [] ->
   nearest2P nearest perplexity tol
   = Throws "TypeError: cannot read properties of undefined") /\
  ((i < length nearest)%nat ->
   (forall a, (a < i)%nat ->
      length (nearest !!! a) = length (nearest !!! 0%nat)) ->
   (length (nearest !!! i) < length (nearest !!! 0%nat))%nat ->
   nearest2P nearest perplexity tol
   = Throws "TypeError: cannot read properties of undefined").
Proof.
  split; [intros ->; reflexivity|].
  intros Hi Hbefore Hshort. unfold nearest2P.
  destruct (lookup_lt_is_Some_2 nearest 0%nat) as [row0 Hrow0]; [lia|].
  rewrite Hrow0. rewrite (list_lookup_total_correct _ _ _ Hrow0) in *.
  set (K := length row0) in *.
  assert (Hthrow : calibrateRows nearest (ln perplexity) tol K
                   = Throws "TypeError: cannot read properties of undefined").
  { unfold calibrateRows.
    destruct (forM_returns
                (fun _ (s : list R * list R) => length (snd s) = K) i
                (fun i '(P, pRow) =>
                   let neighbors := nearest !!! i in
                   let pRow := searchBeta 50 i neighbors (ln perplexity) tol 1
                                          None None pRow in
                   P ← copyRow (length nearest) i neighbors pRow P;
                   Returns (P, pRow))
                (zeros (length nearest * length nearest), replicate K 0))
      as ([P pRow] & Hpre & HpRow).
    - simpl. apply length_replicate.
    - intros a [P pRow] Ha HpRow. simpl in HpRow. cbv zeta.
      assert (Hl : length (searchBeta 50 a (nearest !!! a) (ln perplexity) tol 1
                             None None pRow) = K).
      { rewrite searchBeta_length; [exact HpRow|]. rewrite Hbefore by exact Ha. lia. }
      destruct (copyRow_returns (length nearest) a (nearest !!! a)
                  (searchBeta 50 a (nearest !!! a) (ln perplexity) tol 1
                     None None pRow) P) as [P' HP'].
      { rewrite Hl, Hbefore by exact Ha. lia. }
      exists (P', searchBeta 50 a (nearest !!! a) (ln perplexity) tol 1
                    None None pRow).
      rewrite HP'. split; [reflexivity|exact Hl].
    - simpl in HpRow.
      apply (forM_throws (length nearest) i _ _ (P, pRow)); [exact Hi|exact Hpre|].
      cbv zeta. rewrite copyRow_short; [reflexivity|].
      rewrite searchBeta_length; lia. }
  rewrite Hthrow. reflexivity.
Qed.

Lemma nearest2P_errors_witness :
  (1 < length raggedKnn)%nat /\
  nearest2P raggedKnn 30 (1 / 10000)
  = Throws "TypeError: cannot read properties of undefined".
Proof.
  split; [simpl; lia|].
  apply (nearest2P_errors raggedKnn 30 (1 / 10000) 1).
  - simpl. lia.
  - intros a Ha. replace a with 0%nat by lia. reflexivity.
  - simpl. lia.
Defined.

(** ** Calibrator: the matrix of a valid table *)

Lemma flat_decompose N x :
  (x < N * N)%nat ->
  exists a b, (a < N)%nat /\ (b < N)%nat /\ x = (a * N + b)%nat.
Proof.
  intros Hx. assert (HN : N <> 0%nat) by lia.
  exists (x / N)%nat, (x mod N)%nat.
  split; [apply Nat.Div0.div_lt_upper_bound; lia|].
  split; [apply Nat.mod_upper_bound; exact HN|].
  rewrite (Nat.div_mod_eq x N) at 1. lia.
Qed.

(** The copy of a row that is as long as its neighbour list. *)
Lemma copyRow_keeps N i neighbors pRow P :
  (i < N)%nat -> length P = (N * N)%nat ->
  length pRow = length neighbors ->
  (forall k, (k < length neighbors)%nat -> (index (neighbors !!! k) < N)%nat) ->
  Forall (fun p => 0 <= p <= 1) P -> Forall (fun p => 0 <= p <= 1) pRow ->
  exists P', copyRow N i neighbors pRow P = Returns P' /\
             copyKeeps N i neighbors P (length neighbors) P' /\
             Forall (fun p => 0 <= p <= 1) P'.
Proof.
  intros Hi HP Hlen Hrange HPb Hrowb. unfold copyRow. rewrite Hlen.
  destruct (forM_returns
              (fun k Q => copyKeeps N i neighbors P k Q /\
                          Forall (fun p => 0 <= p <= 1) Q)
              (length neighbors)
              (fun k P => let pij := pRow !!! k in
                 match neighbors !! k with
                 | None => Throws "TypeError: cannot read properties of undefined"
                 | Some neighbor =>
                     Returns (<[(i * N + index neighbor)%nat := pij]> P)
                 end) P) as (P' & Hrun & Hinv).
  - split; [|exact HPb]. split; [reflexivity|]. split; reflexivity.
  - intros k Q Hk ((HQlen & Hother & Hfresh) & HQb).
    destruct (lookup_lt_is_Some_2 neighbors k Hk) as [nb Hnb].
    simpl. rewrite Hnb. eexists. split; [reflexivity|].
    pose proof (list_lookup_total_correct _ _ _ Hnb) as Hnb'.
    assert (Hj : (index nb < N)%nat) by (rewrite <- Hnb'; apply Hrange; exact Hk).
    assert (Hflat : (i * N + index nb < length Q)%nat)
      by (rewrite HQlen, HP; apply flat_index_lt; assumption).
    split.
    + split; [rewrite length_insert; exact HQlen|]. split.
      * intros a b Ha Hb Hne. rewrite insert_lookup_R by exact Hflat.
        destruct (decide ((a * N + b)%nat = (i * N + index nb)%nat)) as [Heq|_].
        -- apply flat_index_inj in Heq; [tauto|assumption|assumption].
        -- apply Hother; assumption.
      * intros b Hb Hnew. rewrite insert_lookup_R by exact Hflat.
        destruct (decide ((i * N + b)%nat = (i * N + index nb)%nat)) as [Heq|_].
        -- exfalso. apply (Hnew k); [lia|exact Hk|]. rewrite Hnb'. lia.
        -- apply Hfresh; [exact Hb|]. intros k' Hk'. apply Hnew. lia.
    + apply Forall_insert; [exact HQb|].
      rewrite Forall_lookup in Hrowb.
      apply (Hrowb k). apply list_lookup_lookup_total_lt. lia.
  - exists P'. split; [exact Hrun|exact Hinv].
Qed.

Lemma calibrateRows_support nearest Htarget tol K :
  validKnn nearest K ->
  exists s, calibrateRows nearest Htarget tol K = Returns s /\
            supportInv nearest K (length nearest) s.
Proof.
  intros (HN & HK & Hrows). unfold calibrateRows.
  apply (forM_returns (fun i s => supportInv nearest K i s)).
  - split; [apply zeros_length|]. split; [apply length_replicate|].
    split.
    + apply Forall_forall. intros p Hp. unfold zeros in Hp.
      apply elem_of_replicate in Hp. destruct Hp as [-> _]. lra.
    + intros a b _ _ _. apply zeros_lookup.
  - intros i [P pRow] Hi (HP & HpRow & HPb & Hzero).
    destruct (Hrows i Hi) as [HrowK Hrange].
    set (neighbors := nearest !!! i) in *.
    set (pRow' := searchBeta 50 i neighbors Htarget tol 1 None None pRow).
    assert (Hnorm : normalizedRow i neighbors pRow').
    { apply searchBeta_normalized; [lia|]. rewrite HpRow, HrowK. reflexivity. }
    assert (Hrowb : Forall (fun p => 0 <= p <= 1) pRow').
    { apply Forall_lookup_2. intros k p Hp.
      rewrite <- (list_lookup_total_correct _ _ _ Hp).
      destruct (normalizedRow_bounds i neighbors pRow' k Hnorm); [|lra].
      rewrite <- (proj1 Hnorm). eapply lookup_lt_Some; exact Hp. }
    destruct (copyRow_keeps (length nearest) i neighbors pRow' P Hi HP
                (proj1 Hnorm)) as (P' & Hcopy & (HP'len & Hother & Hfresh) & HP'b);
      [intros k Hk; apply Hrange; rewrite <- HrowK; exact Hk|exact HPb|exact Hrowb|].
    exists (P', pRow'). cbv zeta. fold neighbors. fold pRow'. rewrite Hcopy.
    split; [reflexivity|].
    split; [rewrite HP'len; exact HP|].
    split; [rewrite (proj1 Hnorm); exact HrowK|].
    split; [exact HP'b|].
    intros a b Ha Hb Hcond.
    destruct (decide (a = i)) as [->|Hne].
    + rewrite Hfresh; [apply Hzero; [exact Hi|exact Hb|left; lia]|exact Hb|].
      intros k' _ Hk' Heq. destruct Hcond as [Hc|Hc]; [lia|].
      apply Hc. exists k'. split; [exact Hk'|exact Heq].
    + rewrite Hother by assumption. apply Hzero; [exact Ha|exact Hb|].
      destruct Hcond as [Hc|Hc]; [left; lia|right; exact Hc].
Qed.

(** X10. On every valid table (at least one row, the same number
    [K >= 1] of neighbours in every row, every index below [N]) the
    calibrator returns, and the matrix it returns has [N * N] entries,
    all between 0 and 1; the entry of a pair of points is 0 unless one of
    the two lists the other. *)
Theorem nearest2P_support (nearest : list (list Neighbor)) (K : nat)
    (perplexity tol : R) :
  validKnn nearest K ->
  let N := length nearest in
  exists P, nearest2P nearest perplexity tol = Returns P /\
    length P = (N * N)%nat /\
    Forall (fun p => 0 <= p <= 1) P /\
    forall a b, (a < N)%nat -> (b < N)%nat ->
      ~ listed (nearest !!! a) b -> ~ listed (nearest !!! b) a ->
      P !!! (a * N + b)%nat = 0.
Proof.
  intros Hvalid N. pose proof Hvalid as (HN & HK & Hrows).
  destruct (lookup_lt_is_Some_2 nearest 0%nat) as [row0 Hrow0]; [lia|].
  pose proof (list_lookup_total_correct _ _ _ Hrow0) as Hrow0'.
  destruct (Hrows 0%nat) as [HK0 _]; [lia|]. rewrite Hrow0' in HK0.
  destruct (calibrateRows_support nearest (ln perplexity) tol K Hvalid)
    as ([Praw pRow] & Hcal & HPlen & _ & HPb & Hzero).
  fold N in HPlen, Hzero.
  exists (symmetrize N Praw).
  assert (HNR : 1 <= INR N) by (change 1 with (INR 1); apply le_INR; lia).
  assert (Hraw : forall x, 0 <= Praw !!! x <= 1).
  { intros x. destruct (Praw !! x) as [p|] eqn:Hx.
    - rewrite (list_lookup_total_correct _ _ _ Hx).
      rewrite Forall_lookup in HPb. exact (HPb x p Hx).
    - rewrite list_lookup_total_alt, Hx. simpl. lra. }
  split; [unfold nearest2P; rewrite Hrow0, HK0, Hcal; reflexivity|].
  split; [apply symmetrize_length; exact HPlen|].
  split.
  - apply Forall_lookup_2. intros x p Hp.
    assert (Hx : (x < N * N)%nat).
    { rewrite <- (symmetrize_length N Praw HPlen). eapply lookup_lt_Some; exact Hp. }
    destruct (flat_decompose N x Hx) as (a & b & Ha & Hb & ->).
    rewrite <- (list_lookup_total_correct _ _ _ Hp).
    rewrite symmetrize_lookup by assumption.
    destruct (decide (a = b)); [apply Hraw|].
    pose proof (Hraw (a * N + b)%nat). pose proof (Hraw (b * N + a)%nat).
    rewrite mult_INR. simpl.
    assert (Hpos : 0 < INR N * (1 + 1)) by lra.
    split.
    + apply Rmult_le_pos; [lra|]. left. apply Rinv_0_lt_compat. exact Hpos.
    + apply (Rmult_le_reg_r (INR N * (1 + 1))); [exact Hpos|].
      unfold Rdiv. rewrite Rmult_assoc, Rinv_l by lra. lra.
  - intros a b Ha Hb Hab Hba. rewrite symmetrize_lookup by assumption.
    rewrite (Hzero a b Ha Hb (or_intror Hab)).
    destruct (decide (a = b)); [reflexivity|].
    rewrite (Hzero b a Hb Ha (or_intror Hba)). unfold Rdiv. lra.
Qed.

Lemma triangleKnn_valid : validKnn triangleKnn 2.
Proof.
  split; [simpl; lia|]. split; [lia|].
  intros [|[|[|i]]] Hi; simpl in Hi; try lia;
    (split; [reflexivity|]); intros [|[|k]] Hk; simpl; lia.
Qed.

Lemma nearest2P_support_witness :
  validKnn triangleKnn 2 /\
  exists P, nearest2P triangleKnn 30 (1 / 10000) = Returns P /\
            P !!! (0 * 3 + 0)%nat = 0.
Proof.
  split; [apply triangleKnn_valid|].
  destruct (nearest2P_support triangleKnn 2 30 (1 / 10000) triangleKnn_valid)
    as (P & HP & _ & _ & Hzero).
  exists P. split; [exact HP|].
  apply (Hzero 0%nat 0%nat); simpl; try lia;
    intros (k & Hk & Hidx); simpl in Hk;
    destruct k as [|[|k]]; simpl in Hidx; lia.
Defined.

(** X11. On a table with at least one row in which every row is empty
    ([K = 0]), the calibrator returns the [N] x [N] matrix of zeros. *)
Theorem nearest2P_no_neighbours (nearest : list (list Neighbor))
    (perplexity tol : R) :
  (1 <= length nearest)%nat ->
  (forall i, (i < length nearest)%nat -> nearest !!! i = []) ->
  nearest2P nearest perplexity tol
  = Returns (zeros (length nearest * length nearest)).
Proof.
  intros HN Hempty. set (N := length nearest).
  destruct (lookup_lt_is_Some_2 nearest 0%nat) as [row0 Hrow0]; [lia|].
  pose proof (list_lookup_total_correct _ _ _ Hrow0) as Hrow0'.
  rewrite Hempty in Hrow0' by lia. subst row0.
  assert (Hcal : calibrateRows nearest (ln perplexity) tol 0
                 = Returns (zeros (N * N), [])).
  { unfold calibrateRows. fold N.
    destruct (forM_returns
                (fun _ (s : list R * list R) => s = (zeros (N * N), [])) N
                (fun i '(P, pRow) =>
                   let neighbors := nearest !!! i in
                   let pRow := searchBeta 50 i neighbors (ln perplexity) tol 1
                                          None None pRow in
                   P ← copyRow N i neighbors pRow P;
                   Returns (P, pRow))
                (zeros (N * N), replicate 0 0)) as (s & Hs & ->).
    - reflexivity.
    - intros i s Hi ->. cbv zeta. rewrite Hempty by exact Hi.
      assert (Hnil : searchBeta 50 i [] (ln perplexity) tol 1 None None [] = []).
      { apply length_zero_iff_nil. rewrite searchBeta_length; simpl; lia. }
      rewrite Hnil. eexists. split; reflexivity.
    - exact Hs. }
  unfold nearest2P. rewrite Hrow0. cbv zeta. change (length []) with 0%nat.
  rewrite Hcal. unfold mbind, outcome_bind. cbv beta iota. f_equal. fold N.
  apply lookup_total_ext.
  - rewrite symmetrize_length by apply zeros_length. rewrite zeros_length. reflexivity.
  - intros x Hx. rewrite symmetrize_length in Hx by apply zeros_length.
    destruct (flat_decompose N x Hx) as (a & b & Ha & Hb & ->).
    rewrite symmetrize_lookup by (try apply zeros_length; assumption).
    rewrite !zeros_lookup. destruct (decide (a = b)); unfold Rdiv; lra.
Qed.

Lemma nearest2P_no_neighbours_witness :
  nearest2P [[]; []] 30 (1 / 10000) = Returns (zeros 4).
Proof.
  apply (nearest2P_no_neighbours [[]; []] 30 (1 / 10000)).
  - simpl. lia.
  - intros [|[|i]] Hi; simpl in Hi; try lia; reflexivity.
Defined.

(** X12. The calibrator makes no check of the neighbour indices: on a
    table with at least one row whose rows all have the same length it
    returns a matrix of [N * N] entries, also when an index is [N] or
    more (the entry is then written into a later row, or dropped when it
    falls outside the matrix). *)
Theorem nearest2P_unchecked_indices (nearest : list (list Neighbor)) (K : nat)
    (perplexity tol : R) :
  (1 <= length nearest)%nat ->
  (forall i, (i < length nearest)%nat -> length (nearest !!! i) = K) ->
  exists P, nearest2P nearest perplexity tol = Returns P /\
            length P = (length nearest * length nearest)%nat.
Proof.
  intros HN Hrows.
  destruct (lookup_lt_is_Some_2 nearest 0%nat) as [row0 Hrow0]; [lia|].
  pose proof (list_lookup_total_correct _ _ _ Hrow0) as Hrow0'.
  pose proof (Hrows 0%nat ltac:(lia)) as HK0. rewrite Hrow0' in HK0.
  destruct (forM_returns
              (fun _ (s : list R * list R) => length (snd s) = K)
              (length nearest)
              (fun i '(P, pRow) =>
                 let neighbors := nearest !!! i in
                 let pRow := searchBeta 50 i neighbors (ln perplexity) tol 1
                                        None None pRow in
                 P ← copyRow (length nearest) i neighbors pRow P;
                 Returns (P, pRow))
              (zeros (length nearest * length nearest), replicate K 0))
    as ([Praw pRow] & Hcal & _).
  - simpl. apply length_replicate.
  - intros a [P pRow] Ha HpRow. simpl in HpRow. cbv zeta.
    assert (Hl : length (searchBeta 50 a (nearest !!! a) (ln perplexity) tol 1
                           None None pRow) = K).
    { rewrite searchBeta_length; [exact HpRow|]. rewrite Hrows by exact Ha. lia. }
    destruct (copyRow_returns (length nearest) a (nearest !!! a)
                (searchBeta 50 a (nearest !!! a) (ln perplexity) tol 1
                   None None pRow) P) as [P' HP'].
    { rewrite Hl, Hrows by exact Ha. lia. }
    eexists. rewrite HP'. split; [reflexivity|exact Hl].
  - exists (symmetrize (length nearest) Praw).
    assert (Hcal' : calibrateRows nearest (ln perplexity) tol K
                    = Returns (Praw, pRow)) by exact Hcal.
    split; [unfold nearest2P; rewrite Hrow0, HK0, Hcal'; reflexivity|].
    apply symmetrize_length. exact (calibrateRows_length _ _ _ _ _ _ Hcal').
Qed.

Lemma nearest2P_unchecked_indices_witness :
  (1 <= length strayKnn)%nat /\
  exists P, nearest2P strayKnn 30 (1 / 10000) = Returns P /\
            length P = 4%nat.
Proof.
  split; [simpl; lia|].
  apply (nearest2P_unchecked_indices strayKnn 1 30 (1 / 10000)).
  - simpl. lia.
  - intros [|[|i]] Hi; simpl in Hi; try lia; reflexivity.
Defined.

(** ** Gradient evaluator *)

Lemma pointsOf_lookup e Y i :
  (i < TSNE.N e)%nat ->
  length (TSNE.pointsOf e Y !!! i) = TSNE.dim e /\
  forall d, (d < TSNE.dim e)%nat ->
    (TSNE.pointsOf e Y !!! i) !!! d = Y !!! (i * TSNE.dim e + d)%nat.
Proof.
  intros Hi. unfold TSNE.pointsOf.
  rewrite (for_snoc (TSNE.N e)
             (fun i => for_ (TSNE.dim e)
                         (fun d row => row ++ [Y !!! (i * TSNE.dim e + d)%nat]) [])).
  rewrite map_seq_lookup_total by exact Hi.
  rewrite (for_snoc (TSNE.dim e) (fun d => Y !!! (i * TSNE.dim e + d)%nat)).
  split; [rewrite length_map, length_seq; reflexivity|].
  intros d Hd. rewrite map_seq_lookup_total by exact Hd. reflexivity.
Qed.

Lemma costGrad_shape SP e Y :
  shaped (TSNE.N e) (TSNE.dim e) (TSNE.costGrad SP e Y).
Proof.
  unfold TSNE.costGrad.
  destruct (TSNE.forcesOf e _ _) as [Z forces].
  rewrite (for_ext _ _
             (fun i acc => acc ++ [let '(FPos, FNegZ) := forces !!! i in
                       for_ (TSNE.dim e) (fun d gsum =>
                         gsum ++ [4 * TSNE.alpha e * FPos !!! d
                                  - 4 / Z * FNegZ !!! d]) []]))
    by (intros k acc _; destruct (forces !!! k); reflexivity).
  rewrite (for_snoc (TSNE.N e)
             (fun i => let '(FPos, FNegZ) := forces !!! i in
                       for_ (TSNE.dim e) (fun d gsum =>
                         gsum ++ [4 * TSNE.alpha e * FPos !!! d
                                  - 4 / Z * FNegZ !!! d]) [])).
  split; [rewrite length_map, length_seq; reflexivity|].
  intros i Hi. rewrite map_seq_lookup_total by exact Hi.
  destruct (forces !!! i) as [FPos FNegZ].
  rewrite (for_snoc (TSNE.dim e)
             (fun d => 4 * TSNE.alpha e * FPos !!! d - 4 / Z * FNegZ !!! d)).
  rewrite length_map, length_seq. reflexivity.
Qed.

Lemma bound_dims e : bound e -> TSNE.dim e = 2%nat \/ TSNE.dim e = 3%nat.
Proof. intros [(H & _)|(H & _)]; [left|right]; exact H. Qed.

(** The loop over the neighbours of point [i] computes a sum. *)
Lemma attract_sum e points i d :
  bound e -> (d < TSNE.dim e)%nat ->
  TSNE.attract e points i !!! d
  = sumn (length (TSNE.nearest e !!! i)) (fun k =>
      let j := index ((TSNE.nearest e !!! i) !!! k) in
      TSNE.P e !!! (i * TSNE.N e + j)%nat
      / (1 + sqdist (TSNE.dim e) (points !!! i) (points !!! j))
      * ((points !!! i) !!! d - (points !!! j) !!! d)).
Proof.
  intros Hb Hd. unfold TSNE.attract.
  set (term := fun k : nat =>
         let j := index ((TSNE.nearest e !!! i) !!! k) in
         TSNE.P e !!! (i * TSNE.N e + j)%nat
         / (1 + sqdist (TSNE.dim e) (points !!! i) (points !!! j))
         * ((points !!! i) !!! d - (points !!! j) !!! d)).
  set (I := fun (k : nat) (F : list R) =>
         length F = TSNE.dim e /\ F !!! d = sumn k term).
  assert (HI : I (length (TSNE.nearest e !!! i))
                 (for_ (length (TSNE.nearest e !!! i)) (fun k Fpos =>
                    let j := index ((TSNE.nearest e !!! i) !!! k) in
                    let pij := TSNE.P e !!! (i * TSNE.N e + j)%nat in
                    let pointJ := points !!! j in
                    let squaredDistItoJ :=
                      TSNE.dist2 e (points !!! i) pointJ in
                    let premult := pij / (1 + squaredDistItoJ) in
                    TSNE.computeForce e Fpos premult (points !!! i) pointJ)
                    (TSNE.zeroVector e))).
  { apply (for_invariant I).
    - split; [apply zeroVector_length, bound_dims, Hb|].
      rewrite zeroVector_lookup. reflexivity.
    - intros k F _ [HF Hsum]. cbv zeta.
      destruct (bound_computeForce e F
                  (TSNE.P e !!! (i * TSNE.N e
                                 + index ((TSNE.nearest e !!! i) !!! k))%nat
                   / (1 + TSNE.dist2 e (points !!! i)
                            (points !!! index ((TSNE.nearest e !!! i) !!! k))))
                  (points !!! i)
                  (points !!! index ((TSNE.nearest e !!! i) !!! k)) Hb HF)
        as [HF' Hval].
      split; [exact HF'|].
      rewrite (Hval d Hd), Hsum, (bound_dist2 e _ _ Hb). reflexivity. }
  exact (proj2 HI).
Qed.

(** The positive force stored for point [i] is the one of [attract]. *)
Lemma forcesOf_attract e points root i :
  (i < TSNE.N e)%nat ->
  fst (snd (TSNE.forcesOf e points root) !!! i) = TSNE.attract e points i.
Proof.
  intros Hi. unfold TSNE.forcesOf.
  set (I := fun (n : nat) (s : R * list (list R * list R)) =>
         length (snd s) = n /\
         forall a, (a < n)%nat ->
           fst (snd s !!! a) = TSNE.attract e points a).
  assert (HI : I (TSNE.N e)
                 (for_ (TSNE.N e) (fun i '(Z, forces) =>
                    let pointI := points !!! i in
                    let Fpos := TSNE.attract e points i in
                    let '(Z, FnegZ) :=
                      visit (TSNE.repulse e pointI) root
                            (Z, TSNE.zeroVector e) in
                    (Z, forces ++ [(Fpos, FnegZ)])) (0, []))).
  { apply (for_invariant I).
    - split; [reflexivity|]. intros a Ha. lia.
    - intros n [Z forces] _ [Hlen Hall]. cbv zeta.
      destruct (visit _ _ _) as [Z' F']. unfold I. simpl snd in *.
      split; [rewrite length_app, Hlen; simpl; lia|].
      intros a Ha. destruct (decide (a < n)%nat) as [Hlt|Hge].
      + rewrite lookup_total_app_l by lia. apply Hall. exact Hlt.
      + assert (a = n) by lia. subst a.
        rewrite lookup_total_app_r by lia.
        rewrite Hlen, Nat.sub_diag. reflexivity. }
  exact (proj2 HI i Hi).
Qed.

(** X13. For an engine with the kernels of the constructor, at least
    one point, a table and a matrix [P] in range and a solution of
    [N * dim] entries, the
    gradient has [N] rows of [dim] numbers, and the entry of coordinate
    [d] of point [i] is [4 alpha] times the attraction of its neighbours,
    the sum over the neighbours [j] of [i] of
    [P[i, j] / (1 + |y_i - y_j|^2) * (y_i[d] - y_j[d])] with the points
    read from [Y] in row-major order, minus [4 / Z] times the repulsive
    force of the tree walk. *)
Theorem costGrad_entries (SP : list (list R) -> AugmSPNode) (e : TSNE.t)
    (Y : list R) :
  bound e -> (1 <= TSNE.N e)%nat -> tableInRange e ->
  length Y = (TSNE.N e * TSNE.dim e)%nat ->
  let points := TSNE.pointsOf e Y in
  let run := TSNE.forcesOf e points (TSNE.treeOf SP e points) in
  shaped (TSNE.N e) (TSNE.dim e) (TSNE.costGrad SP e Y) /\
  forall i d, (i < TSNE.N e)%nat -> (d < TSNE.dim e)%nat ->
    (TSNE.costGrad SP e Y !!! i) !!! d
    = 4 * TSNE.alpha e * attraction e Y i d
      - 4 / fst run * (snd (snd run !!! i)) !!! d.
Proof.
  intros Hb _ (_ & _ & Hidx) _ points run.
  split; [apply costGrad_shape|].
  intros i d Hi Hd.
  rewrite (costGrad_lookup SP e Y i d Hi Hd). fold points. fold run.
  unfold run. rewrite (forcesOf_attract e points _ i Hi).
  rewrite (attract_sum e points i d Hb Hd).
  f_equal. f_equal. unfold attraction.
  apply sumn_ext. intros k Hk. cbv zeta.
  pose proof (Hidx i k Hi Hk) as Hj.
  destruct (pointsOf_lookup e Y i Hi) as [_ Hpi].
  destruct (pointsOf_lookup e Y _ Hj) as [_ Hpj].
  fold points in Hpi, Hpj.
  rewrite (Hpi d Hd), (Hpj d Hd). f_equal. f_equal. f_equal.
  unfold sqdist. apply sumn_ext. intros c Hc.
  rewrite (Hpi c Hc), (Hpj c Hc). reflexivity.
Qed.

(** The engines that [initDataDist] returns for a table that lists only
    points of the table are in range. *)
Lemma initDataDist_inRange stack g e0 knn g' e :
  (forall i k, (i < length knn)%nat -> (k < length (knn !!! i))%nat ->
     (index ((knn !!! i) !!! k) < length knn)%nat) ->
  TSNE.initDataDist stack g e0 knn = Returns (g', e) ->
  tableInRange e.
Proof.
  intros Hidx. unfold TSNE.initDataDist.
  destruct (nearest2P knn (TSNE.perplexity e0) (1 / 10000)) as [p|msg] eqn:Hp;
    [|discriminate].
  destruct (nearest2P_unfold _ _ _ _ Hp) as (Praw & pRow & Hcal & ->).
  pose proof (symmetrize_length (length knn) Praw
                (calibrateRows_length _ _ _ _ _ _ Hcal)) as Hlen.
  unfold mbind at 1. unfold outcome_bind at 1. unfold TSNE.initSolution.
  cbn [TSNE.N TSNE.dim TSNE.rng].
  destruct (randnMatrix stack g (length knn) (TSNE.dim e0) (TSNE.rng e0))
    as [[[y g1] r1]|msg]; [|discriminate].
  simpl. intros [= <- <-]. unfold tableInRange. simpl.
  split; [reflexivity|]. split; [exact Hlen|exact Hidx].
Qed.

Lemma pairEngine_inRange : tableInRange pairEngine.
Proof.
  split; [reflexivity|]. split; [reflexivity|].
  intros [|[|i]] [|k] Hi Hk; simpl in *; lia.
Qed.

Lemma pairEngine_bound : bound pairEngine.
Proof. left. repeat split. Qed.

Lemma costGrad_entries_witness :
  bound pairEngine /\ tableInRange pairEngine /\
  (TSNE.costGrad leafTree pairEngine [1; 0; -1; 0] !!! 0%nat) !!! 0%nat
  = 4 * TSNE.alpha pairEngine * attraction pairEngine [1; 0; -1; 0] 0 0
    - 4 / fst (TSNE.forcesOf pairEngine
                 (TSNE.pointsOf pairEngine [1; 0; -1; 0])
                 (TSNE.treeOf leafTree pairEngine
                    (TSNE.pointsOf pairEngine [1; 0; -1; 0])))
      * (snd (snd (TSNE.forcesOf pairEngine
                     (TSNE.pointsOf pairEngine [1; 0; -1; 0])
                     (TSNE.treeOf leafTree pairEngine
                        (TSNE.pointsOf pairEngine [1; 0; -1; 0])))
              !!! 0%nat)) !!! 0%nat.
Proof.
  split; [apply pairEngine_bound|]. split; [apply pairEngine_inRange|].
  assert (HN : (1 <= TSNE.N pairEngine)%nat) by (simpl; lia).
  destruct (costGrad_entries leafTree pairEngine [1; 0; -1; 0]
              pairEngine_bound HN pairEngine_inRange eq_refl) as [_ H].
  apply (H 0%nat 0%nat); simpl; lia.
Defined.










(** ** Steps *)

Lemma step_frame SP e :
  TSNE.P (TSNE.step SP e) = TSNE.P e /\
  TSNE.nearest (TSNE.step SP e) = TSNE.nearest e /\
  TSNE.rng (TSNE.step SP e) = TSNE.rng e /\
  TSNE.perplexity (TSNE.step SP e) = TSNE.perplexity e /\
  TSNE.epsilon (TSNE.step SP e) = TSNE.epsilon e /\
  TSNE.dist2 (TSNE.step SP e) = TSNE.dist2 e /\
  TSNE.computeForce (TSNE.step SP e) = TSNE.computeForce e.
Proof.
  unfold TSNE.step. destruct (for_ _ _ _) as [[[G' S'] Y'] M'].
  repeat split.
Qed.

(** X15. Any number of steps keeps an initialized engine initialized
    (the solution keeps [N * dim] entries, gains and step memory keep
    [N] rows of [dim] numbers) and adds that number to the counter; the
    steps change the solution, the gains, the step memory and the counter
    only: [P], the neighbour table, the generator, the options and the
    kernels stay as they were. *)
Theorem steps_frame (SP : list (list R) -> AugmSPNode) (k : nat) (e : TSNE.t) :
  initialized e ->
  let after := TSNE.steps SP k e in
  initialized after /\
  TSNE.iter after = (TSNE.iter e + k)%nat /\
  TSNE.N after = TSNE.N e /\ TSNE.dim after = TSNE.dim e /\
  TSNE.P after = TSNE.P e /\ TSNE.nearest after = TSNE.nearest e /\
  TSNE.rng after = TSNE.rng e /\
  TSNE.perplexity after = TSNE.perplexity e /\
  TSNE.epsilon after = TSNE.epsilon e /\
  TSNE.dist2 after = TSNE.dist2 e /\
  TSNE.computeForce after = TSNE.computeForce e.
Proof.
  intros He after. subst after.
  destruct (steps_initialized k SP e He) as (Hi & HN & Hd & Ht).
  split; [exact Hi|]. split; [exact Ht|]. split; [exact HN|]. split; [exact Hd|].
  clear Hi HN Hd Ht He. induction k as [|k IH]; [repeat split|].
  rewrite steps_S.
  destruct (step_frame SP (TSNE.steps SP k e)) as (-> & -> & -> & -> & -> & -> & ->).
  exact IH.
Qed.

Lemma steps_frame_witness :
  initialized (engineAt 0) /\
  TSNE.iter (TSNE.steps leafTree 3 (engineAt 0)) = 3%nat /\
  TSNE.P (TSNE.steps leafTree 3 (engineAt 0)) = [0].
Proof.
  split; [apply engineAt_initialized|].
  destruct (steps_frame leafTree 3 (engineAt 0) (engineAt_initialized 0))
    as (_ & Ht & _ & _ & HP & _).
  split; [exact Ht|exact HP].
Defined.

(** X16. With a single point, and a table and a matrix [P] in range (the
    point has no neighbour or lists itself), every step leaves the point
    at the origin: whatever the gradient, the reprojection subtracts from
    the one row its own value. *)
Theorem single_point_step (SP : list (list R) -> AugmSPNode) (e : TSNE.t)
    (k : nat) :
  initialized e -> tableInRange e -> TSNE.N e = 1%nat ->
  TSNE.Y (TSNE.steps SP (S k) e) = zeros (TSNE.dim e).
Proof.
  intros He _ HN. rewrite steps_S.
  destruct (steps_initialized k SP e He) as (Hb & HbN & Hbd & _).
  set (before := TSNE.steps SP k e) in *.
  destruct (step_coordinates SP before Hb) as (Hafter & _ & _ & _ & Hval).
  destruct Hafter as (_ & HYlen & _).
  destruct (step_coordinates SP before Hb) as (_ & HN' & Hd' & _).
  rewrite HN', Hd', HbN, Hbd, HN in HYlen.
  rewrite HbN, Hbd, HN in Hval.
  apply lookup_total_ext.
  - rewrite HYlen, zeros_length. lia.
  - intros d Hd. rewrite HYlen in Hd. rewrite zeros_lookup.
    destruct (Hval 0%nat d) as (_ & _ & HY); [lia|lia|].
    simpl in HY. rewrite HY. simpl. field.
Qed.

Lemma engineAt_inRange t : tableInRange (engineAt t).
Proof.
  split; [reflexivity|]. split; [reflexivity|].
  intros [|i] k Hi Hk; simpl in *; lia.
Qed.

Lemma single_point_step_witness :
  initialized (engineAt 0) /\ tableInRange (engineAt 0) /\
  TSNE.Y (TSNE.steps leafTree 2 (engineAt 0)) = zeros 2.
Proof.
  split; [apply engineAt_initialized|]. split; [apply engineAt_inRange|].
  apply (single_point_step leafTree (engineAt 0) 1 (engineAt_initialized 0)
           (engineAt_inRange 0)).
  reflexivity.
Defined.

(** ** Tree annotation *)

Lemma vadd_lookup dim a b :
  length a = dim ->
  length (vadd dim a b) = dim /\
  forall d, (d < dim)%nat -> vadd dim a b !!! d = a !!! d + b !!! d.
Proof.
  intros Ha. unfold vadd.
  pose proof (for_invariant
    (fun k (v : list R) =>
       length v = dim /\
       forall d, (d < dim)%nat ->
         v !!! d = if decide (d < k)%nat then a !!! d + b !!! d else a !!! d)
    dim (fun d a => add_at a d (b !!! d)) a) as Hinv.
  destruct Hinv as [Hlen Hval].
  - split; [exact Ha|]. intros d _. destruct (decide (d < 0)%nat); [lia|reflexivity].
  - intros k v Hk [Hl Hv]. split; [rewrite add_at_length; exact Hl|].
    intros d Hd. rewrite add_at_lookup by lia.
    destruct (decide (d = k)) as [->|Hne].
    + rewrite (Hv k Hk). destruct (decide (k < k)%nat); [lia|].
      destruct (decide (k < S k)%nat); [reflexivity|lia].
    + rewrite (Hv d Hd).
      destruct (decide (d < k)%nat), (decide (d < S k)%nat); try lia; reflexivity.
  - split; [exact Hlen|]. intros d Hd. rewrite (Hval d Hd).
    destruct (decide (d < dim)%nat); [reflexivity|lia].
Qed.

Lemma coordSum_kids d n :
  coordSum d n
  = point n !!! d + foldr (fun c acc => coordSum d c + acc) 0 (kids n).
Proof.
  destruct n as [pt lo hi [cs|] m y r]; unfold kids; simpl; [|lra].
  rewrite overChildren_foldl. generalize (omap (fun c => c) cs). intros l.
  generalize (pt !!! d). induction l as [|c l IHl]; intros x; simpl; [lra|].
  rewrite IHl. lra.
Qed.

Lemma annotateChildren_sum dim cs m y :
  length y = dim ->
  let '(_, _, y') := annotateChildren (annotateTree dim) dim cs m y in
  length y' = dim /\
  forall d, (d < dim)%nat ->
    y' !!! d = y !!! d
               + foldr (fun c acc => snd (snd (annotateTree dim c)) !!! d + acc)
                       0 (omap (fun c => c) cs).
Proof.
  revert m y. induction cs as [|[c|] cs IH]; intros m y Hy; simpl.
  - split; [exact Hy|]. intros d _. lra.
  - destruct (annotateTree dim c) as [c' [mc yc]] eqn:Hc. simpl.
    destruct (vadd_lookup dim y yc Hy) as [Hl Hv].
    specialize (IH (m + mc)%nat (vadd dim y yc) Hl).
    destruct (annotateChildren _ _ cs _ _) as [[cs' m'] y'].
    destruct IH as [IH1 IH2]. split; [exact IH1|].
    intros d Hd. rewrite (IH2 d Hd), (Hv d Hd). simpl.
    change (list_omap (option AugmSPNode) AugmSPNode)
      with (@omap list _ (option AugmSPNode) AugmSPNode). lra.
  - specialize (IH m y Hy).
    destruct (annotateChildren _ _ cs _ _) as [[cs' m'] y']. exact IH.
Qed.

Lemma foldr_Rplus_ext {A : Type} (f g : A -> R) (l : list A) :
  Forall (fun c => f c = g c) l ->
  foldr (fun c acc => f c + acc) 0 l = foldr (fun c acc => g c + acc) 0 l.
Proof.
  induction 1 as [|c l Hc _ IHl]; simpl; [reflexivity|]. rewrite Hc, IHl. reflexivity.
Qed.

Lemma foldr_Rplus_map {A B : Type} (h : A -> B) (f : B -> R) (l : list A) :
  foldr (fun c acc => f c + acc) 0 (map h l)
  = foldr (fun c acc => f (h c) + acc) 0 l.
Proof. induction l as [|c l IHl]; simpl; [reflexivity|]. rewrite IHl. reflexivity. Qed.

Lemma annotateTree_centroid dim n :
  pointsHave dim n ->
  length (snd (snd (annotateTree dim n))) = dim /\
  (forall d, (d < dim)%nat ->
     snd (snd (annotateTree dim n)) !!! d = coordSum d n /\
     coordSum d (fst (annotateTree dim n)) = coordSum d n) /\
  nodes (fst (annotateTree dim n)) = nodes n /\
  everyNode (hasCentroid dim) (fst (annotateTree dim n)).
Proof.
  induction n as [n IH] using node_induction. intros Hpts.
  apply everyNode_kids in Hpts. destruct Hpts as [Hpt Hkids].
  assert (IH' : Forall (fun c =>
                  length (snd (snd (annotateTree dim c))) = dim /\
                  (forall d, (d < dim)%nat ->
                     snd (snd (annotateTree dim c)) !!! d = coordSum d c /\
                     coordSum d (fst (annotateTree dim c)) = coordSum d c) /\
                  nodes (fst (annotateTree dim c)) = nodes c /\
                  everyNode (hasCentroid dim) (fst (annotateTree dim c)))
                (kids n)).
  { rewrite Forall_forall in IH, Hkids. apply Forall_forall.
    intros c Hc. apply IH; [exact Hc|]. apply Hkids. exact Hc. }
  clear IH Hkids.
  destruct n as [pt lo hi [cs|] m y r].
  - unfold kids in IH'. simpl in IH', Hpt.
    pose proof (annotateChildren_kids dim cs 1%nat pt) as Hk.
    pose proof (annotateChildren_sum dim cs 1%nat pt Hpt) as Hs.
    pose proof (annotateTree_counts dim (mkNode pt lo hi (Some cs) m y r))
      as (_ & Hcount & _).
    cbn [annotateTree] in Hcount |- *.
    destruct (annotateChildren _ _ cs _ _) as [[cs' m'] y'].
    destruct Hk as [Hk _]. destruct Hs as [Hl Hv].
    cbn [fst snd numCells] in Hcount |- *.
    assert (Hsum : forall d, (d < dim)%nat ->
              y' !!! d = coordSum d (mkNode pt lo hi (Some cs) m y r)).
    { intros d Hd. rewrite (Hv d Hd), coordSum_kids. unfold kids. simpl.
      f_equal. apply foldr_Rplus_ext.
      eapply Forall_impl; [exact IH'|]. intros c (_ & Hc & _). apply (Hc d Hd). }
    assert (Hsame : forall d, (d < dim)%nat ->
              coordSum d (mkNode pt lo hi (Some cs') m'
                            (map (fun v => v / INR m') y') r)
              = coordSum d (mkNode pt lo hi (Some cs) m y r)).
    { intros d Hd. rewrite !coordSum_kids. unfold kids. simpl. rewrite Hk.
      f_equal. rewrite foldr_Rplus_map. apply foldr_Rplus_ext.
      eapply Forall_impl; [exact IH'|]. intros c (_ & Hc & _). apply (Hc d Hd). }
    assert (Hnodes : nodes (mkNode pt lo hi (Some cs') m'
                              (map (fun v => v / INR m') y') r)
                     = nodes (mkNode pt lo hi (Some cs) m y r)).
    { rewrite !nodes_kids. unfold kids. simpl. rewrite Hk. f_equal.
      rewrite foldr_plus_map. apply foldr_plus_ext.
      eapply Forall_impl; [exact IH'|]. intros c (_ & _ & Hc & _). exact Hc. }
    split; [exact Hl|]. split; [intros d Hd; split; [apply Hsum|apply Hsame]; exact Hd|].
    split; [exact Hnodes|].
    apply everyNode_kids. split.
    + unfold hasCentroid. cbn [yCell]. split; [rewrite length_map; exact Hl|].
      intros d Hd. rewrite Hnodes, <- Hcount, (Hsame d Hd), <- (Hsum d Hd).
      apply list_lookup_total_correct.
      rewrite list_lookup_fmap.
      rewrite (list_lookup_lookup_total_lt y' d) by lia. reflexivity.
    + unfold kids. cbn [children]. rewrite Hk. apply Forall_fmap.
      eapply Forall_impl; [exact IH'|]. intros c (_ & _ & _ & Hc). exact Hc.
  - simpl in Hpt. rewrite annotateTree_leaf. cbn [fst snd].
    split; [exact Hpt|]. split; [intros d Hd; split; reflexivity|].
    split; [reflexivity|].
    apply everyNode_kids. split; [|unfold kids; simpl; constructor].
    unfold hasCentroid. simpl. split; [exact Hpt|]. intros d Hd. field.
Qed.

(** X17. When every node of the tree keeps a point of [dim]
    coordinates, the annotation pass stores in every node the centroid of
    the points kept in the node and below it: each coordinate of [yCell]
    is the sum of that coordinate over those points divided by their
    number.  The pass keeps the number of nodes. *)
Theorem annotateTree_centroids (dim : nat) (t : AugmSPNode) :
  pointsHave dim t ->
  let root := fst (annotateTree dim t) in
  everyNode (hasCentroid dim) root /\
  nodes root = nodes t /\
  forall d, (d < dim)%nat ->
    coordSum d root = coordSum d t /\
    yCell root !!! d = coordSum d t / INR (nodes t).
Proof.
  intros Hpts root.
  destruct (annotateTree_centroid dim t Hpts) as (_ & Hsum & Hnodes & Hevery).
  split; [exact Hevery|]. split; [exact Hnodes|].
  intros d Hd. destruct (Hsum d Hd) as [_ Hsame]. split; [exact Hsame|].
  apply everyNode_kids in Hevery. destruct Hevery as [[_ Hc] _].
  fold root in Hc, Hsame, Hnodes. rewrite (Hc d Hd), Hsame, Hnodes. reflexivity.
Qed.

Lemma twoPointTree_points : pointsHave 2 twoPointTree.
Proof.
  apply everyNode_kids. split; [reflexivity|].
  unfold kids. simpl. constructor; [|constructor].
  apply everyNode_kids. split; [reflexivity|]. unfold kids. simpl. constructor.
Qed.

Lemma annotateTree_centroids_witness :
  pointsHave 2 twoPointTree /\
  yCell (fst (annotateTree 2 twoPointTree)) !!! 0%nat
  = coordSum 0 twoPointTree / INR (nodes twoPointTree).
Proof.
  split; [apply twoPointTree_points|].
  destruct (annotateTree_centroids 2 twoPointTree twoPointTree_points)
    as (_ & _ & H).
  apply (H 0%nat). lia.
Defined.

Lemma annotateChildren_again dim cs m y :
  Forall (fun c => annotateTree dim (fst (annotateTree dim c))
                   = annotateTree dim c) (omap (fun c => c) cs) ->
  let '(cs', m', y') := annotateChildren (annotateTree dim) dim cs m y in
  annotateChildren (annotateTree dim) dim cs' m y = (cs', m', y').
Proof.
  revert m y. induction cs as [|[c|] cs IH]; intros m y Hall; simpl.
  - reflexivity.
  - simpl in Hall. apply Forall_cons in Hall. destruct Hall as [Hc Hall].
    destruct (annotateTree dim c) as [c' [mc yc]] eqn:Hac. simpl in *.
    specialize (IH (m + mc)%nat (vadd dim y yc) Hall).
    destruct (annotateChildren _ _ cs _ _) as [[cs' m'] y'].
    simpl. rewrite Hc. simpl. rewrite IH. reflexivity.
  - simpl in Hall. specialize (IH m y Hall).
    destruct (annotateChildren _ _ cs _ _) as [[cs' m'] y'].
    simpl. rewrite IH. reflexivity.
Qed.

(** X18. The annotation pass reads only the points and the shape of the
    tree: it keeps the point, the cell and the extent of the root and
    whether it is a leaf, and annotating a tree that is already annotated
    changes nothing (same tree, same count and coordinate sum returned). *)
Theorem annotateTree_idempotent (dim : nat) (t : AugmSPNode) :
  let root := fst (annotateTree dim t) in
  annotateTree dim root = annotateTree dim t /\
  point root = point t /\ low root = low t /\ high root = high t /\
  rCell root = rCell t /\ is_leaf root = is_leaf t.
Proof.
  cbn zeta. split.
  - induction t as [n IH] using node_induction.
    destruct n as [pt lo hi [cs|] m y r]; [|reflexivity].
    unfold kids in IH. simpl in IH. cbn [annotateTree].
    pose proof (annotateChildren_again dim cs 1%nat pt IH) as Hagain.
    destruct (annotateChildren _ _ cs _ _) as [[cs' m'] y'].
    cbn [fst annotateTree]. rewrite Hagain. reflexivity.
  - destruct t as [pt lo hi [cs|] m y r]; cbn [annotateTree].
    + destruct (annotateChildren _ _ cs _ _) as [[cs' m'] y'].
      repeat split.
    + repeat split.
Qed.

(** ** Two numbers for one polar draw *)

(** X19. Two calls of [gaussRandom] in a row, starting with an empty
    cache, cost one polar draw: the first call answers [u c] from the
    first accepted pair, the second call answers [v c] from the cache
    without calling the generator, and the cache is empty again. *)
Theorem gaussRandom_twice (stack k : nat) (w : R) (rng : RNG) :
  (forall j, (j < k)%nat -> rejected rng j) -> ~ rejected rng k ->
  (k < stack)%nat ->
  let c := sqrt (-2 * ln (pairR rng k) / pairR rng k) in
  exists g1 rng1,
    gaussRandom stack {| return_v := false; v_val := w |} rng
    = Returns (pairU rng k * c, g1, rng1) /\
    rng1 = advance rng (2 * (k + 1)) /\
    gaussRandom stack g1 rng1
    = Returns (pairV rng k * c,
               {| return_v := false; v_val := pairV rng k * c |}, rng1).
Proof.
  intros Hrej Hacc Hk c. eexists. eexists.
  split; [apply gaussRandom_accepted_at; assumption|].
  split; [reflexivity|].
  rewrite gaussRandom_cached by reflexivity. reflexivity.
Qed.

Lemma gaussRandom_twice_witness :
  (forall j, (j < 1)%nat -> rejected secondPairRng j) /\
  ~ rejected secondPairRng 1 /\
  exists x g1 rng1,
    gaussRandom 2 module_init secondPairRng = Returns (x, g1, rng1) /\
    rng1 = advance secondPairRng 4.
Proof.
  assert (H0 : forall j, (j < 1)%nat -> rejected secondPairRng j).
  { intros j Hj. replace j with 0%nat by lia. apply secondPairRng_pairs. }
  split; [exact H0|]. split; [apply secondPairRng_pairs|].
  destruct (gaussRandom_twice 2 1 0 secondPairRng H0 (proj2 secondPairRng_pairs))
    as (g1 & rng1 & H1 & H2 & _); [lia|].
  eexists. exists g1, rng1. split; [exact H1|exact H2].
Defined.

(** ** Gains over several steps *)

Lemma newgain_range gid sid gainid :
  1 / 100 <= gainid ->
  8 / 10 * gainid <= TSNE.newgain gid sid gainid <= gainid + 2 / 10.
Proof.
  intros Hg. unfold TSNE.newgain.
  destruct (decide (sign gid = sign sid));
    match goal with |- context [decide (?x < 1 / 100)] =>
      destruct (decide (x < 1 / 100)) end; lra.
Qed.

Lemma step_gains_range SP e lo hi :
  initialized e -> 1 / 100 <= lo ->
  (forall i d, (i < TSNE.N e)%nat -> (d < TSNE.dim e)%nat ->
     lo <= (TSNE.gains e !!! i) !!! d <= hi) ->
  forall i d, (i < TSNE.N e)%nat -> (d < TSNE.dim e)%nat ->
    Rmax (1 / 100) (8 / 10 * lo) <= (TSNE.gains (TSNE.step SP e) !!! i) !!! d
    <= hi + 2 / 10.
Proof.
  intros He Hlo Hrange i d Hi Hd.
  destruct (step_coordinates SP e He) as (_ & _ & _ & _ & Hval).
  destruct (Hval i d Hi Hd) as (-> & _ & _). unfold gainAfter.
  specialize (Hrange i d Hi Hd).
  assert (Hg : 1 / 100 <= (TSNE.gains e !!! i) !!! d) by lra.
  pose proof (newgain_range
                ((TSNE.costGrad SP (TSNE.tick e) (TSNE.Y e) !!! i) !!! d)
                ((TSNE.ystep e !!! i) !!! d) ((TSNE.gains e !!! i) !!! d)
                Hg) as Hng.
  pose proof (proj2 (newgain_floor
                ((TSNE.costGrad SP (TSNE.tick e) (TSNE.Y e) !!! i) !!! d)
                ((TSNE.ystep e !!! i) !!! d) ((TSNE.gains e !!! i) !!! d))) as Hfl.
  split; [|lra]. apply Rmax_lub; lra.
Qed.

(** X20. A step changes each gain by a bounded amount: a gain that is
    at least 0.01 is at least 0.8 times itself and at most itself plus 0.2
    after the step.  So when the gains of an initialized engine are at
    most [hi], they are at most [hi + 0.2 k] after [k] steps (at most
    [1 + 0.2 k] after [initDataDist]). *)
Theorem steps_gains_growth (SP : list (list R) -> AugmSPNode) (e : TSNE.t)
    (hi : R) (k : nat) :
  initialized e ->
  (forall i d, (i < TSNE.N e)%nat -> (d < TSNE.dim e)%nat ->
     1 / 100 <= (TSNE.gains e !!! i) !!! d <= hi) ->
  forall i d, (i < TSNE.N e)%nat -> (d < TSNE.dim e)%nat ->
    1 / 100 <= (TSNE.gains (TSNE.steps SP k e) !!! i) !!! d <= hi + 2 / 10 * INR k /\
    8 / 10 * (TSNE.gains (TSNE.steps SP k e) !!! i) !!! d
    <= (TSNE.gains (TSNE.steps SP (S k) e) !!! i) !!! d
    <= (TSNE.gains (TSNE.steps SP k e) !!! i) !!! d + 2 / 10.
Proof.
  intros He Hrange.
  assert (Hall : forall k i d, (i < TSNE.N e)%nat -> (d < TSNE.dim e)%nat ->
            1 / 100 <= (TSNE.gains (TSNE.steps SP k e) !!! i) !!! d
            <= hi + 2 / 10 * INR k).
  { clear k. induction k as [|k IH]; intros i d Hi Hd.
    - simpl. specialize (Hrange i d Hi Hd). lra.
    - rewrite steps_S, S_INR.
      destruct (steps_initialized k SP e He) as (Hk & HN & Hdim & _).
      pose proof (step_gains_range SP (TSNE.steps SP k e) (1 / 100)
                    (hi + 2 / 10 * INR k) Hk (Rle_refl _)) as Hstep.
      rewrite HN, Hdim in Hstep. specialize (Hstep IH i d Hi Hd).
      pose proof (Rmax_l (1 / 100) (8 / 10 * (1 / 100))). lra. }
  intros i d Hi Hd. split; [apply Hall; assumption|].
  rewrite steps_S.
  destruct (steps_initialized k SP e He) as (Hk & HN & Hdim & _).
  destruct (step_coordinates SP (TSNE.steps SP k e) Hk) as (_ & _ & _ & _ & Hval).
  rewrite HN, Hdim in Hval. destruct (Hval i d Hi Hd) as (-> & _ & _).
  unfold gainAfter. apply newgain_range. apply Hall; assumption.
Qed.

Lemma steps_gains_growth_witness :
  initialized (engineAt 0) /\
  (TSNE.gains (TSNE.steps leafTree 5 (engineAt 0)) !!! 0%nat) !!! 0%nat
  <= 1 + 2 / 10 * INR 5.
Proof.
  split; [apply engineAt_initialized|].
  destruct (steps_gains_growth leafTree (engineAt 0) 1 5
              (engineAt_initialized 0)) with (i := 0%nat) (d := 0%nat)
    as [[_ H] _].
  - intros [|i] [|[|d]] Hi Hd; simpl in *; try lia; lra.
  - simpl. lia.
  - simpl. lia.
  - exact H.
Defined.

(** ** Move and step memory *)

(** X21. The step memory that a step stores is the move it makes, up
    to the recentring: for every coordinate, the new solution is the old
    one plus the stored step minus an amount that is the same for all the
    points, so the difference between two points changes by exactly the
    difference of their stored steps. *)
Theorem step_displacement (SP : list (list R) -> AugmSPNode) (e : TSNE.t)
    (i j d : nat) :
  initialized e ->
  (i < TSNE.N e)%nat -> (j < TSNE.N e)%nat -> (d < TSNE.dim e)%nat ->
  let after := TSNE.step SP e in
  let y (e : TSNE.t) (i : nat) := TSNE.Y e !!! (i * TSNE.dim e + d)%nat in
  let s (i : nat) := (TSNE.ystep after !!! i) !!! d in
  y after i - y after j = (y e i + s i) - (y e j + s j).
Proof.
  intros He Hi Hj Hd after y s. subst after y s. cbv beta.
  destruct (step_coordinates SP e He) as (_ & _ & Hdim & _ & Hval).
  rewrite Hdim.
  destruct (Hval i d Hi Hd) as (_ & -> & ->).
  destruct (Hval j d Hj Hd) as (_ & -> & ->).
  unfold solutionAfter. change (TSNE.dim (TSNE.tick e)) with (TSNE.dim e). lra.
Qed.

Lemma step_displacement_witness :
  initialized pairEngine /\
  TSNE.Y (TSNE.step leafTree pairEngine) !!! (0 * 2 + 0)%nat
  - TSNE.Y (TSNE.step leafTree pairEngine) !!! (1 * 2 + 0)%nat
  = (TSNE.Y pairEngine !!! (0 * 2 + 0)%nat
     + (TSNE.ystep (TSNE.step leafTree pairEngine) !!! 0%nat) !!! 0%nat)
    - (TSNE.Y pairEngine !!! (1 * 2 + 0)%nat
       + (TSNE.ystep (TSNE.step leafTree pairEngine) !!! 1%nat) !!! 0%nat).
Proof.
  split; [apply pairEngine_initialized|].
  apply (step_displacement leafTree pairEngine 0 1 0 pairEngine_initialized);
    simpl; lia.
Defined.
